(** * Alignment, merge and identification-voting engine

    A shallow embedding of the pure parts of the transcription and
    diarization service:

    - [Diarization._make_exclusive]      (services/diarization.py)
    - [Merger._find_speaker_at_time],
      [Merger._assign_words_to_speakers],
      [Merger._group_words_into_turns],
      [Merger._merge_segment_level],
      [Merger.merge_transcription_with_diarization]
                                          (services/transcript_merger.py)
    - [Voting.identify_speaker_by_voting] (services/speaker_db.py)

    A Python float is held as the rational number ([Q]) it is equal to,
    so that the comparisons of the code are the comparisons of [Q]; the
    sums, differences and quotients that the code computes on floats are
    rounded to binary64 ([Float64]).  A decimal number that is not a
    binary64 number stands for the float nearest to it, as a literal does
    in Python: the operations of [Float64] read it so.  A Python [str] is
    held as its UTF-8 bytes.  A Python [dict] with string keys that is
    only read by key is a [gmap]; a [dict] whose iteration order matters
    is an association list in insertion order; a key that may be missing
    from a [dict] is an [option] field. *)

From Stdlib Require Import QArith Qround ZArith Lia Ascii String.
From Stdlib Require SpecFloat.
From stdpp Require Import base list sorting strings gmap.

Local Open Scope Q_scope.

(** ** Floating-point arithmetic *)

Module Float64.

(** IEEE 754 binary64: 53 bits of precision, infinities at the exponent
    1024. *)
Definition prec : Z := 53.
Definition emax : Z := 1024.

(** The binary64 number nearest to a rational, ties going to the even
    mantissa.  It is the float that Python reads from a decimal literal,
    and it is the rational itself when that is a binary64 number.  A
    rational beyond the largest float gives an infinity. *)
Definition of_Q (q : Q) : SpecFloat.spec_float :=
  match Qnum q with
  | Z0 => SpecFloat.S754_zero false
  | Zpos n =>
      let '(m, e, l) :=
        SpecFloat.SFdiv_core_binary prec emax (Zpos n) 0 (Zpos (Qden q)) 0 in
      SpecFloat.binary_round_aux prec emax false m e l
  | Zneg n =>
      let '(m, e, l) :=
        SpecFloat.SFdiv_core_binary prec emax (Zpos n) 0 (Zpos (Qden q)) 0 in
      SpecFloat.binary_round_aux prec emax true m e l
  end.

(** [2 ^ e] *)
Definition pow2 (e : Z) : Q :=
  match e with
  | Z0 => 1
  | Zpos p => inject_Z (2 ^ Zpos p)
  | Zneg p => 1 # (2 ^ p)
  end.

(** The rational that a float is equal to, in lowest terms.  An infinity
    is given the value [2 ^ 1024], which is above every float and which
    [of_Q] takes back to the infinity: comparisons and further arithmetic
    see an infinity.  Not-a-number has the value 0; a sum, a difference or
    a quotient by a positive count of finite floats is never
    not-a-number. *)
Definition to_Q (x : SpecFloat.spec_float) : Q :=
  match x with
  | SpecFloat.S754_zero _ => 0
  | SpecFloat.S754_finite s m e =>
      Qred (inject_Z (if s then Zneg m else Zpos m) * pow2 e)
  | SpecFloat.S754_infinity s => if s then - pow2 emax else pow2 emax
  | SpecFloat.S754_nan => 0
  end.

(** A decimal literal [q] of the source, as the float it denotes. *)
Definition lit (q : Q) : Q := to_Q (of_Q q).

(** [a + b], [a - b] and [a / b] on floats. *)
Definition add (a b : Q) : Q :=
  to_Q (SpecFloat.SFadd prec emax (of_Q a) (of_Q b)).

Definition sub (a b : Q) : Q :=
  to_Q (SpecFloat.SFsub prec emax (of_Q a) (of_Q b)).

Definition div (a b : Q) : Q :=
  to_Q (SpecFloat.SFdiv prec emax (of_Q a) (of_Q b)).

End Float64.

(** ** Numbers *)

Module Num.

(** [a < b] on floats, as a boolean. *)
Definition Qltb (a b : Q) : bool := negb (Qle_bool b a).

(** Rounding to the nearest integer, exact halves going to the even
    neighbour: what Python's [round] does. *)
Definition round_half_even (q : Q) : Z :=
  let f := Qfloor q in
  match Qcompare (q - inject_Z f) (1 # 2) with
  | Lt => f
  | Gt => (f + 1)%Z
  | Eq => if Z.even f then f else (f + 1)%Z
  end.

(** [round(q, 3)] of a float: the value of the float, rounded to three
    decimals.  The result is kept as that decimal number, which stands
    for the float nearest to it, the one that Python returns and prints
    as this decimal. *)
Definition round3 (q : Q) : Q :=
  Qred (inject_Z (round_half_even (Float64.lit q * 1000)) / 1000).

(** [sum(scores)] on floats: starts from [0] and adds from the left,
    every addition rounded (the loop of CPython's [sum]; the correction
    of the rounding errors that [sum] carries along from Python 3.12 on
    is not modelled). *)
Definition sum (l : list Q) : Q := fold_left Float64.add l 0.

End Num.

(** ** services/diarization.py *)

Module Diarization.
Import Num.

(** A diarization segment, the dict built by [diarize]. *)
Record segment := mk_segment {
  speaker : string;
  start : Q;
  end_ : Q;
  duration : Q
}.

(** [sorted(segments, key=lambda x: x["start"])]: Python's sort is
    stable, so it is the insertion sort that places an element before
    the elements of equal key that came after it. *)
Fixpoint insert_by_start (x : segment) (l : list segment) : list segment :=
  match l with
  | [] => [x]
  | y :: l' =>
      if Qle_bool (start x) (start y) then x :: y :: l'
      else y :: insert_by_start x l'
  end.

Definition sorted_by_start (l : list segment) : list segment :=
  foldr insert_by_start [] l.

(** [last["end"] = seg["start"]; last["duration"] = round(...)] *)
Definition truncate (l seg : segment) : segment :=
  {| speaker := speaker l;
     start := start l;
     end_ := start seg;
     duration := round3 (Float64.sub (start seg) (start l)) |}.

(** One iteration of the loop over [sorted_segments]; [exclusive] is
    the list built so far. *)
Definition make_exclusive_step (exclusive : list segment) (seg : segment)
  : list segment :=
  match last exclusive with
  | None => exclusive ++ [seg]
  | Some l =>
      if Qltb (start seg) (end_ l) then
        let l' := truncate l seg in
        if Qle_bool (duration l') 0
        then removelast exclusive ++ [seg]
        else removelast exclusive ++ [l'; seg]
      else exclusive ++ [seg]
  end.

Definition _make_exclusive (segments : list segment) : list segment :=
  match segments with
  | [] => segments
  | _ => fold_left make_exclusive_step (sorted_by_start segments) []
  end.

(** *** Properties of an exclusive timeline *)

Definition starts_ascending (l : list segment) : Prop :=
  forall (i j : nat) (a b : segment),
    l !! i = Some a -> l !! j = Some b -> (i < j)%nat -> start a <= start b.

Definition non_overlapping (l : list segment) : Prop :=
  forall (i j : nat) (a b : segment),
    l !! i = Some a -> l !! j = Some b -> (i < j)%nat -> end_ a <= start b.

(** The element of the output that came from [s], when it is kept. *)
Definition kept_from (segments : list segment) (e : segment) : Prop :=
  e ∈ segments
  \/ exists s s', s ∈ segments /\ s' ∈ segments /\
       start s' < end_ s /\ e = truncate s s' /\ 0 < duration e.

(** What the loop does to a segment [s] followed by [s'] in start
    order. *)
Definition truncate_before (s s' : segment) : list segment :=
  if Qltb (start s') (end_ s) then
    if Qle_bool (duration (truncate s s')) 0 then [] else [truncate s s']
  else [s].

Fixpoint pairwise_truncate (l : list segment) : list segment :=
  match l with
  | [] => []
  | s :: r =>
      match r with
      | [] => [s]
      | s' :: _ => truncate_before s s' ++ pairwise_truncate r
      end
  end.

(** The order of two segments in an exclusive timeline. *)
Definition before (a b : segment) : Prop :=
  start a <= start b /\ end_ a <= start b.

Definition start_le (a b : segment) : Prop := start a <= start b.

(** The example of the specification: [{A,0,5}, {B,3,8}]. *)
Definition overlapping_pair : list segment :=
  [ mk_segment "A" 0 5 5; mk_segment "B" 3 8 5 ].

End Diarization.

(** ** services/transcript_merger.py *)

Module Merger.
Import Num Diarization.

(** *** Python helpers *)

(** The white space that [str.strip] removes is the characters of
    [str.isspace].  In the ASCII range, one byte each: tab, line feed,
    vertical tab, form feed, carriage return, the four separators 28 to
    31, and space. *)
Definition is_space (c : ascii) : bool :=
  let n := nat_of_ascii c in
  ((9 <=? n)%nat && (n <=? 13)%nat)
  || ((28 <=? n)%nat && (n <=? 32)%nat).

(** Beyond ASCII, by their UTF-8 bytes: U+0085 and U+00A0 (C2 85, C2 A0), *)
Definition is_space2 (c d : ascii) : bool :=
  let '(c, d) := (N_of_ascii c, N_of_ascii d) in
  ((c =? 194) && ((d =? 133) || (d =? 160)))%N.

(** U+1680 (E1 9A 80), U+2000 to U+200A, U+2028, U+2029 and U+202F
    (E2 80 80 to 8A, A8, A9, AF), U+205F (E2 81 9F) and U+3000
    (E3 80 80). *)
Definition is_space3 (c d e : ascii) : bool :=
  let '(c, d, e) := (N_of_ascii c, N_of_ascii d, N_of_ascii e) in
  (((c =? 225) && (d =? 154) && (e =? 128))
   || ((c =? 226) && (d =? 128)
       && (((128 <=? e) && (e <=? 138))
           || (e =? 168) || (e =? 169) || (e =? 175)))
   || ((c =? 226) && (d =? 129) && (e =? 159))
   || ((c =? 227) && (d =? 128) && (e =? 128)))%N.

(** The string without the white-space characters at its head; [space2]
    and [space3] recognise the characters of two and of three bytes. *)
Fixpoint strip_head (space2 : ascii -> ascii -> bool)
    (space3 : ascii -> ascii -> ascii -> bool) (s : string) : string :=
  match s with
  | EmptyString => EmptyString
  | String c s1 =>
      if is_space c then strip_head space2 space3 s1
      else
        match s1 with
        | EmptyString => s
        | String d s2 =>
            if space2 c d then strip_head space2 space3 s2
            else
              match s2 with
              | EmptyString => s
              | String e s3 =>
                  if space3 c d e then strip_head space2 space3 s3 else s
              end
        end
  end.

Definition lstrip (s : string) : string := strip_head is_space2 is_space3 s.

(** At the end of the string the bytes of a character are met last byte
    first. *)
Definition rstrip (s : string) : string :=
  String.rev
    (strip_head (fun d c => is_space2 c d) (fun e d c => is_space3 c d e)
                (String.rev s)).

(** [s.strip()] *)
Definition strip (s : string) : string := rstrip (lstrip s).

(** A no-break space (U+00A0), an ideographic space (U+3000) and a
    zero-width space (U+200B, which is not white space), in UTF-8. *)
Definition no_break_space : string := String "194" (String "160" "").

Definition ideographic_space : string :=
  String "227" (String "128" (String "128" "")).

Definition zero_width_space : string :=
  String "226" (String "128" (String "139" "")).

(** [x or d] for an optional string: [None] and the empty string are
    falsy. *)
Definition str_or (x : option string) (d : string) : string :=
  match x with
  | Some EmptyString | None => d
  | Some s => s
  end.

(** [bool(d)] for an optional dict: [None] and the empty dict are falsy. *)
Definition dict_truthy {V} (d : option (gmap string V)) : bool :=
  match d with
  | Some m => negb (bool_decide (m = ∅))
  | None => false
  end.

(** [d.get(k)] where the stored values may themselves be [None]. *)
Definition dict_get {V} (d : option (gmap string (option V))) (k : string)
  : option V :=
  match d with
  | Some m => mjoin (m !! k)
  | None => None
  end.

(** A key of a result dict that may be missing, and whose value may be
    [None]: [None] is a missing key, [Some None] a key holding [None]. *)
Definition is_null {V} (field : option (option V)) : Prop :=
  mjoin field = None.

(** *** Data *)

(** A word of the transcription, with the [speaker] key that
    [_assign_words_to_speakers] adds.  Every key may be missing. *)
Record word := mk_word {
  w_word : option string;
  w_start : option Q;
  w_end : option Q;
  w_speaker : option string
}.

(** A segment of the transcription. *)
Record whisper_segment := mk_whisper_segment {
  ws_start : option Q;
  ws_end : option Q;
  ws_text : option string;
  ws_words : option (list word)
}.

Record whisper_result := mk_whisper_result {
  wr_text : option string;
  wr_words : option (list word);
  wr_segments : option (list whisper_segment);
  wr_duration : option Q;
  wr_language : option string
}.

Record diarization_result := mk_diarization_result {
  dr_segments : option (list segment);
  dr_num_speakers : option nat;
  dr_audio_duration : option Q
}.

(** A speaker turn of the merged result. *)
Record turn := mk_turn {
  t_speaker : string;
  t_identified_as : option (option string);
  t_confidence : option (option Q);
  t_start : Q;
  t_end : Q;
  t_duration : option Q;
  t_text : string
}.

Record merged_result := mk_merged_result {
  m_text : string;
  m_segments : list turn;
  m_words : option (list word);
  m_num_speakers : nat;
  m_duration : Q;
  m_language : option (option string)
}.

(** *** [_find_speaker_at_time] *)

(** [seg["start"] <= timestamp <= seg["end"]] *)
Definition contains (seg : segment) (timestamp : Q) : bool :=
  Qle_bool (start seg) timestamp && Qle_bool timestamp (end_ seg).

(** The first loop: the first segment that contains the timestamp. *)
Fixpoint first_containing (timestamp : Q) (diar_segments : list segment)
  : option segment :=
  match diar_segments with
  | [] => None
  | seg :: rest =>
      if contains seg timestamp then Some seg
      else first_containing timestamp rest
  end.

(** The distance that the second loop computes: a difference of two
    floats, rounded. *)
Definition distance (timestamp : Q) (seg : segment) : Q :=
  if Qltb timestamp (start seg) then Float64.sub (start seg) timestamp
  else if Qltb (end_ seg) timestamp then Float64.sub timestamp (end_ seg)
  else 0.

(** [distance < min_distance], where [None] is [float("inf")]. *)
Definition below (d : Q) (min_distance : option Q) : bool :=
  match min_distance with
  | Some m => Qltb d m
  | None => true
  end.

(** The second loop; the state is [(min_distance, nearest_speaker)]. *)
Definition nearest_step (timestamp : Q)
    (st : option Q * option string) (seg : segment)
  : option Q * option string :=
  let d := distance timestamp seg in
  if below d (fst st) then (Some d, Some (speaker seg)) else st.

Definition tolerance : Q := 0.5.

Definition _find_speaker_at_time (timestamp : Q) (diar_segments : list segment)
  : option string :=
  match first_containing timestamp diar_segments with
  | Some seg => Some (speaker seg)
  | None =>
      let '(min_distance, nearest_speaker) :=
        fold_left (nearest_step timestamp) diar_segments (None, None) in
      match min_distance with
      | Some d => if Qltb d tolerance then nearest_speaker else None
      | None => None
      end
  end.

(** [seg], at index [k], is the first segment of the timeline at the
    minimum distance from [timestamp]. *)
Definition first_nearest (timestamp : Q) (timeline : list segment)
    (k : nat) (seg : segment) : Prop :=
  timeline !! k = Some seg
  /\ (forall j s, timeline !! j = Some s ->
        distance timestamp seg <= distance timestamp s)
  /\ (forall j s, (j < k)%nat -> timeline !! j = Some s ->
        distance timestamp seg < distance timestamp s).

(** A timeline with a segment of no duration between two others. *)
Definition timeline_with_instant : list segment :=
  [ mk_segment "X" 0 5 5; mk_segment "A" 5 5 0; mk_segment "B" 5 8 3 ].

(** The timeline of the specification's example, after
    [_make_exclusive]. *)
Definition two_speaker_timeline : list segment :=
  [ mk_segment "A" 0 3 3; mk_segment "B" 3 8 5 ].

(** The distance of the specification, "0 if inside, else the gap to the
    nearer boundary": the gap as the real number it is. *)
Definition spec_distance (timestamp : Q) (seg : segment) : Q :=
  if Qltb timestamp (start seg) then start seg - timestamp
  else if Qltb (end_ seg) timestamp then timestamp - end_ seg
  else 0.

(** A segment that ends at the float 0.086, and the float 0.586 as a
    timestamp: the two floats are less than half a second apart, and
    their difference rounds to 0.5. *)
Definition short_timeline : list segment :=
  [ mk_segment "A" 0 (Float64.lit 0.086) (Float64.lit 0.086) ].

Definition late_timestamp : Q := Float64.lit 0.586.

(** *** [_assign_words_to_speakers] *)

(** [(word_start + word_end) / 2], on floats. *)
Definition word_mid (w : word) : Q :=
  let word_start := default 0 (w_start w) in
  let word_end := default word_start (w_end w) in
  Float64.div (Float64.add word_start word_end) 2.

Definition assign_word (diar_segments : list segment) (w : word) : word :=
  let speaker := _find_speaker_at_time (word_mid w) diar_segments in
  {| w_word := w_word w;
     w_start := w_start w;
     w_end := w_end w;
     w_speaker := Some (str_or speaker "SPEAKER_UNKNOWN") |}.

Definition _assign_words_to_speakers (words : list word)
    (diar_segments : list segment) : list word :=
  map (assign_word diar_segments) words.

(** *** [_group_words_into_turns] *)

(** A turn while the loop runs: it still carries its words. *)
Record open_turn := mk_open_turn {
  ot_speaker : string;
  ot_start : Q;
  ot_end : Q;
  ot_text : string;
  ot_words : list word
}.

Definition word_speaker (w : word) : string :=
  default "SPEAKER_UNKNOWN" (w_speaker w).

Definition word_text (w : word) : string :=
  strip (default "" (w_word w)).

Definition new_turn (w : word) : open_turn :=
  {| ot_speaker := word_speaker w;
     ot_start := default 0 (w_start w);
     ot_end := default 0 (w_end w);
     ot_text := word_text w;
     ot_words := [w] |}.

Definition continue_turn (cur : open_turn) (w : word) : open_turn :=
  {| ot_speaker := ot_speaker cur;
     ot_start := ot_start cur;
     ot_end := default (ot_end cur) (w_end w);
     ot_text := ot_text cur +:+ " " +:+ word_text w;
     ot_words := ot_words cur ++ [w] |}.

(** One iteration; the state is [(turns, current_turn)]. *)
Definition group_step (st : list open_turn * option open_turn) (w : word)
  : list open_turn * option open_turn :=
  let '(turns, current_turn) := st in
  if decide (word_text w = "") then st
  else
    match current_turn with
    | None => (turns, Some (new_turn w))
    | Some cur =>
        if decide (ot_speaker cur = word_speaker w)
        then (turns, Some (continue_turn cur w))
        else (turns ++ [cur], Some (new_turn w))
    end.

(** The turns when the loop and the "add final turn" step are over. *)
Definition open_turns (words : list word) : list open_turn :=
  let '(turns, current_turn) := fold_left group_step words ([], None) in
  match current_turn with
  | Some cur => turns ++ [cur]
  | None => turns
  end.

(** The clean-up loop: add the duration, delete the words. *)
Definition close_turn (t : open_turn) : turn :=
  {| t_speaker := ot_speaker t;
     t_identified_as := None;
     t_confidence := None;
     t_start := ot_start t;
     t_end := ot_end t;
     t_duration := Some (round3 (Float64.sub (ot_end t) (ot_start t)));
     t_text := ot_text t |}.

Definition _group_words_into_turns (words : list word) : list turn :=
  match words with
  | [] => []
  | _ => map close_turn (open_turns words)
  end.

(** What a turn is in terms of the words it was built from: it has at
    least one word, all of its words have text and its speaker, it starts
    where its first word starts, it ends at the last [end] its words
    give, and its text is the texts of its words joined by spaces. *)
Definition turn_of_words (t : open_turn) : Prop :=
  match ot_words t with
  | [] => False
  | w :: ws =>
      Forall (fun w' => word_text w' <> "" /\ word_speaker w' = ot_speaker t)
             (w :: ws)
      /\ ot_start t = default 0 (w_start w)
      /\ ot_end t = fold_left (fun e w' => default e (w_end w')) ws
                              (default 0 (w_end w))
      /\ ot_text t = String.concat " " (map word_text (w :: ws))
  end.

(** No two neighbours of a list of labels are equal. *)
Fixpoint no_adjacent_dup (l : list string) : Prop :=
  match l with
  | [] => True
  | a :: r =>
      match r with
      | [] => True
      | b :: _ => a <> b /\ no_adjacent_dup r
      end
  end.

(** The turns of a loop state, the open one last. *)
Definition flush (st : list open_turn * option open_turn) : list open_turn :=
  fst st ++ option_list (snd st).

(** What the loop maintains after the words [ws]. *)
Definition grouped (ws : list word) (st : list open_turn * option open_turn)
  : Prop :=
  concat (map ot_words (flush st)) = filter (fun w => word_text w <> "") ws
  /\ Forall turn_of_words (flush st)
  /\ no_adjacent_dup (map ot_speaker (flush st))
  /\ (snd st = None -> fst st = []).

(** The tokens of the specification's example, with their labels. *)
Definition greeting_words : list word :=
  [ mk_word (Some "hi") (Some 0) (Some 0.5) (Some "A");
    mk_word (Some "there") (Some 0.6) (Some 1.0) (Some "A");
    mk_word (Some "bye") (Some 1.1) (Some 1.5) (Some "B") ].

Definition greeting_turns : list turn :=
  [ mk_turn "A" None None 0 1.0 (Some 1) "hi there";
    mk_turn "B" None None 1.1 1.5 (Some (2 # 5)) "bye" ].

(** *** [_merge_segment_level] *)

Definition merge_segment (diar_segments : list segment)
    (speaker_mapping : option (gmap string (option string)))
    (speaker_confidences : option (gmap string (option Q)))
    (wseg : whisper_segment) : turn :=
  let seg_start := default 0 (ws_start wseg) in
  let seg_end := default 0 (ws_end wseg) in
  let seg_mid := Float64.div (Float64.add seg_start seg_end) 2 in
  let speaker :=
    str_or (_find_speaker_at_time seg_mid diar_segments) "SPEAKER_UNKNOWN" in
  {| t_speaker := speaker;
     t_identified_as :=
       if dict_truthy speaker_mapping
       then Some (dict_get speaker_mapping speaker) else None;
     t_confidence :=
       if dict_truthy speaker_confidences
       then Some (dict_get speaker_confidences speaker) else None;
     t_start := seg_start;
     t_end := seg_end;
     t_duration := Some (round3 (Float64.sub seg_end seg_start));
     t_text := strip (default "" (ws_text wseg)) |}.

Definition _merge_segment_level
    (whisper : whisper_result) (diarization : diarization_result)
    (speaker_mapping : option (gmap string (option string)))
    (speaker_confidences : option (gmap string (option Q)))
  : merged_result :=
  let whisper_segments := default [] (wr_segments whisper) in
  let diar_segments := default [] (dr_segments diarization) in
  {| m_text := default "" (wr_text whisper);
     m_segments :=
       map (merge_segment diar_segments speaker_mapping speaker_confidences)
           whisper_segments;
     m_words := None;
     m_num_speakers := default 1%nat (dr_num_speakers diarization);
     m_duration :=
       default (default 0 (dr_audio_duration diarization))
               (wr_duration whisper);
     m_language := Some (wr_language whisper) |}.

(** *** [merge_transcription_with_diarization] *)

(** The words of the transcription: the top-level list, or, when that
    is empty, the words of the segments that have some. *)
Definition extract_words (whisper : whisper_result) : list word :=
  let words := default [] (wr_words whisper) in
  match words with
  | [] =>
      fold_left
        (fun words seg =>
           match ws_words seg with
           | Some ws => words ++ ws
           | None => words
           end)
        (default [] (wr_segments whisper)) words
  | _ => words
  end.

(** The single turn returned when there is no diarization. *)
Definition single_speaker_turn (whisper : whisper_result)
    (speaker_mapping : option (gmap string (option string)))
    (speaker_confidences : option (gmap string (option Q))) : turn :=
  {| t_speaker := "SPEAKER_00";
     t_identified_as :=
       Some (if dict_truthy speaker_mapping
             then dict_get speaker_mapping "SPEAKER_00" else None);
     t_confidence :=
       Some (if dict_truthy speaker_confidences
             then dict_get speaker_confidences "SPEAKER_00" else None);
     t_start := 0;
     t_end := default 0 (wr_duration whisper);
     t_duration := None;
     t_text := default "" (wr_text whisper) |}.

(** "Apply speaker mapping if provided": one turn of the loop. *)
Definition apply_mapping
    (speaker_mapping : option (gmap string (option string)))
    (speaker_confidences : option (gmap string (option Q)))
    (t : turn) : turn :=
  if dict_truthy speaker_mapping then
    let original_speaker := t_speaker t in
    {| t_speaker := t_speaker t;
       t_identified_as := Some (dict_get speaker_mapping original_speaker);
       t_confidence :=
         if dict_truthy speaker_confidences
         then Some (dict_get speaker_confidences original_speaker)
         else t_confidence t;
       t_start := t_start t;
       t_end := t_end t;
       t_duration := t_duration t;
       t_text := t_text t |}
  else t.

(** [" ".join(w.get("word", "") for w in words)] *)
Definition join_words (words : list word) : string :=
  String.concat " " (map (fun w => default "" (w_word w)) words).

Definition merge_transcription_with_diarization
    (whisper : whisper_result) (diarization : diarization_result)
    (speaker_mapping : option (gmap string (option string)))
    (speaker_confidences : option (gmap string (option Q)))
  : merged_result :=
  let words := extract_words whisper in
  match words with
  | [] =>
      _merge_segment_level whisper diarization
                           speaker_mapping speaker_confidences
  | _ =>
      let diar_segments := default [] (dr_segments diarization) in
      match diar_segments with
      | [] =>
          {| m_text := default "" (wr_text whisper);
             m_segments :=
               [single_speaker_turn whisper speaker_mapping
                                    speaker_confidences];
             m_words := Some words;
             m_num_speakers := 1;
             m_duration := default 0 (wr_duration whisper);
             m_language := None |}
      | _ =>
          let word_assignments :=
            _assign_words_to_speakers words diar_segments in
          let speaker_turns :=
            map (apply_mapping speaker_mapping speaker_confidences)
                (_group_words_into_turns word_assignments) in
          let full_text :=
            match default "" (wr_text whisper) with
            | EmptyString => join_words words
            | text => text
            end in
          {| m_text := full_text;
             m_segments := speaker_turns;
             m_words := None;
             m_num_speakers :=
               default (length (remove_dups (map t_speaker speaker_turns)))
                       (dr_num_speakers diarization);
             m_duration :=
               default (default 0 (dr_audio_duration diarization))
                       (wr_duration whisper);
             m_language := Some (wr_language whisper) |}
      end
  end.

(** How a call ends: with the dict it returns or with an exception. *)
Inductive exn := ValidationError | UpstreamUnavailable | UpstreamTimeout.

Inductive outcome (A : Type) :=
| Returns (a : A)
| Raises (e : exn).
Arguments Returns {A} a.
Arguments Raises {A} e.

(** The function has no [raise] and no check of its own: every call on
    well-typed dicts runs to its [return]. *)
Definition merge_outcome
    (whisper : whisper_result) (diarization : diarization_result)
    (speaker_mapping : option (gmap string (option string)))
    (speaker_confidences : option (gmap string (option Q)))
  : outcome merged_result :=
  Returns (merge_transcription_with_diarization
             whisper diarization speaker_mapping speaker_confidences).

(** A span whose end is before its start. *)
Definition invalid_word (w : word) : Prop :=
  exists s e, w_start w = Some s /\ w_end w = Some e /\ e < s.

Definition invalid_whisper_segment (seg : whisper_segment) : Prop :=
  exists s e, ws_start seg = Some s /\ ws_end seg = Some e /\ e < s.

Definition invalid_segment (seg : segment) : Prop := end_ seg < start seg.

Definition has_invalid_span
    (whisper : whisper_result) (diarization : diarization_result) : Prop :=
  (exists w, w ∈ extract_words whisper /\ invalid_word w)
  \/ (exists seg, seg ∈ default [] (wr_segments whisper)
                  /\ invalid_whisper_segment seg)
  \/ (exists seg, seg ∈ default [] (dr_segments diarization)
                  /\ invalid_segment seg).

(** The two optional dicts agree: a label has a name in the mapping
    exactly when it has a score in the confidences. *)
Definition maps_agree
    (speaker_mapping : option (gmap string (option string)))
    (speaker_confidences : option (gmap string (option Q))) : Prop :=
  forall label,
    dict_get speaker_mapping label = None
    <-> dict_get speaker_confidences label = None.

(** The token has text that [strip] leaves as it is. *)
Definition trimmed_text (w : word) : Prop :=
  word_text w <> "" /\ word_text w = default "" (w_word w).

(** *** Example inputs *)

(** A transcription without word timestamps. *)
Definition segment_only_transcript : whisper_result :=
  {| wr_text := Some "hello world";
     wr_words := None;
     wr_segments :=
       Some [ mk_whisper_segment (Some 0) (Some 1) (Some "hello") None;
              mk_whisper_segment (Some 1) (Some 2) (Some "world") None ];
     wr_duration := Some 2;
     wr_language := Some "en" |}.

(** A diarization that found no speech. *)
Definition no_diarization : diarization_result :=
  {| dr_segments := Some [];
     dr_num_speakers := Some 0%nat;
     dr_audio_duration := Some 2 |}.

(** A transcription with word timestamps and no full text; the words
    carry the leading space that the recogniser gives them. *)
Definition spaced_transcript : whisper_result :=
  {| wr_text := None;
     wr_words :=
       Some [ mk_word (Some " hi") (Some 0) (Some 1) None;
              mk_word (Some " there") (Some 1) (Some 2) None ];
     wr_segments := None;
     wr_duration := Some 2;
     wr_language := None |}.

(** The same with words that are already trimmed. *)
Definition trimmed_transcript : whisper_result :=
  {| wr_text := None;
     wr_words :=
       Some [ mk_word (Some "hi") (Some 0) (Some 1) None;
              mk_word (Some "there") (Some 1) (Some 2) None ];
     wr_segments := None;
     wr_duration := Some 2;
     wr_language := None |}.

(** A transcription whose second word ends before it starts. *)
Definition backwards_transcript : whisper_result :=
  {| wr_text := Some "hi there";
     wr_words :=
       Some [ mk_word (Some "hi") (Some 0) (Some 1) None;
              mk_word (Some "there") (Some 2) (Some 1) None ];
     wr_segments := None;
     wr_duration := Some 2;
     wr_language := None |}.

Definition one_speaker : diarization_result :=
  {| dr_segments := Some [ mk_segment "SPEAKER_00" 0 3 3 ];
     dr_num_speakers := Some 1%nat;
     dr_audio_duration := Some 3 |}.

Definition alice_mapping : option (gmap string (option string)) :=
  Some {[ "SPEAKER_00" := Some "Alice" ]}.

Definition alice_confidences : option (gmap string (option Q)) :=
  Some {[ "SPEAKER_00" := Some 0.9 ]}.

End Merger.

(** ** services/speaker_db.py *)

Module Voting.
Import Num.

(** One match returned by [search_similar_speakers]. *)
Record candidate := mk_candidate {
  speaker_name : string;
  speaker_id : option string;
  score : Q;
  audio_source : option string;
  created_at : option string
}.

(** The dict returned by [identify_speaker_by_voting]: a copy of a match
    with its [score] replaced and [num_matches] added. *)
Record identification := mk_identification {
  id_speaker_name : string;
  id_speaker_id : option string;
  id_score : Q;
  id_audio_source : option string;
  id_created_at : option string;
  id_num_matches : nat
}.

(** A dict keyed by speaker id, in insertion order. *)
Fixpoint assoc_lookup {V} (k : option string) (d : list (option string * V))
  : option V :=
  match d with
  | [] => None
  | (k', v) :: d' => if decide (k' = k) then Some v else assoc_lookup k d'
  end.

(** [d[k] = f(d[k])] for a key that is present. *)
Definition assoc_alter {V} (f : V -> V) (k : option string)
    (d : list (option string * V)) : list (option string * V) :=
  map (fun '(k', v) => if decide (k' = k) then (k', f v) else (k', v)) d.

(** The body of [for match in matches]; the state is
    [(speaker_scores, speaker_info)]. *)
Definition vote_step
    (st : list (option string * list Q) * list (option string * candidate))
    (m : candidate)
  : list (option string * list Q) * list (option string * candidate) :=
  let '(speaker_scores, speaker_info) := st in
  let id := speaker_id m in
  let '(speaker_scores, speaker_info) :=
    match assoc_lookup id speaker_scores with
    | None => (speaker_scores ++ [(id, [])], speaker_info ++ [(id, m)])
    | Some _ => (speaker_scores, speaker_info)
    end in
  (assoc_alter (fun scores => scores ++ [score m]) id speaker_scores,
   speaker_info).

(** [sum(scores) / len(scores)]: the float sum divided by the count, and
    rounded.  The loop calls it on the scores of an id, of which there is
    at least one. *)
Definition average (scores : list Q) : Q :=
  Float64.div (sum scores) (inject_Z (Z.of_nat (length scores))).

(** The body of [for speaker_id, scores in speaker_scores.items()]; the
    state is [(best_speaker_id, best_avg_score)]. *)
Definition best_step (st : option string * Q) (entry : option string * list Q)
  : option string * Q :=
  let '(speaker_id, scores) := entry in
  let avg_score := average scores in
  if Qltb (snd st) avg_score then (speaker_id, avg_score) else st.

(** [bool(best_speaker_id)] *)
Definition id_truthy (id : option string) : bool :=
  match id with
  | Some EmptyString | None => false
  | Some _ => true
  end.

Section Search.

(** The embeddings and the similarity search of the vector store, as
    [identify_speaker_by_voting] calls it (top 3, at the call's score
    threshold). *)
Variable embedding : Type.
Variable search_similar_speakers : embedding -> list candidate.

Definition collect_votes (embeddings : list embedding)
  : list (option string * list Q) * list (option string * candidate) :=
  fold_left
    (fun st e => fold_left vote_step (search_similar_speakers e) st)
    embeddings ([], []).

Definition identify_speaker_by_voting (embeddings : list embedding)
  : option identification :=
  match embeddings with
  | [] => None
  | _ =>
      let '(speaker_scores, speaker_info) := collect_votes embeddings in
      match speaker_scores with
      | [] => None
      | _ =>
          let '(best_speaker_id, best_avg_score) :=
            fold_left best_step speaker_scores (None, 0) in
          if id_truthy best_speaker_id then
            match assoc_lookup best_speaker_id speaker_info,
                  assoc_lookup best_speaker_id speaker_scores with
            | Some m, Some scores =>
                Some {| id_speaker_name := speaker_name m;
                        id_speaker_id := speaker_id m;
                        id_score := best_avg_score;
                        id_audio_source := audio_source m;
                        id_created_at := created_at m;
                        id_num_matches := length scores |}
            | _, _ => None
            end
          else None
      end
  end.

(** Every match returned for the embeddings, in iteration order. *)
Definition all_matches (embeddings : list embedding) : list candidate :=
  concat (map search_similar_speakers embeddings).

End Search.

Arguments collect_votes {embedding}.
Arguments identify_speaker_by_voting {embedding}.
Arguments all_matches {embedding}.

(** The ids of a list of matches, in the order of their first
    appearance. *)
Definition first_seen (ms : list candidate) : list (option string) :=
  fold_left
    (fun seen m =>
       if decide (speaker_id m ∈ seen) then seen else seen ++ [speaker_id m])
    ms [].

(** The scores of the matches that returned a given id. *)
Definition scores_of (id : option string) (ms : list candidate) : list Q :=
  map score (filter (fun m => speaker_id m = id) ms).

(** The first match that returned a given id. *)
Definition first_match (id : option string) (ms : list candidate)
  : option candidate :=
  head (filter (fun m => speaker_id m = id) ms).

(** The winner of a vote: its mean is above the mean of every id seen
    before it, and not below the mean of any id seen after it. *)
Definition wins (id : option string) (ms : list candidate) : Prop :=
  exists before_ after_,
    first_seen ms = before_ ++ id :: after_
    /\ (forall i, i ∈ before_ ->
          average (scores_of i ms) < average (scores_of id ms))
    /\ (forall i, i ∈ after_ ->
          average (scores_of i ms) <= average (scores_of id ms)).

(** What the first loop has built after the matches [ms]. *)
Definition tallied (ms : list candidate)
    (st : list (option string * list Q) * list (option string * candidate))
  : Prop :=
  fst st = map (fun i => (i, scores_of i ms)) (first_seen ms)
  /\ forall i, assoc_lookup i (snd st) = first_match i ms.




End Voting.

(** ** services/diarization.py: the result of [diarize] *)

Module DiarizeOutput.
Import Num Diarization.

(** One item of [output.itertracks(yield_label=True)]: the turn and its
    speaker. *)
Record track := mk_track {
  tr_start : Q;
  tr_end : Q;
  tr_speaker : string
}.

(** The dict that the loop over the tracks appends to [segments]. *)
Definition track_segment (tr : track) : segment :=
  {| speaker := tr_speaker tr;
     start := round3 (tr_start tr);
     end_ := round3 (tr_end tr);
     duration := round3 (Float64.sub (tr_end tr) (tr_start tr)) |}.

(** The dict returned by [diarize], without [processing_time], which is
    read from the clock. *)
Record diarize_output := mk_diarize_output {
  do_segments : list segment;
  do_num_speakers : nat;
  do_audio_duration : Q;
  do_exclusive : bool
}.

(** [diarize], from the tracks that the pipeline gave for the audio. *)
Definition diarize (tracks : list track) (audio_duration : Q)
    (exclusive : bool) : diarize_output :=
  let segments := map track_segment tracks in
  let speakers : gset string := list_to_set (map tr_speaker tracks) in
  let segments := if exclusive then _make_exclusive segments else segments in
  {| do_segments := segments;
     do_num_speakers := size speakers;
     do_audio_duration := round3 audio_duration;
     do_exclusive := exclusive |}.

(** The labels of a list of segments, as a set. *)
Definition labels (segments : list segment) : gset string :=
  list_to_set (map speaker segments).

(** No two segments of the list start at the same time. *)
Definition distinct_starts (l : list segment) : Prop :=
  NoDup l /\ forall a b, a ∈ l -> b ∈ l -> start a == start b -> a = b.

(** Two speakers, the second of whom talks over the whole turn of the
    first from its very start. *)
Definition covered_tracks : list track :=
  [ mk_track 0 2 "SPEAKER_00"; mk_track 0 5 "SPEAKER_01" ].

(** The speaker bounds of the settings. *)
Record speaker_settings := mk_speaker_settings {
  set_min_speakers : option nat;
  set_max_speakers : option nat
}.

(** One bound of the keyword arguments of the pipeline, as [diarize]
    builds it: the argument, else the setting, else no entry. *)
Definition with_bound (key : string) (argument setting : option nat)
    (kwargs : gmap string nat) : gmap string nat :=
  match argument with
  | Some n => <[key := n]> kwargs
  | None =>
      match setting with
      | Some n => <[key := n]> kwargs
      | None => kwargs
      end
  end.

(** "Build kwargs for pipeline" in [diarize]. *)
Definition diarize_kwargs (settings : speaker_settings)
    (num_speakers min_speakers max_speakers : option nat) : gmap string nat :=
  match num_speakers with
  | Some n => {[ "num_speakers" := n ]}
  | None =>
      with_bound "max_speakers" max_speakers (set_max_speakers settings)
        (with_bound "min_speakers" min_speakers (set_min_speakers settings) ∅)
  end.

(** "Build pipeline kwargs" in [diarize_from_memory]. *)
Definition diarize_from_memory_kwargs
    (num_speakers min_speakers max_speakers : option nat) : gmap string nat :=
  match num_speakers with
  | Some n => {[ "num_speakers" := n ]}
  | None =>
      let kwargs : gmap string nat := ∅ in
      let kwargs :=
        match min_speakers with
        | Some n => <["min_speakers" := n]> kwargs
        | None => kwargs
        end in
      match max_speakers with
      | Some n => <["max_speakers" := n]> kwargs
      | None => kwargs
      end
  end.

End DiarizeOutput.

(** ** services/whisper.py *)

Module WhisperClient.
Import Merger.

(** [transcribe_with_words], from the response of [transcribe]: when the
    response has no [words] key and has a [segments] key, the words of the
    segments are gathered under [words]. *)
Definition transcribe_with_words (result : whisper_result) : whisper_result :=
  match wr_words result, wr_segments result with
  | None, Some segments =>
      let words :=
        fold_left
          (fun words segment =>
             match ws_words segment with
             | Some ws => words ++ ws
             | None => words
             end)
          segments [] in
      {| wr_text := wr_text result;
         wr_words := Some words;
         wr_segments := wr_segments result;
         wr_duration := wr_duration result;
         wr_language := wr_language result |}
  | _, _ => result
  end.

(** A response with words in its segments only. *)
Definition nested_words_response : whisper_result :=
  {| wr_text := Some "hi there";
     wr_words := None;
     wr_segments :=
       Some [ mk_whisper_segment (Some 0) (Some 2) (Some "hi there")
                (Some [ mk_word (Some "hi") (Some 0) (Some 1) None;
                        mk_word (Some "there") (Some 1) (Some 2) None ]) ];
     wr_duration := Some 2;
     wr_language := Some "en" |}.

End WhisperClient.

(** ** Views of a merge result *)

Module MergeViews.
Import Merger.

(** A turn without its identification. *)
Definition unannotated (t : turn) : turn :=
  {| t_speaker := t_speaker t;
     t_identified_as := None;
     t_confidence := None;
     t_start := t_start t;
     t_end := t_end t;
     t_duration := t_duration t;
     t_text := t_text t |}.

(** A merge result without the identification of its turns. *)
Definition unannotated_result (r : merged_result) : merged_result :=
  {| m_text := m_text r;
     m_segments := map unannotated (m_segments r);
     m_words := m_words r;
     m_num_speakers := m_num_speakers r;
     m_duration := m_duration r;
     m_language := m_language r |}.

(** The start that the grouping reads from a word. *)
Definition word_start (w : word) : Q := default 0 (w_start w).

(** The words are in ascending order of start. *)
Definition words_in_order (ws : list word) : Prop :=
  StronglySorted (fun a b => word_start a <= word_start b) ws.

(** The turns are in ascending order of start. *)
Definition turns_in_order (ts : list turn) : Prop :=
  StronglySorted (fun a b => t_start a <= t_start b) ts.

End MergeViews.

(** ** services/embedding.py *)

Module Embedding.
Import Num Diarization.

Section Extraction.

(** The embedding vectors, and [extract_embedding_from_segment] on the
    audio of the call: [None] when it raises. *)
Variable embedding : Type.
Variable extract_embedding_from_segment : Q -> Q -> option embedding.

(** The body of [for segment in segments]. *)
Definition extract_step (min_duration : Q)
    (results : list (segment * embedding)) (seg : segment)
  : list (segment * embedding) :=
  let duration := Float64.sub (end_ seg) (start seg) in
  if Qltb duration min_duration then results
  else
    match extract_embedding_from_segment (start seg) (end_ seg) with
    | Some e => results ++ [(seg, e)]
    | None => results
    end.

Definition extract_embeddings_for_segments (segments : list segment)
    (min_duration : Q) : list (segment * embedding) :=
  fold_left (extract_step min_duration) segments [].

End Extraction.

Arguments extract_step {embedding}.
Arguments extract_embeddings_for_segments {embedding}.

(** The segment is long enough for an embedding: the float difference
    of its end and its start is not below the minimum. *)
Definition long_enough (min_duration : Q) (seg : segment) : Prop :=
  min_duration <= Float64.sub (end_ seg) (start seg).

#[global] Instance long_enough_dec (min_duration : Q) (seg : segment) :
  Decision (long_enough min_duration seg).
Proof.
  unfold long_enough.
  destruct (Qlt_le_dec (Float64.sub (end_ seg) (start seg)) min_duration)
    as [H|H].
  - right. intros Hle. exact (Qlt_not_le _ _ H Hle).
  - left. exact H.
Defined.

(** An extraction that gives the segment's own span back, and fails on
    spans that start before 0. *)
Definition span_embedding (s e : Q) : option (Q * Q) :=
  if Qltb s 0 then None else Some (s, e).

Definition mixed_segments : list segment :=
  [ mk_segment "A" 0 (3 # 10) (3 # 10);
    mk_segment "B" 1 (17 # 10) (7 # 10);
    mk_segment "A" 2 4 2 ].

(** Two segments of about half a second, given by the decimal literals
    of their floats: the difference of the first is the float below 0.5,
    the difference of the second rounds to 0.5. *)
Definition half_second_segments : list segment :=
  [ mk_segment "A" 0.063 0.563 0.5; mk_segment "B" 0.086 0.586 0.5 ].

End Embedding.

(** ** services/speaker_db.py: the search and the list of speakers *)

Module SpeakerStore.
Import Num Voting.

(** The payload of a point of the collection. *)
Record payload := mk_payload {
  pl_speaker_name : option string;
  pl_speaker_id : option string;
  pl_audio_source : option string;
  pl_created_at : option string
}.

(** A point returned by a query, with its score. *)
Record scored_point := mk_scored_point {
  sp_payload : payload;
  sp_score : Q
}.

(** [score_threshold or self.settings.similarity_threshold]: [None] and
    [0] are falsy. *)
Definition effective_threshold (score_threshold : option Q)
    (similarity_threshold : Q) : Q :=
  match score_threshold with
  | Some t => if Qeq_bool t 0 then similarity_threshold else t
  | None => similarity_threshold
  end.

(** The match built from a point. *)
Definition point_match (p : scored_point) : candidate :=
  {| speaker_name := default "unknown" (pl_speaker_name (sp_payload p));
     speaker_id := pl_speaker_id (sp_payload p);
     score := sp_score p;
     audio_source := pl_audio_source (sp_payload p);
     created_at := pl_created_at (sp_payload p) |}.

Section Client.

(** The query vectors, and [client.query_points] on the collection:
    the vector, the limit and the score threshold give the points. *)
Variable vector : Type.
Variable query_points : vector -> nat -> Q -> list scored_point.

(** The configured [similarity_threshold]. *)
Variable similarity_threshold : Q.

Definition search_similar_speakers (embedding : vector) (top_k : nat)
    (score_threshold : option Q) : list candidate :=
  let threshold := effective_threshold score_threshold similarity_threshold in
  map point_match (query_points embedding top_k threshold).

(** [identify_speaker]: the best match of one embedding. *)
Definition identify_speaker (embedding : vector) (score_threshold : option Q)
  : option candidate :=
  head (search_similar_speakers embedding 1 score_threshold).

(** [identify_speaker_by_voting] with the search it calls. *)
Definition identify_by_voting (embeddings : list vector)
    (score_threshold : option Q) : option identification :=
  identify_speaker_by_voting
    (fun e => search_similar_speakers e 3 score_threshold) embeddings.

(** The store returns no more points than the limit and none below the
    threshold. *)
Definition honours_query : Prop :=
  forall v k t,
    (length (query_points v k t) <= k)%nat
    /\ forall p, p ∈ query_points v k t -> t <= sp_score p.

End Client.

Arguments search_similar_speakers {vector}.
Arguments identify_speaker {vector}.
Arguments identify_by_voting {vector}.
Arguments honours_query {vector}.

(** *** [get_all_speakers] *)

(** An entry of the list of speakers. *)
Record speaker_info := mk_speaker_info {
  si_speaker_id : string;
  si_speaker_name : string;
  si_embeddings_count : nat;
  si_created_at : option string
}.

(** [d[k]] of the dict of speakers, which is in insertion order. *)
Fixpoint info_lookup (k : string) (d : list (string * speaker_info))
  : option speaker_info :=
  match d with
  | [] => None
  | (k', v) :: d' => if decide (k' = k) then Some v else info_lookup k d'
  end.

(** [speakers[speaker_id]["embeddings_count"] += 1] *)
Definition count_one (k : string) (d : list (string * speaker_info))
  : list (string * speaker_info) :=
  map (fun '(k', v) =>
         if decide (k' = k)
         then (k', {| si_speaker_id := si_speaker_id v;
                      si_speaker_name := si_speaker_name v;
                      si_embeddings_count := S (si_embeddings_count v);
                      si_created_at := si_created_at v |})
         else (k', v)) d.

(** The body of [for point in results]. *)
Definition speaker_step (speakers : list (string * speaker_info))
    (point : payload) : list (string * speaker_info) :=
  match pl_speaker_id point with
  | Some (String _ _ as speaker_id) =>
      let speakers :=
        match info_lookup speaker_id speakers with
        | None =>
            speakers
            ++ [(speaker_id,
                 {| si_speaker_id := speaker_id;
                    si_speaker_name :=
                      default "unknown" (pl_speaker_name point);
                    si_embeddings_count := 0;
                    si_created_at := pl_created_at point |})]
        | Some _ => speakers
        end in
      count_one speaker_id speakers
  | _ => speakers
  end.

(** [get_all_speakers], from the pages that [client.scroll] returns: the
    first page, and the pages that follow while the offset is not
    [None]. *)
Definition get_all_speakers (first_page : list payload)
    (next_pages : list (list payload)) : list speaker_info :=
  map snd
      (fold_left (fun speakers results =>
                    fold_left speaker_step results speakers)
                 (first_page :: next_pages) []).

(** The points of a speaker among the points of the collection. *)
Definition points_of (id : string) (points : list payload) : list payload :=
  filter (fun p => pl_speaker_id p = Some id) points.

(** The non-empty ids of the points, in the order of their first
    appearance. *)
Definition seen_ids (points : list payload) : list string :=
  fold_left
    (fun seen p =>
       match pl_speaker_id p with
       | Some (String _ _ as id) =>
           if decide (id ∈ seen) then seen else seen ++ [id]
       | _ => seen
       end)
    points [].

(** The entry of a speaker, from the points of the collection. *)
Definition info_of (points : list payload) (id : string) : speaker_info :=
  let first := head (points_of id points) in
  {| si_speaker_id := id;
     si_speaker_name :=
       default "unknown" (first ≫= pl_speaker_name);
     si_embeddings_count := length (points_of id points);
     si_created_at := first ≫= pl_created_at |}.

(** A collection of three points of two speakers and one point without
    speaker id, in two pages. *)
Definition ann_point : payload :=
  mk_payload (Some "Ann") (Some "id-ann") (Some "a.wav") (Some "2024-01-01").

Definition bob_point : payload :=
  mk_payload (Some "Bob") (Some "id-bob") None None.

Definition anonymous_point : payload := mk_payload None None None None.

(** A store with one point, which it returns with the score 0.9 when the
    threshold allows. *)
Definition one_point_store (v : unit) (k : nat) (t : Q) : list scored_point :=
  match k with
  | O => []
  | S _ =>
      if Qle_bool t (9 # 10) then [mk_scored_point ann_point (9 # 10)] else []
  end.

(** A store with one point, whose score is the float 0.7. *)
Definition steady_store (v : unit) (k : nat) (t : Q) : list scored_point :=
  match k with
  | O => []
  | S _ =>
      if Qle_bool t (Float64.lit 0.7)
      then [mk_scored_point ann_point (Float64.lit 0.7)] else []
  end.

End SpeakerStore.

(** ** main.py: the identification of the speakers of a file *)

Module Api.
Import Num Diarization Merger Voting Embedding.

(** [d[k]] of [speaker_segments], a dict in insertion order. *)
Fixpoint group_lookup (k : string) (d : list (string * list segment))
  : option (list segment) :=
  match d with
  | [] => None
  | (k', v) :: d' => if decide (k' = k) then Some v else group_lookup k d'
  end.

(** [speaker_segments[speaker].append(segment)] *)
Definition group_append (k : string) (seg : segment)
    (d : list (string * list segment)) : list (string * list segment) :=
  map (fun '(k', v) => if decide (k' = k) then (k', v ++ [seg]) else (k', v)) d.

(** The body of the loop that groups the segments by speaker. *)
Definition group_step (speaker_segments : list (string * list segment))
    (seg : segment) : list (string * list segment) :=
  let speaker := speaker seg in
  let speaker_segments :=
    match group_lookup speaker speaker_segments with
    | None => speaker_segments ++ [(speaker, [])]
    | Some _ => speaker_segments
    end in
  group_append speaker seg speaker_segments.

Definition group_by_speaker (segments : list segment)
  : list (string * list segment) :=
  fold_left group_step segments [].

(** The labels of the segments, in the order of their first
    appearance. *)
Definition labels_in_order (segments : list segment) : list string :=
  fold_left
    (fun seen seg =>
       if decide (speaker seg ∈ seen) then seen else seen ++ [speaker seg])
    segments [].

(** The segments of a label. *)
Definition segments_of (label : string) (segments : list segment)
  : list segment :=
  filter (fun seg => speaker seg = label) segments.

Section Identify.

(** The embedding vectors, the extraction of an embedding from a span of
    the uploaded file ([None] when it raises), and the vote of the
    speaker database at the threshold of the request. *)
Variable vector : Type.
Variable extract_embedding_from_segment : Q -> Q -> option vector.
Variable identify_speaker_by_voting : list vector -> option identification.

(** The body of [for speaker, segments in speaker_segments.items()]; the
    state is [(speaker_mapping, speaker_confidences)]. *)
Definition identify_step
    (maps : gmap string (option string) * gmap string (option Q))
    (entry : string * list segment)
  : gmap string (option string) * gmap string (option Q) :=
  let '(speaker_mapping, speaker_confidences) := maps in
  let '(speaker, segments) := entry in
  let segment_embeddings :=
    extract_embeddings_for_segments extract_embedding_from_segment
                                    segments 0.5 in
  match segment_embeddings with
  | [] =>
      (<[speaker := None]> speaker_mapping,
       <[speaker := None]> speaker_confidences)
  | _ =>
      let embeddings := map snd segment_embeddings in
      match identify_speaker_by_voting embeddings with
      | Some found =>
          (<[speaker := Some (id_speaker_name found)]> speaker_mapping,
           <[speaker := Some (id_score found)]> speaker_confidences)
      | None =>
          (<[speaker := None]> speaker_mapping,
           <[speaker := None]> speaker_confidences)
      end
  end.

(** The mapping and the confidences that the two identification
    endpoints build from the segments of the diarization. *)
Definition identify_speakers (segments : list segment)
  : gmap string (option string) * gmap string (option Q) :=
  fold_left identify_step (group_by_speaker segments) (∅, ∅).

End Identify.

Arguments identify_step {vector}.
Arguments identify_speakers {vector}.

(** How an endpoint ends: with its response or with an
    [HTTPException] of the given status. *)
Inductive http_result (A : Type) :=
| Response (a : A)
| HttpError (status : nat).
Arguments Response {A} a.
Arguments HttpError {A} status.

(** The block of [register_speaker] and of [add_speaker_sample] under
    [if extract_segments:], from the segments that [diarize] returned: it
    raises the 400 error, or gives the embeddings that it hands to
    [add_speaker_embeddings_batch].  [register_speaker] reports their
    number as [embeddings_count]; [add_speaker_sample] reports it in its
    message, its [embeddings_count] being the count stored for the
    speaker.  The 404 of an unknown speaker and the 500 of any other
    exception are raised outside this block. *)
Definition segment_embeddings_to_add {vector}
    (extract_embedding_from_segment : Q -> Q -> option vector)
    (segments : list segment) : http_result (list vector) :=
  let segment_embeddings :=
    extract_embeddings_for_segments extract_embedding_from_segment
                                    segments 1.0 in
  match segment_embeddings with
  | [] => HttpError 400
  | _ => Response (map snd segment_embeddings)
  end.

(** An item of the response of [/identify]. *)
Record identified_segment := mk_identified_segment {
  is_speaker : string;
  is_identified_as : option string;
  is_confidence : option Q;
  is_start : Q;
  is_end : Q;
  is_duration : Q
}.

(** "Build result segments" *)
Definition identified_segments (segments : list segment)
    (speaker_mapping : gmap string (option string))
    (speaker_confidences : gmap string (option Q))
  : list identified_segment :=
  map (fun seg =>
         {| is_speaker := speaker seg;
            is_identified_as := mjoin (speaker_mapping !! speaker seg);
            is_confidence := mjoin (speaker_confidences !! speaker seg);
            is_start := start seg;
            is_end := end_ seg;
            is_duration := duration seg |})
      segments.

(** [sum(1 for v in speaker_mapping.values() if v is not None)] *)
Definition num_identified (speaker_mapping : gmap string (option string))
  : nat :=
  length (filter (fun kv => snd kv <> None) (map_to_list speaker_mapping)).

(** The two dicts hold the same labels, and hold a value for a label
    together or [None] together. *)
Definition paired (speaker_mapping : gmap string (option string))
    (speaker_confidences : gmap string (option Q)) : Prop :=
  forall label,
    match speaker_mapping !! label, speaker_confidences !! label with
    | None, None => True
    | Some None, Some None => True
    | Some (Some _), Some (Some _) => True
    | _, _ => False
    end.

(** A vote that knows the speaker of any two embeddings or more. *)
Definition vote_of_two (embeddings : list (Q * Q)) : option identification :=
  match embeddings with
  | _ :: _ :: _ => Some (mk_identification "Ann" (Some "id-ann") (9 # 10)
                                            None None 2)
  | _ => None
  end.

Definition conversation : list segment :=
  [ mk_segment "SPEAKER_00" 0 2 2;
    mk_segment "SPEAKER_01" 2 3 1;
    mk_segment "SPEAKER_00" 3 5 2 ].

End Api.

(** * Proofs *)

Module NumFacts.
Import Num.

Lemma Qltb_lt (a b : Q) : Qltb a b = true <-> a < b.
Proof.
  unfold Qltb. rewrite negb_true_iff. split.
  - intros H. apply Qnot_le_lt. intros Hle.
    apply Qle_bool_iff in Hle. congruence.
  - intros H. destruct (Qle_bool b a) eqn:E; [|reflexivity].
    apply Qle_bool_iff in E. exfalso. exact (Qlt_not_le _ _ H E).
Qed.

Lemma Qltb_ge (a b : Q) : Qltb a b = false <-> b <= a.
Proof.
  unfold Qltb. rewrite negb_false_iff. apply Qle_bool_iff.
Qed.

End NumFacts.

(** ** Facts about [_make_exclusive] *)

Module DiarizationFacts.
Import Num NumFacts Diarization.

Lemma insert_by_start_perm (x : segment) (l : list segment) :
  insert_by_start x l ≡ₚ x :: l.
Proof.
  induction l as [|y l IH]; simpl; [reflexivity|].
  destruct (Qle_bool (start x) (start y)); [reflexivity|].
  rewrite IH. apply Permutation_swap.
Qed.

Lemma sorted_by_start_perm (l : list segment) : sorted_by_start l ≡ₚ l.
Proof.
  induction l as [|x l IH]; simpl; [reflexivity|].
  rewrite insert_by_start_perm. by rewrite IH.
Qed.

Lemma elem_of_sorted_by_start (x : segment) (l : list segment) :
  x ∈ sorted_by_start l <-> x ∈ l.
Proof. by rewrite sorted_by_start_perm. Qed.

Lemma insert_by_start_sorted (x : segment) (l : list segment) :
  StronglySorted start_le l -> StronglySorted start_le (insert_by_start x l).
Proof.
  induction 1 as [|y l Hl IH Hy]; simpl.
  - repeat constructor.
  - destruct (Qle_bool (start x) (start y)) eqn:E.
    + apply Qle_bool_iff in E. constructor; [by constructor|].
      constructor; [exact E|].
      eapply Forall_impl; [exact Hy|]. intros z Hz. unfold start_le in *.
      by eapply Qle_trans.
    + constructor; [exact IH|].
      rewrite insert_by_start_perm. constructor; [|exact Hy].
      unfold start_le. apply Qlt_le_weak. apply Qltb_lt.
      unfold Qltb. by rewrite E.
Qed.

Lemma sorted_by_start_sorted (l : list segment) :
  StronglySorted start_le (sorted_by_start l).
Proof.
  induction l as [|x l IH]; simpl; [constructor|].
  by apply insert_by_start_sorted.
Qed.

(** The sort keeps the elements of equal start in their original order. *)
Lemma insert_by_start_stable (k : Q) (x : segment) (l : list segment) :
  StronglySorted start_le l ->
  filter (fun s => Qeq_bool (start s) k = true) (insert_by_start x l)
  = filter (fun s => Qeq_bool (start s) k = true) (x :: l).
Proof.
  induction 1 as [|y l Hl IH Hy]; simpl; [reflexivity|].
  destruct (Qle_bool (start x) (start y)) eqn:E; [reflexivity|].
  rewrite !filter_cons in *. rewrite IH.
  destruct (decide (Qeq_bool (start x) k = true)) as [Hx|Hx];
    destruct (decide (Qeq_bool (start y) k = true)) as [Hy'|Hy']; try reflexivity.
  apply Qeq_bool_iff in Hx, Hy'.
  assert (Qle_bool (start x) (start y) = true); [|congruence].
  apply Qle_bool_iff. rewrite Hx, Hy'. apply Qle_refl.
Qed.

Lemma sorted_by_start_stable (k : Q) (l : list segment) :
  filter (fun s => Qeq_bool (start s) k = true) (sorted_by_start l)
  = filter (fun s => Qeq_bool (start s) k = true) l.
Proof.
  induction l as [|x l IH]; simpl; [reflexivity|].
  rewrite insert_by_start_stable by apply sorted_by_start_sorted.
  rewrite !filter_cons. by rewrite IH.
Qed.

Lemma insert_by_start_id (x : segment) (l : list segment) :
  Forall (start_le x) l -> insert_by_start x l = x :: l.
Proof.
  destruct 1 as [|y l Hy _]; simpl; [reflexivity|].
  apply Qle_bool_iff in Hy. by rewrite Hy.
Qed.

Lemma sorted_by_start_id (l : list segment) :
  StronglySorted start_le l -> sorted_by_start l = l.
Proof.
  induction 1 as [|x l Hl IH Hx]; simpl; [reflexivity|].
  rewrite IH. by apply insert_by_start_id.
Qed.

(** The loop, seen from the segment it appended last. *)
Lemma make_exclusive_step_snoc (acc : list segment) (x seg : segment) :
  make_exclusive_step (acc ++ [x]) seg = (acc ++ truncate_before x seg) ++ [seg].
Proof.
  unfold make_exclusive_step, truncate_before.
  rewrite last_snoc, removelast_last.
  destruct (Qltb (start seg) (end_ x)).
  - cbv zeta. destruct (Qle_bool (duration (truncate x seg)) 0).
    + by rewrite app_nil_r.
    + by rewrite <- app_assoc.
  - reflexivity.
Qed.

Lemma fold_make_exclusive_step (r acc : list segment) (x : segment) :
  fold_left make_exclusive_step r (acc ++ [x]) = acc ++ pairwise_truncate (x :: r).
Proof.
  revert acc x. induction r as [|s r IH]; intros acc x; [reflexivity|].
  cbn [fold_left]. rewrite make_exclusive_step_snoc, IH.
  by rewrite <- app_assoc.
Qed.

Lemma make_exclusive_pairwise (segments : list segment) :
  _make_exclusive segments = pairwise_truncate (sorted_by_start segments).
Proof.
  unfold _make_exclusive. destruct segments as [|s l]; [reflexivity|].
  destruct (sorted_by_start (s :: l)) as [|x r] eqn:E; [reflexivity|].
  cbn [fold_left]. unfold make_exclusive_step at 2. cbn [last app].
  apply (fold_make_exclusive_step r [] x).
Qed.

Lemma elem_of_truncate_before (e s s' : segment) :
  e ∈ truncate_before s s' ->
  e = s /\ end_ s <= start s'
  \/ e = truncate s s' /\ start s' < end_ s /\ 0 < duration e.
Proof.
  unfold truncate_before. destruct (Qltb (start s') (end_ s)) eqn:E.
  - destruct (Qle_bool (duration (truncate s s')) 0) eqn:D.
    + by intros ?%elem_of_nil.
    + intros ->%list_elem_of_singleton. right.
      split; [reflexivity|]. split; [by apply Qltb_lt|].
      apply Qltb_lt. unfold Qltb. by rewrite D.
  - intros ->%list_elem_of_singleton. left. split; [reflexivity|].
    by apply Qltb_ge.
Qed.

Lemma truncate_before_before (e s s' : segment) :
  start s <= start s' -> e ∈ truncate_before s s' -> before e s'.
Proof.
  intros Hs [[-> H]|[-> _]]%elem_of_truncate_before; split; simpl;
    auto using Qle_refl.
Qed.

Lemma pairwise_truncate_start (x : segment) (l : list segment) :
  Forall (start_le x) l -> Forall (start_le x) (pairwise_truncate l).
Proof.
  induction l as [|s r IH]; [by constructor|].
  intros [Hs Hr]%Forall_cons. cbn [pairwise_truncate].
  destruct r as [|s' r']; [by repeat constructor|].
  apply Forall_app. split; [|by apply IH].
  apply Forall_forall. intros e [[-> _]|[-> _]]%elem_of_truncate_before;
    exact Hs.
Qed.

Lemma before_trans_start (e s' x : segment) :
  before e s' -> start_le s' x -> before e x.
Proof.
  intros [H1 H2] H3. split; eapply Qle_trans; eauto.
Qed.

Lemma pairwise_truncate_sorted (l : list segment) :
  StronglySorted start_le l -> StronglySorted before (pairwise_truncate l).
Proof.
  induction 1 as [|s r Hr IH Hs]; [constructor|].
  cbn [pairwise_truncate]. destruct r as [|s' r']; [by repeat constructor|].
  apply StronglySorted_app_2; [| | exact IH].
  - intros e x He Hx.
    assert (Hss' : start s <= start s') by (by inversion Hs).
    apply (before_trans_start e s' x); [by apply truncate_before_before with s|].
    assert (Forall (start_le s') (pairwise_truncate (s' :: r'))) as Hall.
    { apply pairwise_truncate_start. constructor; [apply Qle_refl|].
      by inversion Hr. }
    rewrite Forall_forall in Hall. by apply Hall.
  - unfold truncate_before.
    destruct (Qltb _ _); [destruct (Qle_bool _ _)|]; repeat constructor.
Qed.

Lemma StronglySorted_lookup {A} (R : A -> A -> Prop) (l : list A)
    (i j : nat) (a b : A) :
  StronglySorted R l -> l !! i = Some a -> l !! j = Some b -> (i < j)%nat ->
  R a b.
Proof.
  intros Hl. revert i j. induction Hl as [|x l Hl IH Hx]; intros i j Hi Hj Hij.
  - by rewrite lookup_nil in Hi.
  - destruct j as [|j]; [lia|]. destruct i as [|i].
    + simpl in Hi, Hj. injection Hi as ->.
      rewrite Forall_forall in Hx. apply Hx. by eapply list_elem_of_lookup_2.
    + simpl in Hi, Hj. apply (IH i j); [done|done|lia].
Qed.

Lemma lookup_StronglySorted {A} (R : A -> A -> Prop) (l : list A) :
  (forall i j a b, l !! i = Some a -> l !! j = Some b -> (i < j)%nat -> R a b) ->
  StronglySorted R l.
Proof.
  induction l as [|x l IH]; intros H; [constructor|].
  constructor.
  - apply IH. intros i j a b Hi Hj Hij. apply (H (S i) (S j)); [done|done|lia].
  - apply Forall_forall. intros y [k Hk]%list_elem_of_lookup_1.
    apply (H 0%nat (S k)); [done|done|lia].
Qed.

Lemma pairwise_truncate_kept (l : list segment) (e : segment) :
  e ∈ pairwise_truncate l -> kept_from l e.
Proof.
  induction l as [|s r IH]; [by intros ?%elem_of_nil|].
  cbn [pairwise_truncate]. destruct r as [|s' r'].
  - intros ->%list_elem_of_singleton. left. apply list_elem_of_here.
  - intros [He|He]%elem_of_app.
    + apply elem_of_truncate_before in He as [[-> _]|(-> & Hov & Hd)].
      * left. apply list_elem_of_here.
      * right. exists s, s'. repeat split; try done.
        -- apply list_elem_of_here.
        -- apply list_elem_of_further, list_elem_of_here.
    + destruct (IH He) as [Hin|(a & b & Ha & Hb & H)].
      * left. by apply list_elem_of_further.
      * right. exists a, b. split; [by apply list_elem_of_further|].
        split; [by apply list_elem_of_further|]. exact H.
Qed.

Lemma pairwise_truncate_id (l : list segment) :
  StronglySorted before l -> pairwise_truncate l = l.
Proof.
  induction 1 as [|s r Hr IH Hs]; [reflexivity|].
  cbn [pairwise_truncate]. destruct r as [|s' r']; [reflexivity|].
  rewrite IH. unfold truncate_before.
  assert (Qltb (start s') (end_ s) = false) as ->; [|reflexivity].
  apply Qltb_ge. inversion Hs as [|? ? [_ H] _]. exact H.
Qed.

Lemma make_exclusive_sorted (segments : list segment) :
  StronglySorted before (_make_exclusive segments).
Proof.
  rewrite make_exclusive_pairwise.
  apply pairwise_truncate_sorted, sorted_by_start_sorted.
Qed.

Lemma make_exclusive_step_drop (exclusive : list segment) (l seg : segment) :
  last exclusive = Some l ->
  start seg < end_ l ->
  round3 (Float64.sub (start seg) (start l)) <= 0 ->
  make_exclusive_step exclusive seg = removelast exclusive ++ [seg].
Proof.
  intros Hl Hov Hd. unfold make_exclusive_step. rewrite Hl.
  apply Qltb_lt in Hov. rewrite Hov. cbv zeta.
  apply Qle_bool_iff in Hd. simpl. by rewrite Hd.
Qed.

Example make_exclusive_overlapping_pair :
  _make_exclusive overlapping_pair
  = [ mk_segment "A" 0 3 3; mk_segment "B" 3 8 5 ].
Proof. vm_compute. reflexivity. Qed.

(** Two segments that start together: the first is truncated to nothing
    and leaves the timeline. *)
Example make_exclusive_same_start :
  _make_exclusive [ mk_segment "A" 0 5 5; mk_segment "B" 0 3 3 ]
  = [ mk_segment "B" 0 3 3 ].
Proof. vm_compute. reflexivity. Qed.

(** C3. For every list of diarization segments, in any order and with any
    overlaps, the output of [_make_exclusive] has ascending start times and
    no two of its segments overlap (an earlier one ends no later than a
    later one starts); every output segment is an input segment as it was,
    or an input segment cut at the start of an overlapping one with a
    positive rounded duration; and the loop removes the last accepted
    segment whenever cutting it leaves a rounded duration of zero or
    less. *)
Theorem make_exclusive_is_exclusive (segments : list segment) :
  starts_ascending (_make_exclusive segments)
  /\ non_overlapping (_make_exclusive segments)
  /\ (forall e, e ∈ _make_exclusive segments -> kept_from segments e)
  /\ (forall exclusive l seg,
        last exclusive = Some l ->
        start seg < end_ l ->
        duration (truncate l seg) <= 0 ->
        make_exclusive_step exclusive seg = removelast exclusive ++ [seg]).
Proof.
  pose proof (make_exclusive_sorted segments) as Hs.
  split; [|split; [|split]].
  - intros i j a b Hi Hj Hij.
    by destruct (StronglySorted_lookup before _ i j a b Hs Hi Hj Hij).
  - intros i j a b Hi Hj Hij.
    by destruct (StronglySorted_lookup before _ i j a b Hs Hi Hj Hij).
  - intros e He. rewrite make_exclusive_pairwise in He.
    apply pairwise_truncate_kept in He.
    destruct He as [He|(a & b & Ha & Hb & H)].
    + left. by apply elem_of_sorted_by_start.
    + right. exists a, b.
      split; [by apply (elem_of_sorted_by_start a segments)|].
      split; [by apply (elem_of_sorted_by_start b segments)|]. exact H.
  - intros exclusive l seg. apply make_exclusive_step_drop.
Qed.

Lemma make_exclusive_is_exclusive_witness :
  starts_ascending (_make_exclusive overlapping_pair)
  /\ non_overlapping (_make_exclusive overlapping_pair)
  /\ (forall e, e ∈ _make_exclusive overlapping_pair ->
        kept_from overlapping_pair e)
  /\ (forall exclusive l seg,
        last exclusive = Some l ->
        start seg < end_ l ->
        duration (truncate l seg) <= 0 ->
        make_exclusive_step exclusive seg = removelast exclusive ++ [seg]).
Proof. exact (make_exclusive_is_exclusive overlapping_pair). Defined.

(** C4. [_make_exclusive] is idempotent: applying it to its own output
    gives that output back. *)
Theorem make_exclusive_idempotent (segments : list segment) :
  _make_exclusive (_make_exclusive segments) = _make_exclusive segments.
Proof.
  pose proof (make_exclusive_sorted segments) as Hs.
  rewrite (make_exclusive_pairwise (_make_exclusive segments)).
  rewrite sorted_by_start_id.
  - by apply pairwise_truncate_id.
  - apply lookup_StronglySorted. intros i j a b Hi Hj Hij.
    by destruct (StronglySorted_lookup before _ i j a b Hs Hi Hj Hij).
Qed.

End DiarizationFacts.

(** ** Facts about [_find_speaker_at_time] *)

Module FindSpeakerFacts.
Import Num NumFacts Diarization DiarizationFacts Merger.

Lemma contains_iff (seg : segment) (t : Q) :
  contains seg t = true <-> start seg <= t /\ t <= end_ seg.
Proof.
  unfold contains. rewrite andb_true_iff, !Qle_bool_iff. reflexivity.
Qed.

Lemma first_containing_at (t : Q) (l : list segment) (k : nat) (seg : segment) :
  l !! k = Some seg ->
  contains seg t = true ->
  (forall j s, (j < k)%nat -> l !! j = Some s -> contains s t = false) ->
  first_containing t l = Some seg.
Proof.
  revert k. induction l as [|x l IH]; intros k Hk Hc Hbefore.
  - by rewrite lookup_nil in Hk.
  - destruct k as [|k]; simpl in *.
    + injection Hk as ->. by rewrite Hc.
    + rewrite (Hbefore 0%nat x) by (done || lia).
      apply (IH k); [done|done|].
      intros j s Hj Hs. apply (Hbefore (S j)); [lia|done].
Qed.

Lemma first_containing_None (t : Q) (l : list segment) :
  (forall seg, seg ∈ l -> contains seg t = false) ->
  first_containing t l = None.
Proof.
  induction l as [|x l IH]; intros H; [reflexivity|]. simpl.
  rewrite (H x) by apply list_elem_of_here.
  apply IH. intros seg Hseg. apply H. by apply list_elem_of_further.
Qed.

Lemma below_trans (d d' : Q) (md : option Q) :
  d' < d -> below d md = true -> below d' md = true.
Proof.
  destruct md as [m|]; [|done]. simpl. rewrite !Qltb_lt.
  intros. by eapply Qlt_trans.
Qed.

Lemma below_false (d : Q) (md : option Q) :
  below d md = false -> exists m, md = Some m /\ m <= d.
Proof.
  destruct md as [m|]; [|done]. simpl. rewrite Qltb_ge. eauto.
Qed.

(** The second loop keeps the first segment at the minimum distance. *)
Lemma nearest_fold (t : Q) (l : list segment) (md : option Q) (ns : option string) :
  (fold_left (nearest_step t) l (md, ns) = (md, ns)
   /\ forall seg, seg ∈ l -> below (distance t seg) md = false)
  \/ exists k seg,
       first_nearest t l k seg
       /\ below (distance t seg) md = true
       /\ fold_left (nearest_step t) l (md, ns)
          = (Some (distance t seg), Some (speaker seg)).
Proof.
  revert md ns. induction l as [|x l IH]; intros md ns.
  - left. split; [reflexivity|]. by intros seg ?%elem_of_nil.
  - cbn [fold_left].
    assert (nearest_step t (md, ns) x
            = if below (distance t x) md
              then (Some (distance t x), Some (speaker x)) else (md, ns))
      as -> by reflexivity.
    destruct (below (distance t x) md) eqn:Hx.
    + right.
      destruct (IH (Some (distance t x)) (Some (speaker x)))
        as [[Heq Hall]|(k & seg & (Hk & Hmin & Hfirst) & Hb & Heq)].
      * exists 0%nat, x. split; [|by rewrite Heq].
        split; [reflexivity|]. split.
        -- intros [|j] s Hs; simpl in Hs.
           ++ injection Hs as ->. apply Qle_refl.
           ++ apply Qltb_ge. apply (Hall s). by eapply list_elem_of_lookup_2.
        -- intros j s Hj. lia.
      * exists (S k), seg. simpl in Hb. apply Qltb_lt in Hb.
        split; [|split; [by eapply below_trans|exact Heq]].
        split; [exact Hk|]. split.
        -- intros [|j] s Hs; simpl in Hs.
           ++ injection Hs as ->. by apply Qlt_le_weak.
           ++ by apply (Hmin j).
        -- intros [|j] s Hj Hs; simpl in Hs.
           ++ by injection Hs as ->.
           ++ apply (Hfirst j); [lia|done].
    + destruct (IH md ns)
        as [[Heq Hall]|(k & seg & (Hk & Hmin & Hfirst) & Hb & Heq)].
      * left. split; [exact Heq|].
        intros seg [->|Hin]%elem_of_cons; [exact Hx|by apply Hall].
      * right. exists (S k), seg.
        destruct (below_false _ _ Hx) as (m & -> & Hm).
        simpl in Hb. apply Qltb_lt in Hb.
        split; [|split; [by apply Qltb_lt|exact Heq]].
        split; [exact Hk|]. split.
        -- intros [|j] s Hs; simpl in Hs.
           ++ injection Hs as ->. apply Qlt_le_weak. by eapply Qlt_le_trans.
           ++ by apply (Hmin j).
        -- intros [|j] s Hj Hs; simpl in Hs.
           ++ injection Hs as ->. by eapply Qlt_le_trans.
           ++ apply (Hfirst j); [lia|done].
Qed.

Lemma first_nearest_unique (t : Q) (l : list segment)
    (k k' : nat) (seg seg' : segment) :
  first_nearest t l k seg -> first_nearest t l k' seg' -> seg = seg'.
Proof.
  intros (Hk & Hmin & Hfirst) (Hk' & Hmin' & Hfirst').
  destruct (Nat.lt_trichotomy k k') as [Hlt|[->|Hlt]].
  - exfalso. apply (Qlt_not_le _ _ (Hfirst' k seg Hlt Hk)). by apply (Hmin k').
  - congruence.
  - exfalso. apply (Qlt_not_le _ _ (Hfirst k' seg' Hlt Hk')). by apply (Hmin' k).
Qed.

Lemma find_speaker_first (t : Q) (timeline : list segment) (k : nat) (seg : segment) :
  timeline !! k = Some seg ->
  start seg <= t -> t <= end_ seg ->
  (forall j s, (j < k)%nat -> timeline !! j = Some s -> end_ s < t) ->
  _find_speaker_at_time t timeline = Some (speaker seg).
Proof.
  intros Hk Hs He Hbefore. unfold _find_speaker_at_time.
  rewrite (first_containing_at t timeline k seg); [reflexivity|exact Hk| |].
  - by apply contains_iff.
  - intros j s Hj Hjs. destruct (contains s t) eqn:Hc; [|reflexivity].
    apply contains_iff in Hc as [_ Hc].
    destruct (Qlt_not_le _ _ (Hbefore j s Hj Hjs) Hc).
Qed.

Lemma find_speaker_outside (t : Q) (timeline : list segment) (k : nat) (seg : segment) :
  (forall s, s ∈ timeline -> contains s t = false) ->
  first_nearest t timeline k seg ->
  _find_speaker_at_time t timeline
  = if Qltb (distance t seg) tolerance then Some (speaker seg) else None.
Proof.
  intros Hout Hseg. unfold _find_speaker_at_time.
  rewrite first_containing_None by exact Hout.
  destruct (nearest_fold t timeline None None)
    as [[_ Hall]|(k' & seg' & Hseg' & _ & ->)].
  - destruct Hseg as (Hk & _). apply list_elem_of_lookup_2 in Hk.
    by specialize (Hall seg Hk).
  - rewrite (first_nearest_unique _ _ _ _ _ _ Hseg Hseg').
    by destruct (Qltb (distance t seg') tolerance).
Qed.

Lemma first_nearest_exists (t : Q) (timeline : list segment) :
  timeline <> [] -> exists k seg, first_nearest t timeline k seg.
Proof.
  intros Hne.
  destruct (nearest_fold t timeline None None)
    as [[_ Hall]|(k & seg & Hseg & _)]; [|by eauto].
  destruct timeline as [|x l]; [done|].
  by specialize (Hall x (list_elem_of_here _ _)).
Qed.

Lemma non_overlapping_two_speaker_timeline :
  non_overlapping two_speaker_timeline.
Proof.
  intros i j a b Hi Hj Hij.
  destruct i as [|[|[|i]]]; destruct j as [|[|[|j]]];
    simpl in Hi, Hj; try discriminate; try lia;
    injection Hi as <-; injection Hj as <-; by vm_compute.
Qed.

(** The distance that decides is the rounded one.  The float 0.586 is
    less than half a second after the float 0.086, and their difference
    rounds to 0.5, which is not below the tolerance: the timestamp gets
    no label.  The difference of the floats 0.563 and 0.063 is the float
    below 0.5: the timestamp gets the label. *)
Example find_speaker_rounded_distance :
  _find_speaker_at_time late_timestamp short_timeline = None
  /\ distance late_timestamp (mk_segment "A" 0 (Float64.lit 0.086)
                                          (Float64.lit 0.086)) = 1 # 2
  /\ spec_distance late_timestamp (mk_segment "A" 0 (Float64.lit 0.086)
                                               (Float64.lit 0.086)) < 1 # 2
  /\ _find_speaker_at_time 0.563 [ mk_segment "A" 0 0.063 0.063 ] = Some "A".
Proof. by vm_compute. Qed.

(** C5, as stated, fails when the distance is the gap itself: the only
    segment of [short_timeline] ends less than half a second before
    [late_timestamp], which is inside no segment and gets no label. *)
Lemma find_speaker_at_time_counterexample :
  ~ (forall (t : Q) (timeline : list segment) (k : nat) (seg : segment),
       (forall s, s ∈ timeline -> contains s t = false) ->
       timeline !! k = Some seg ->
       (forall j s, timeline !! j = Some s ->
          spec_distance t seg <= spec_distance t s) ->
       (forall j s, (j < k)%nat -> timeline !! j = Some s ->
          spec_distance t seg < spec_distance t s) ->
       _find_speaker_at_time t timeline
       = if Qltb (spec_distance t seg) tolerance
         then Some (speaker seg) else None).
Proof.
  intros H.
  specialize (H late_timestamp short_timeline 0%nat
                (mk_segment "A" 0 (Float64.lit 0.086) (Float64.lit 0.086))).
  assert (_find_speaker_at_time late_timestamp short_timeline = Some "A")
    as Hfind.
  { apply H.
    - intros s ->%list_elem_of_singleton. by vm_compute.
    - reflexivity.
    - intros [|j] s Hs; [|done]. injection Hs as <-. apply Qle_refl.
    - intros j s Hj. lia. }
  vm_compute in Hfind. discriminate Hfind.
Qed.

(** C5, amended.  The distance of a timestamp from a segment is the one
    the code computes in floating point: 0 inside the segment, else the
    difference to the nearer boundary, rounded.  In a timeline (a list of
    segments none of which overlaps a later one), a timestamp strictly
    inside a segment gets that segment's label.  A timestamp inside no
    segment gets the label of the first segment at the minimum distance
    when that distance is below the tolerance of half a second, and
    nothing (the unassigned value) otherwise, as it does on an empty
    timeline; a segment at the minimum distance exists whenever the
    timeline is not empty. *)
Theorem find_speaker_at_time_spec (t : Q) (timeline : list segment) :
  (non_overlapping timeline ->
   forall seg, seg ∈ timeline -> start seg < t -> t < end_ seg ->
     _find_speaker_at_time t timeline = Some (speaker seg))
  /\ ((forall s, s ∈ timeline -> contains s t = false) ->
      (timeline = [] -> _find_speaker_at_time t timeline = None)
      /\ (timeline <> [] -> exists k seg, first_nearest t timeline k seg)
      /\ (forall k seg, first_nearest t timeline k seg ->
            _find_speaker_at_time t timeline
            = if Qltb (distance t seg) tolerance
              then Some (speaker seg) else None))
  /\ tolerance == 1 # 2.
Proof.
  split; [|split; [|reflexivity]].
  - intros Hno seg [k Hk]%list_elem_of_lookup_1 Hs He.
    apply (find_speaker_first t timeline k seg); auto using Qlt_le_weak.
    intros j s Hj Hjs. eapply Qle_lt_trans; [|exact Hs].
    by apply (Hno j k).
  - intros Hout. split; [by intros ->|]. split.
    + apply first_nearest_exists.
    + intros k seg. by apply find_speaker_outside.
Qed.

Lemma find_speaker_at_time_spec_witness :
  _find_speaker_at_time 1 two_speaker_timeline = Some "A"
  /\ _find_speaker_at_time (41 # 5) two_speaker_timeline = Some "B"
  /\ _find_speaker_at_time (17 # 2) two_speaker_timeline = None.
Proof.
  split; [|split].
  - apply (proj1 (find_speaker_at_time_spec 1 two_speaker_timeline)
             non_overlapping_two_speaker_timeline (mk_segment "A" 0 3 3)).
    + apply list_elem_of_here.
    + by vm_compute.
    + by vm_compute.
  - refine (proj2 (proj2 (proj1 (proj2
      (find_speaker_at_time_spec (41 # 5) two_speaker_timeline)) _))
      1%nat (mk_segment "B" 3 8 5) _).
    + intros s Hs. repeat (apply elem_of_cons in Hs as [->|Hs]; [by vm_compute|]).
      by apply elem_of_nil in Hs.
    + split; [reflexivity|]. split.
      * intros [|[|[|j]]] s Hs; simpl in Hs; try discriminate;
          injection Hs as <-; by vm_compute.
      * intros [|[|[|j]]] s Hj Hs; simpl in Hs; try discriminate; try lia;
          injection Hs as <-; by vm_compute.
  - refine (proj2 (proj2 (proj1 (proj2
      (find_speaker_at_time_spec (17 # 2) two_speaker_timeline)) _))
      1%nat (mk_segment "B" 3 8 5) _).
    + intros s Hs. repeat (apply elem_of_cons in Hs as [->|Hs]; [by vm_compute|]).
      by apply elem_of_nil in Hs.
    + split; [reflexivity|]. split.
      * intros [|[|[|j]]] s Hs; simpl in Hs; try discriminate;
          injection Hs as <-; by vm_compute.
      * intros [|[|[|j]]] s Hj Hs; simpl in Hs; try discriminate; try lia;
          injection Hs as <-; by vm_compute.
Defined.

Lemma exclusive_timeline_with_instant :
  starts_ascending timeline_with_instant
  /\ non_overlapping timeline_with_instant.
Proof.
  split; intros i j a b Hi Hj Hij;
    destruct i as [|[|[|i]]]; destruct j as [|[|[|j]]];
    simpl in Hi, Hj; try discriminate; try lia;
    injection Hi as <-; injection Hj as <-; by vm_compute.
Qed.

(** A timeline that [_make_exclusive] leaves as it is, and on which the
    time shared by "A" and "B" goes to "X". *)
Example find_speaker_at_instant :
  _make_exclusive timeline_with_instant = timeline_with_instant
  /\ _find_speaker_at_time 5 timeline_with_instant = Some "X".
Proof. split; vm_compute; reflexivity. Qed.

(** C10, as stated, fails: in a sorted exclusive timeline where the
    earlier of two adjacent segments has no duration, a segment before it
    that ends at the same time answers for the shared boundary. *)
Lemma find_speaker_at_boundary_counterexample :
  ~ (forall (timeline : list segment) (i : nat) (a b : segment),
       starts_ascending timeline -> non_overlapping timeline ->
       timeline !! i = Some a -> timeline !! S i = Some b ->
       end_ a = start b ->
       _find_speaker_at_time (end_ a) timeline = Some (speaker a)).
Proof.
  intros H.
  destruct exclusive_timeline_with_instant as [Hs Hn].
  specialize (H timeline_with_instant 1%nat
                (mk_segment "A" 5 5 0) (mk_segment "B" 5 8 3)
                Hs Hn eq_refl eq_refl eq_refl).
  vm_compute in H. discriminate H.
Qed.

(** C10, amended. In a sorted exclusive timeline where a segment of
    positive duration ends at the time [b] at which the next one starts,
    the time [b] gets the label of the earlier segment. *)
Theorem find_speaker_at_boundary (timeline : list segment) (i : nat)
    (a b : segment) (t : Q) :
  starts_ascending timeline -> non_overlapping timeline ->
  timeline !! i = Some a -> timeline !! S i = Some b ->
  end_ a == t -> start b == t ->
  start a < t ->
  _find_speaker_at_time t timeline = Some (speaker a).
Proof.
  intros _ Hno Ha _ Hend _ Hpos.
  apply (find_speaker_first t timeline i a Ha).
  - by apply Qlt_le_weak.
  - rewrite Hend. apply Qle_refl.
  - intros j s Hj Hs. eapply Qle_lt_trans; [|exact Hpos].
    by apply (Hno j i).
Qed.

Lemma find_speaker_at_boundary_witness :
  _find_speaker_at_time 3 two_speaker_timeline = Some "A".
Proof.
  apply (find_speaker_at_boundary two_speaker_timeline 0
           (mk_segment "A" 0 3 3) (mk_segment "B" 3 8 5) 3).
  - intros i j a b Hi Hj Hij.
    destruct i as [|[|[|i]]]; destruct j as [|[|[|j]]];
      simpl in Hi, Hj; try discriminate; try lia;
      injection Hi as <-; injection Hj as <-; by vm_compute.
  - exact non_overlapping_two_speaker_timeline.
  - reflexivity.
  - reflexivity.
  - reflexivity.
  - reflexivity.
  - by vm_compute.
Defined.

End FindSpeakerFacts.

(** ** Facts about [_group_words_into_turns] *)

Module TurnFacts.
Import Num NumFacts Diarization Merger.

Lemma string_app_assoc (a b c : string) : (a +:+ b) +:+ c = a +:+ (b +:+ c).
Proof.
  induction a as [|x a IH]; [reflexivity|].
  change (String x ((a +:+ b) +:+ c) = String x (a +:+ (b +:+ c))).
  by rewrite IH.
Qed.

Lemma concat_snoc (sep x y : string) (l : list string) :
  String.concat sep ((x :: l) ++ [y]) = String.concat sep (x :: l) +:+ sep +:+ y.
Proof.
  revert x. induction l as [|z l IH]; intros x; [reflexivity|].
  change (String.concat sep ((x :: z :: l) ++ [y]))
    with (x +:+ sep +:+ String.concat sep ((z :: l) ++ [y])).
  rewrite IH.
  change (String.concat sep (x :: z :: l))
    with (x +:+ sep +:+ String.concat sep (z :: l)).
  by rewrite !string_app_assoc.
Qed.

Lemma no_adjacent_dup_snoc (l : list string) (a b : string) :
  no_adjacent_dup (l ++ [a]) -> a <> b -> no_adjacent_dup ((l ++ [a]) ++ [b]).
Proof.
  intros H Hab. induction l as [|x l IH]; [by split|].
  destruct l as [|y l]; simpl in *.
  - destruct H as [Hxa _]. by repeat split.
  - destruct H as [Hxy H]. split; [exact Hxy|]. by apply IH.
Qed.

Lemma turn_of_words_new (w : word) :
  word_text w <> "" -> turn_of_words (new_turn w).
Proof.
  intros Hw. unfold turn_of_words, new_turn. simpl.
  split; [|done]. by repeat constructor.
Qed.

Lemma turn_of_words_continue (cur : open_turn) (w : word) :
  word_text w <> "" -> ot_speaker cur = word_speaker w ->
  turn_of_words cur -> turn_of_words (continue_turn cur w).
Proof.
  intros Hw Hsp. unfold turn_of_words, continue_turn. simpl.
  destruct (ot_words cur) as [|w0 ws]; [done|].
  intros (Hall & Hstart & Hend & Htext). simpl.
  split; [|split; [exact Hstart|split]].
  - change (w0 :: ws ++ [w]) with ((w0 :: ws) ++ [w]).
    apply Forall_app. split; [exact Hall|]. by repeat constructor.
  - by rewrite fold_left_app, <- Hend.
  - rewrite Htext, map_app. symmetry.
    apply (concat_snoc " " (word_text w0) (word_text w) (map word_text ws)).
Qed.

Lemma grouped_step (ws : list word) (st : list open_turn * option open_turn)
    (w : word) :
  grouped ws st -> grouped (ws ++ [w]) (group_step st w).
Proof.
  destruct st as [turns cur]. unfold grouped, flush, group_step.
  cbn [fst snd]. intros (Hcat & Hall & Hadj & Hnone).
  rewrite filter_app, filter_cons, filter_nil.
  destruct (decide (word_text w = "")) as [Hw|Hw].
  - rewrite decide_False by auto. cbn [fst snd]. by rewrite app_nil_r.
  - rewrite decide_True by exact Hw.
    destruct cur as [cur|].
    + destruct (decide (ot_speaker cur = word_speaker w)) as [Hsp|Hsp];
        cbn [fst snd option_list] in *.
      * rewrite !map_app, !concat_app in *. simpl in *.
        rewrite app_nil_r in *. split; [|split; [|split; [exact Hadj|done]]].
        -- by rewrite app_assoc, Hcat.
        -- apply Forall_app in Hall as [Ht Hc]. apply Forall_app.
           split; [exact Ht|]. constructor; [|constructor].
           apply turn_of_words_continue; [done|done|by inversion Hc].
      * split; [|split; [|split; [|done]]].
        -- rewrite !map_app, !concat_app in *. simpl in *.
           rewrite app_nil_r in *. by rewrite Hcat.
        -- apply Forall_app. split; [exact Hall|].
           constructor; [|constructor]. by apply turn_of_words_new.
        -- rewrite !map_app in *. simpl in *.
           by apply no_adjacent_dup_snoc.
    + cbn [fst snd option_list] in *. rewrite (Hnone eq_refl) in *.
      simpl in *. split; [by rewrite <- Hcat|].
      split; [|by split].
      constructor; [|constructor]. by apply turn_of_words_new.
Qed.

Lemma grouped_fold (ws : list word) :
  grouped ws (fold_left group_step ws ([], None)).
Proof.
  induction ws as [|w ws IH] using rev_ind.
  - by repeat split.
  - rewrite fold_left_app. by apply grouped_step.
Qed.

Lemma open_turns_flush (ws : list word) :
  open_turns ws = flush (fold_left group_step ws ([], None)).
Proof.
  unfold open_turns, flush.
  destruct (fold_left group_step ws ([], None)) as [turns [cur|]]; simpl;
    [reflexivity|by rewrite app_nil_r].
Qed.

Lemma open_turns_grouped (ws : list word) :
  concat (map ot_words (open_turns ws)) = filter (fun w => word_text w <> "") ws
  /\ Forall turn_of_words (open_turns ws)
  /\ no_adjacent_dup (map ot_speaker (open_turns ws)).
Proof.
  rewrite open_turns_flush.
  destruct (grouped_fold ws) as (H1 & H2 & H3 & _). by repeat split.
Qed.

Lemma group_words_into_turns_eq (ws : list word) :
  _group_words_into_turns ws = map close_turn (open_turns ws).
Proof. by destruct ws. Qed.

(** C6. The turns of [_group_words_into_turns] are the closed forms of
    turns that partition the words with non-empty trimmed text: the words
    of the turns, one turn after the other, are exactly those words in
    their original order, so none is left out and none is in two turns.
    Each turn has at least one word, its words carry its speaker, its
    text is their trimmed texts joined by spaces and its span runs from
    its first word's start to its last word's end; neighbouring turns
    have different speakers.  The three tokens "hi", "there" and "bye"
    give the two turns of the specification's example. *)
Theorem group_words_into_turns_partition (words : list word) :
  _group_words_into_turns words = map close_turn (open_turns words)
  /\ concat (map ot_words (open_turns words))
     = filter (fun w => word_text w <> "") words
  /\ Forall turn_of_words (open_turns words)
  /\ no_adjacent_dup (map ot_speaker (open_turns words))
  /\ _group_words_into_turns greeting_words = greeting_turns.
Proof.
  destruct (open_turns_grouped words) as (H1 & H2 & H3).
  split; [apply group_words_into_turns_eq|].
  split; [exact H1|]. split; [exact H2|]. split; [exact H3|].
  vm_compute. reflexivity.
Qed.

End TurnFacts.

(** ** Facts about the merge *)

Module MergeFacts.
Import Num NumFacts Diarization Merger TurnFacts.

Example strip_examples :
  strip "  hi " = "hi" /\ strip " " = "" /\ strip "a b" = "a b".
Proof. by vm_compute. Qed.

Example strip_unicode_examples :
  strip (no_break_space +:+ " hi" +:+ ideographic_space +:+ " ") = "hi"
  /\ strip (ideographic_space +:+ no_break_space) = ""
  /\ strip (" hi" +:+ zero_width_space) = "hi" +:+ zero_width_space.
Proof. by vm_compute. Qed.

Example merge_spaced_transcript :
  merge_transcription_with_diarization spaced_transcript one_speaker None None
  = {| m_text := " hi  there";
       m_segments :=
         [ mk_turn "SPEAKER_00" None None 0 2 (Some 2) "hi there" ];
       m_words := None;
       m_num_speakers := 1;
       m_duration := 2;
       m_language := Some None |}.
Proof. vm_compute. reflexivity. Qed.

(** The path with words and with diarization segments. *)
Lemma merge_word_path (whisper : whisper_result) (diarization : diarization_result)
    (sm : option (gmap string (option string))) (sc : option (gmap string (option Q))) :
  extract_words whisper <> [] ->
  default [] (dr_segments diarization) <> [] ->
  m_segments (merge_transcription_with_diarization whisper diarization sm sc)
  = map (apply_mapping sm sc)
        (map close_turn
             (open_turns (_assign_words_to_speakers
                            (extract_words whisper)
                            (default [] (dr_segments diarization)))))
  /\ m_text (merge_transcription_with_diarization whisper diarization sm sc)
     = match default "" (wr_text whisper) with
       | EmptyString => join_words (extract_words whisper)
       | text => text
       end.
Proof.
  intros Hw Hd. unfold merge_transcription_with_diarization.
  destruct (extract_words whisper) as [|w ws]; [done|].
  destruct (default [] (dr_segments diarization)) as [|d ds]; [done|].
  cbn [m_segments m_text]. by rewrite group_words_into_turns_eq.
Qed.

(** The path with words and without diarization segments. *)
Lemma merge_single_speaker (whisper : whisper_result) (diarization : diarization_result)
    (sm : option (gmap string (option string))) (sc : option (gmap string (option Q))) :
  extract_words whisper <> [] ->
  default [] (dr_segments diarization) = [] ->
  m_segments (merge_transcription_with_diarization whisper diarization sm sc)
  = [single_speaker_turn whisper sm sc].
Proof.
  intros Hw Hd. unfold merge_transcription_with_diarization.
  destruct (extract_words whisper) as [|w ws]; [done|].
  by rewrite Hd.
Qed.

(** The path without words. *)
Lemma merge_no_words (whisper : whisper_result) (diarization : diarization_result)
    (sm : option (gmap string (option string))) (sc : option (gmap string (option Q))) :
  extract_words whisper = [] ->
  merge_transcription_with_diarization whisper diarization sm sc
  = _merge_segment_level whisper diarization sm sc.
Proof.
  intros Hw. unfold merge_transcription_with_diarization. by rewrite Hw.
Qed.

(** With words, an empty diarization gives the single turn from 0 to the
    reported duration under the label SPEAKER_00. *)
Lemma merge_no_diarization_words (whisper : whisper_result)
    (diarization : diarization_result)
    (sm : option (gmap string (option string))) (sc : option (gmap string (option Q))) :
  extract_words whisper <> [] ->
  default [] (dr_segments diarization) = [] ->
  exists t,
    m_segments (merge_transcription_with_diarization whisper diarization sm sc)
    = [t]
    /\ t_speaker t = "SPEAKER_00"
    /\ t_start t = 0
    /\ t_end t = default 0 (wr_duration whisper).
Proof.
  intros Hw Hd. exists (single_speaker_turn whisper sm sc).
  by rewrite merge_single_speaker.
Qed.

(** Without words, an empty diarization gives one turn per segment of
    the transcription, each under the label SPEAKER_UNKNOWN. *)
Lemma merge_no_diarization_no_words (whisper : whisper_result)
    (diarization : diarization_result)
    (sm : option (gmap string (option string))) (sc : option (gmap string (option Q))) :
  extract_words whisper = [] ->
  default [] (dr_segments diarization) = [] ->
  length (m_segments (merge_transcription_with_diarization
                        whisper diarization sm sc))
  = length (default [] (wr_segments whisper))
  /\ Forall (fun t => t_speaker t = "SPEAKER_UNKNOWN")
            (m_segments (merge_transcription_with_diarization
                           whisper diarization sm sc)).
Proof.
  intros Hw Hd. rewrite merge_no_words by exact Hw.
  cbn [_merge_segment_level m_segments]. rewrite Hd, length_map.
  split; [reflexivity|]. by apply Forall_map, Forall_true.
Qed.

(** C2, at the failing input: a transcription that has segments but no
    words, merged with a diarization without segments, gives one turn per
    transcription segment under the label SPEAKER_UNKNOWN. *)
Theorem merge_no_diarization_segment_level :
  m_segments (merge_transcription_with_diarization
                segment_only_transcript no_diarization None None)
  = [ mk_turn "SPEAKER_UNKNOWN" None None 0 1 (Some 1) "hello";
      mk_turn "SPEAKER_UNKNOWN" None None 1 2 (Some 1) "world" ].
Proof. vm_compute. reflexivity. Qed.

Lemma concat_app_nonempty (sep : string) (g l : list string) :
  g <> [] -> l <> [] ->
  String.concat sep (g ++ l)
  = String.concat sep g +:+ sep +:+ String.concat sep l.
Proof.
  intros Hg Hl. induction g as [|x g IH]; [done|].
  destruct g as [|y g].
  - destruct l as [|z l]; [done|]. reflexivity.
  - change (String.concat sep ((x :: y :: g) ++ l))
      with (x +:+ sep +:+ String.concat sep ((y :: g) ++ l)).
    rewrite IH by done.
    change (String.concat sep (x :: y :: g))
      with (x +:+ sep +:+ String.concat sep (y :: g)).
    by rewrite !string_app_assoc.
Qed.

Lemma concat_join (sep : string) (gs : list (list string)) :
  Forall (fun g => g <> []) gs ->
  String.concat sep (map (String.concat sep) gs) = String.concat sep (concat gs).
Proof.
  induction 1 as [|g gs Hg Hgs IH]; [reflexivity|].
  destruct gs as [|g' gs'].
  - simpl. by rewrite app_nil_r.
  - change (String.concat sep (map (String.concat sep) (g :: g' :: gs')))
      with (String.concat sep g +:+ sep
            +:+ String.concat sep (map (String.concat sep) (g' :: gs'))).
    rewrite IH. cbn [concat]. rewrite <- concat_app_nonempty; [done|done|].
    inversion Hgs as [|? ? Hg' _]. by destruct g'.
Qed.

Lemma t_text_apply_mapping (sm : option (gmap string (option string)))
    (sc : option (gmap string (option Q))) (t : turn) :
  t_text (apply_mapping sm sc t) = t_text t.
Proof. unfold apply_mapping. by destruct (dict_truthy sm). Qed.

Lemma word_text_assign (d : list segment) (w : word) :
  word_text (assign_word d w) = word_text w.
Proof. reflexivity. Qed.

(** The texts of the turns, joined, are the trimmed texts of the words
    that have some, joined. *)
Lemma join_turn_texts (ws : list word) :
  String.concat " " (map ot_text (open_turns ws))
  = String.concat " "
      (map word_text (filter (fun w => word_text w <> "") ws)).
Proof.
  destruct (open_turns_grouped ws) as (Hcat & Hall & _).
  rewrite <- Hcat. clear Hcat.
  rewrite concat_map, <- (concat_join " ").
  - f_equal. rewrite !map_map.
    induction Hall as [|t ts Ht Hts IH]; [reflexivity|].
    cbn [map]. rewrite IH. f_equal.
    unfold turn_of_words in Ht. destruct (ot_words t); [done|].
    by destruct Ht as (_ & _ & _ & ->).
  - rewrite !map_map. apply Forall_map.
    eapply Forall_impl; [exact Hall|]. intros t Ht.
    unfold turn_of_words in Ht. by destruct (ot_words t).
Qed.

Lemma trimmed_texts (d : list segment) (ws : list word) :
  Forall trimmed_text ws ->
  map word_text
      (filter (fun w => word_text w <> "") (_assign_words_to_speakers ws d))
  = map (fun w => default "" (w_word w)) ws.
Proof.
  unfold _assign_words_to_speakers.
  induction 1 as [|w ws [Hne Heq] _ IH]; [reflexivity|].
  cbn [map]. rewrite filter_cons, decide_True by exact Hne.
  cbn [map]. rewrite IH. f_equal. exact Heq.
Qed.

(** C7, as stated, fails: the words " hi" and " there" are joined as
    they are, while the one turn they make has the text "hi there". *)
Lemma merge_full_text_counterexample :
  ~ (forall whisper diarization sm sc,
       default "" (wr_text whisper) = "" ->
       m_text (merge_transcription_with_diarization whisper diarization sm sc)
       = String.concat " "
           (map t_text
                (m_segments (merge_transcription_with_diarization
                               whisper diarization sm sc)))).
Proof.
  intros H.
  specialize (H spaced_transcript one_speaker None None eq_refl).
  vm_compute in H. discriminate H.
Qed.

(** C7, amended. When the transcription has words, the diarization has
    segments and the transcription reports no full text, the full text
    of the result is the texts of the words, as they are, joined by
    single spaces; when every word has text that trimming leaves
    unchanged, this is also the join of the texts of the turns. *)
Theorem merge_full_text (whisper : whisper_result)
    (diarization : diarization_result)
    (sm : option (gmap string (option string)))
    (sc : option (gmap string (option Q))) :
  default "" (wr_text whisper) = "" ->
  extract_words whisper <> [] ->
  default [] (dr_segments diarization) <> [] ->
  let result :=
    merge_transcription_with_diarization whisper diarization sm sc in
  m_text result = join_words (extract_words whisper)
  /\ (Forall trimmed_text (extract_words whisper) ->
      m_text result = String.concat " " (map t_text (m_segments result))).
Proof.
  intros Ht Hw Hd result.
  destruct (merge_word_path whisper diarization sm sc Hw Hd) as [Hseg Htext].
  fold result in Hseg, Htext. rewrite Ht in Htext.
  split; [exact Htext|]. intros Htrim.
  rewrite Htext, Hseg, !map_map.
  erewrite (map_ext (fun t => t_text (apply_mapping sm sc (close_turn t))) ot_text);
    [|intros t; apply t_text_apply_mapping].
  rewrite join_turn_texts. unfold join_words. f_equal.
  symmetry. by apply trimmed_texts.
Qed.

Lemma merge_full_text_witness :
  let result :=
    merge_transcription_with_diarization
      trimmed_transcript one_speaker None None in
  m_text result = join_words (extract_words trimmed_transcript)
  /\ (Forall trimmed_text (extract_words trimmed_transcript) ->
      m_text result = String.concat " " (map t_text (m_segments result))).
Proof.
  apply (merge_full_text trimmed_transcript one_speaker None None).
  - reflexivity.
  - by vm_compute.
  - by vm_compute.
Defined.

Lemma dict_get_falsy {V} (d : option (gmap string (option V))) (k : string) :
  dict_truthy d = false -> dict_get d k = None.
Proof.
  destruct d as [m|]; [|done]. simpl. rewrite negb_false_iff.
  intros ->%bool_decide_eq_true. by rewrite lookup_empty.
Qed.

(** The value read back from a key set by [d.get(k)] under [if d]. *)
Lemma guarded_get {V} (d : option (gmap string (option V))) (k : string) :
  mjoin (if dict_truthy d then Some (dict_get d k) else None) = dict_get d k.
Proof.
  destruct (dict_truthy d) eqn:E; [reflexivity|].
  by rewrite dict_get_falsy.
Qed.

Lemma apply_mapping_null (sm : option (gmap string (option string)))
    (sc : option (gmap string (option Q))) (t : open_turn) :
  maps_agree sm sc ->
  is_null (t_identified_as (apply_mapping sm sc (close_turn t)))
  <-> is_null (t_confidence (apply_mapping sm sc (close_turn t))).
Proof.
  intros Hagree. unfold apply_mapping, is_null.
  destruct (dict_truthy sm) eqn:Esm; [|done]. cbn [t_identified_as t_confidence].
  change (t_confidence (close_turn t)) with (@None (option Q)).
  rewrite guarded_get. apply Hagree.
Qed.

Lemma merge_segment_null (d : list segment)
    (sm : option (gmap string (option string)))
    (sc : option (gmap string (option Q))) (wseg : whisper_segment) :
  maps_agree sm sc ->
  is_null (t_identified_as (merge_segment d sm sc wseg))
  <-> is_null (t_confidence (merge_segment d sm sc wseg)).
Proof.
  intros Hagree. unfold merge_segment, is_null.
  cbn [t_identified_as t_confidence]. rewrite !guarded_get. apply Hagree.
Qed.

Lemma single_speaker_turn_null (whisper : whisper_result)
    (sm : option (gmap string (option string)))
    (sc : option (gmap string (option Q))) :
  maps_agree sm sc ->
  is_null (t_identified_as (single_speaker_turn whisper sm sc))
  <-> is_null (t_confidence (single_speaker_turn whisper sm sc)).
Proof.
  intros Hagree. unfold single_speaker_turn, is_null.
  cbn [t_identified_as t_confidence mjoin option_join].
  specialize (Hagree "SPEAKER_00").
  destruct (dict_truthy sm) eqn:Esm; destruct (dict_truthy sc) eqn:Esc;
    try exact Hagree.
  - rewrite (dict_get_falsy sc) in Hagree by done. tauto.
  - rewrite (dict_get_falsy sm) in Hagree by done. tauto.
  - tauto.
Qed.

(** C8, as stated, fails: with a mapping and without confidences, the
    turn of SPEAKER_00 has the name "Alice" and no confidence. *)
Lemma merge_name_confidence_counterexample :
  ~ (forall whisper diarization sm sc t,
       t ∈ m_segments (merge_transcription_with_diarization
                         whisper diarization sm sc) ->
       is_null (t_identified_as t) <-> is_null (t_confidence t)).
Proof.
  intros H.
  specialize (H trimmed_transcript one_speaker alice_mapping None
                (mk_turn "SPEAKER_00" (Some (Some "Alice")) None 0 2 (Some 2)
                         "hi there")).
  assert (@is_null Q None) as Hnull by reflexivity.
  apply H in Hnull; [discriminate Hnull|].
  vm_compute. apply list_elem_of_here.
Qed.

(** C8, amended. When the mapping and the confidences agree on every
    label (a label has a name in the one exactly when it has a score in
    the other; a dict that is omitted or empty has none), every turn of
    every merge result has a name exactly when it has a confidence. *)
Theorem merge_name_confidence (whisper : whisper_result)
    (diarization : diarization_result)
    (sm : option (gmap string (option string)))
    (sc : option (gmap string (option Q))) (t : turn) :
  maps_agree sm sc ->
  t ∈ m_segments (merge_transcription_with_diarization
                    whisper diarization sm sc) ->
  is_null (t_identified_as t) <-> is_null (t_confidence t).
Proof.
  intros Hagree.
  destruct (extract_words whisper) as [|w ws] eqn:Hw.
  - rewrite merge_no_words by exact Hw. cbn [_merge_segment_level m_segments].
    intros (wseg & -> & _)%list_elem_of_fmap.
    by apply merge_segment_null.
  - assert (extract_words whisper <> []) as Hne by (by rewrite Hw).
    destruct (default [] (dr_segments diarization)) as [|d ds] eqn:Hd.
    + rewrite merge_single_speaker by done.
      intros ->%list_elem_of_singleton. by apply single_speaker_turn_null.
    + assert (default [] (dr_segments diarization) <> []) as Hdne
        by (by rewrite Hd).
      rewrite (proj1 (merge_word_path whisper diarization sm sc Hne Hdne)).
      rewrite <- list_fmap_compose.
      intros (ot & -> & _)%list_elem_of_fmap.
      by apply apply_mapping_null.
Qed.

Lemma maps_agree_alice : maps_agree alice_mapping alice_confidences.
Proof.
  intros label. unfold alice_mapping, alice_confidences, dict_get.
  destruct (decide (label = "SPEAKER_00")) as [->|Hne].
  - by rewrite !lookup_singleton_eq.
  - by rewrite !lookup_singleton_ne.
Qed.

Lemma merge_name_confidence_witness :
  is_null (t_identified_as
             (mk_turn "SPEAKER_00" (Some (Some "Alice")) (Some (Some 0.9))
                      0 2 (Some 2) "hi there"))
  <-> is_null (t_confidence
                 (mk_turn "SPEAKER_00" (Some (Some "Alice")) (Some (Some 0.9))
                          0 2 (Some 2) "hi there")).
Proof.
  apply (merge_name_confidence trimmed_transcript one_speaker
           alice_mapping alice_confidences).
  - exact maps_agree_alice.
  - vm_compute. apply list_elem_of_here.
Defined.

Lemma backwards_transcript_invalid :
  has_invalid_span backwards_transcript one_speaker.
Proof.
  left. exists (mk_word (Some "there") (Some 2) (Some 1) None).
  split; [apply list_elem_of_further, list_elem_of_here|].
  exists 2, 1. by vm_compute.
Qed.

(** The merge of a word that ends before it starts: it is given the
    speaker found at its midpoint and closes the turn at its own end. *)
Example merge_backwards_transcript :
  merge_transcription_with_diarization backwards_transcript one_speaker None None
  = {| m_text := "hi there";
       m_segments :=
         [ mk_turn "SPEAKER_00" None None 0 1 (Some 1) "hi there" ];
       m_words := None;
       m_num_speakers := 1;
       m_duration := 2;
       m_language := Some None |}.
Proof. vm_compute. reflexivity. Qed.

(** C9, as stated, fails: the merge of an input with a word that ends
    before it starts returns a result. *)
Lemma merge_invalid_span_counterexample :
  ~ (forall whisper diarization sm sc,
       has_invalid_span whisper diarization ->
       merge_outcome whisper diarization sm sc = Raises ValidationError).
Proof.
  intros H.
  specialize (H backwards_transcript one_speaker None None
                backwards_transcript_invalid).
  discriminate H.
Qed.

(** C9, amended. The merge of an input with a span that ends before it
    starts does not fail: it returns a result.  With words and with
    diarization segments, every word that has text, whatever its span, is
    given a speaker and is one of the words of a turn; without words,
    every transcription segment, whatever its span, gives a turn with the
    start and the end of the segment as they are. *)
Theorem merge_invalid_span (whisper : whisper_result)
    (diarization : diarization_result)
    (sm : option (gmap string (option string)))
    (sc : option (gmap string (option Q))) :
  has_invalid_span whisper diarization ->
  let result :=
    merge_transcription_with_diarization whisper diarization sm sc in
  let diar_segments := default [] (dr_segments diarization) in
  merge_outcome whisper diarization sm sc = Returns result
  /\ (extract_words whisper <> [] -> diar_segments <> [] ->
      forall w, w ∈ extract_words whisper -> word_text w <> "" ->
        exists t,
          t ∈ open_turns (_assign_words_to_speakers
                            (extract_words whisper) diar_segments)
          /\ assign_word diar_segments w ∈ ot_words t
          /\ apply_mapping sm sc (close_turn t) ∈ m_segments result)
  /\ (extract_words whisper = [] ->
      forall wseg, wseg ∈ default [] (wr_segments whisper) ->
        exists t,
          t ∈ m_segments result
          /\ t_start t = default 0 (ws_start wseg)
          /\ t_end t = default 0 (ws_end wseg)).
Proof.
  intros _ result diar_segments. split; [reflexivity|]. split.
  - intros Hw Hd w Hin Htext.
    destruct (open_turns_grouped
                (_assign_words_to_speakers (extract_words whisper) diar_segments))
      as (Hcat & _).
    assert (assign_word diar_segments w
            ∈ concat (map ot_words
                (open_turns (_assign_words_to_speakers
                               (extract_words whisper) diar_segments))))
      as Hmem.
    { rewrite Hcat. apply list_elem_of_filter. split; [exact Htext|].
      unfold _assign_words_to_speakers. by apply list_elem_of_fmap_2. }
    apply list_elem_of_In, in_concat in Hmem as (l & Hl & Hwl).
    apply list_elem_of_In in Hl, Hwl.
    apply list_elem_of_fmap in Hl as (t & -> & Ht).
    exists t. split; [exact Ht|]. split; [exact Hwl|].
    unfold result.
    rewrite (proj1 (merge_word_path whisper diarization sm sc Hw Hd)).
    apply list_elem_of_fmap_2. by apply list_elem_of_fmap_2.
  - intros Hw wseg Hin. unfold result. rewrite merge_no_words by exact Hw.
    exists (merge_segment diar_segments sm sc wseg).
    split; [|by split].
    cbn [_merge_segment_level m_segments]. by apply list_elem_of_fmap_2.
Qed.

Lemma merge_invalid_span_witness :
  merge_outcome backwards_transcript one_speaker None None
  = Returns (merge_transcription_with_diarization
               backwards_transcript one_speaker None None).
Proof.
  exact (proj1 (merge_invalid_span backwards_transcript one_speaker None None
                  backwards_transcript_invalid)).
Defined.

End MergeFacts.

(** ** Facts about [identify_speaker_by_voting] *)

Module VotingFacts.
Import Num NumFacts Voting.

Lemma first_seen_snoc (ms : list candidate) (m : candidate) :
  first_seen (ms ++ [m])
  = if decide (speaker_id m ∈ first_seen ms)
    then first_seen ms else first_seen ms ++ [speaker_id m].
Proof. unfold first_seen. by rewrite fold_left_app. Qed.

Lemma elem_of_first_seen (i : option string) (ms : list candidate) :
  i ∈ first_seen ms <-> exists m, m ∈ ms /\ speaker_id m = i.
Proof.
  induction ms as [|m ms IH] using rev_ind.
  - split; [by intros ?%elem_of_nil|]. by intros (m & ?%elem_of_nil & _).
  - rewrite first_seen_snoc. destruct (decide (speaker_id m ∈ first_seen ms)) as [Hin|Hin].
    + rewrite IH. split.
      * intros (m' & Hm' & <-). exists m'. split; [|done].
        apply elem_of_app. by left.
      * intros (m' & [Hm' | ->%list_elem_of_singleton]%elem_of_app & <-).
        -- by exists m'.
        -- by apply IH.
    + rewrite elem_of_app, IH, list_elem_of_singleton. split.
      * intros [(m' & Hm' & <-)| ->].
        -- exists m'. split; [|done]. apply elem_of_app. by left.
        -- exists m. split; [|done]. apply elem_of_app. right.
           by apply list_elem_of_singleton.
      * intros (m' & [Hm' | ->%list_elem_of_singleton]%elem_of_app & <-).
        -- left. by exists m'.
        -- by right.
Qed.

Lemma first_seen_NoDup (ms : list candidate) : NoDup (first_seen ms).
Proof.
  induction ms as [|m ms IH] using rev_ind; [constructor|].
  rewrite first_seen_snoc.
  destruct (decide (speaker_id m ∈ first_seen ms)) as [Hin|Hin]; [exact IH|].
  apply NoDup_app. split; [exact IH|]. split.
  - by intros i Hi ->%list_elem_of_singleton.
  - apply NoDup_singleton.
Qed.

Lemma scores_of_snoc (i : option string) (ms : list candidate) (m : candidate) :
  scores_of i (ms ++ [m])
  = scores_of i ms ++ (if decide (speaker_id m = i) then [score m] else []).
Proof.
  unfold scores_of. rewrite filter_app, map_app, filter_cons, filter_nil.
  by destruct (decide (speaker_id m = i)).
Qed.

Lemma first_match_snoc (i : option string) (ms : list candidate) (m : candidate) :
  first_match i (ms ++ [m])
  = match first_match i ms with
    | Some m' => Some m'
    | None => if decide (speaker_id m = i) then Some m else None
    end.
Proof.
  unfold first_match. rewrite filter_app, filter_cons, filter_nil.
  destruct (filter (fun m0 => speaker_id m0 = i) ms); [|reflexivity].
  by destruct (decide (speaker_id m = i)).
Qed.

Lemma scores_of_seen (i : option string) (ms : list candidate) :
  i ∈ first_seen ms <-> scores_of i ms <> [].
Proof.
  rewrite elem_of_first_seen. unfold scores_of. split.
  - intros (m & Hm & Hi) Hnil. apply fmap_nil_inv in Hnil.
    assert (m ∈ filter (fun m0 => speaker_id m0 = i) ms) as Hin
      by (by apply list_elem_of_filter).
    rewrite Hnil in Hin. by apply elem_of_nil in Hin.
  - intros Hne. destruct (filter (fun m0 => speaker_id m0 = i) ms) as [|m l] eqn:E;
      [done|].
    assert (m ∈ filter (fun m0 => speaker_id m0 = i) ms) as Hin
      by (rewrite E; apply list_elem_of_here).
    apply list_elem_of_filter in Hin as [Hi Hm]. by exists m.
Qed.

Lemma first_match_seen (i : option string) (ms : list candidate) :
  i ∈ first_seen ms ->
  exists m, first_match i ms = Some m /\ m ∈ ms /\ speaker_id m = i.
Proof.
  intros Hi%scores_of_seen. unfold scores_of, first_match in *.
  destruct (filter (fun m0 => speaker_id m0 = i) ms) as [|m l] eqn:E; [done|].
  exists m. split; [reflexivity|].
  assert (m ∈ filter (fun m0 => speaker_id m0 = i) ms) as Hin
    by (rewrite E; apply list_elem_of_here).
  apply list_elem_of_filter in Hin as [Hid Hm]. by split.
Qed.

Lemma assoc_lookup_map {V} (f : option string -> V) (i : option string)
    (l : list (option string)) :
  assoc_lookup i (map (fun j => (j, f j)) l)
  = if decide (i ∈ l) then Some (f i) else None.
Proof.
  induction l as [|j l IH]; cbn [map assoc_lookup].
  - destruct (decide (i ∈ [])) as [Hin|Hin]; [|done].
    by apply elem_of_nil in Hin.
  - destruct (decide (j = i)) as [->|Hne].
    + destruct (decide (i ∈ i :: l)) as [Hin|Hin]; [done|].
      destruct Hin. apply list_elem_of_here.
    + rewrite IH.
      destruct (decide (i ∈ l)) as [Hin|Hin];
        destruct (decide (i ∈ j :: l)) as [Hin'|Hin']; try done.
      * destruct Hin'. by apply list_elem_of_further.
      * apply elem_of_cons in Hin' as [->|?]; done.
Qed.

Lemma assoc_lookup_app {V} (i : option string) (d d' : list (option string * V)) :
  assoc_lookup i (d ++ d')
  = match assoc_lookup i d with
    | Some v => Some v
    | None => assoc_lookup i d'
    end.
Proof.
  induction d as [|[k v] d IH]; simpl; [reflexivity|].
  by destruct (decide (k = i)).
Qed.

Lemma assoc_alter_map {V} (g : V -> V) (f : option string -> V)
    (k : option string) (l : list (option string)) :
  assoc_alter g k (map (fun j => (j, f j)) l)
  = map (fun j => (j, if decide (j = k) then g (f j) else f j)) l.
Proof.
  unfold assoc_alter. rewrite map_map. apply map_ext.
  intros j. by destruct (decide (j = k)).
Qed.

Lemma tallied_step (ms : list candidate)
    (st : list (option string * list Q) * list (option string * candidate))
    (m : candidate) :
  tallied ms st -> tallied (ms ++ [m]) (vote_step st m).
Proof.
  destruct st as [scores info]. unfold tallied, vote_step. cbn [fst snd].
  intros [-> Hinfo]. rewrite assoc_lookup_map, first_seen_snoc.
  destruct (decide (speaker_id m ∈ first_seen ms)) as [Hin|Hin]; cbn [fst snd].
  - split.
    + rewrite assoc_alter_map. apply map_ext. intros j.
      rewrite scores_of_snoc.
      destruct (decide (j = speaker_id m)) as [->|Hne].
      * by rewrite decide_True.
      * rewrite decide_False by congruence. by rewrite app_nil_r.
    + intros i. rewrite first_match_snoc, Hinfo.
      destruct (first_match i ms) as [m'|] eqn:E; [reflexivity|].
      destruct (decide (speaker_id m = i)) as [<-|Hne]; [|reflexivity].
      destruct (first_match_seen _ _ Hin) as (m' & Hm' & _). congruence.
  - split.
    + unfold assoc_alter. rewrite !map_app. cbn [map].
      rewrite decide_True by reflexivity. f_equal.
      * fold (assoc_alter (fun scores => scores ++ [score m]) (speaker_id m)
                (map (fun i => (i, scores_of i ms)) (first_seen ms))).
        rewrite assoc_alter_map. apply map_ext. intros j.
        rewrite scores_of_snoc.
        destruct (decide (j = speaker_id m)) as [->|Hne].
        -- by rewrite decide_True.
        -- rewrite decide_False by congruence. by rewrite app_nil_r.
      * rewrite scores_of_snoc, decide_True by reflexivity.
        destruct (scores_of (speaker_id m) ms) eqn:E; [reflexivity|].
        destruct Hin. apply scores_of_seen. by rewrite E.
    + intros i. rewrite assoc_lookup_app, first_match_snoc, Hinfo.
      destruct (first_match i ms) as [m'|]; [reflexivity|]. reflexivity.
Qed.

Lemma tallied_fold (ms : list candidate) :
  tallied ms (fold_left vote_step ms ([], [])).
Proof.
  induction ms as [|m ms IH] using rev_ind.
  - by split.
  - rewrite fold_left_app. by apply tallied_step.
Qed.

(** The second loop keeps the first entry of the highest average, when
    some entry is above the starting value. *)
Lemma best_fold (entries : list (option string * list Q))
    (b : option string) (a : Q) :
  (fold_left best_step entries (b, a) = (b, a)
   /\ forall e, e ∈ entries -> average (snd e) <= a)
  \/ exists pre e post,
       entries = pre ++ e :: post
       /\ a < average (snd e)
       /\ fold_left best_step entries (b, a) = (fst e, average (snd e))
       /\ (forall x, x ∈ pre -> average (snd x) < average (snd e))
       /\ (forall x, x ∈ post -> average (snd x) <= average (snd e)).
Proof.
  revert b a. induction entries as [|[i l] entries IH]; intros b a.
  - left. split; [reflexivity|]. by intros e ?%elem_of_nil.
  - cbn [fold_left].
    assert (best_step (b, a) (i, l)
            = if Qltb a (average l) then (i, average l) else (b, a))
      as -> by reflexivity.
    destruct (Qltb a (average l)) eqn:E.
    + apply Qltb_lt in E. right.
      destruct (IH i (average l))
        as [[Heq Hall]|(pre & e & post & -> & Hlt & Heq & Hpre & Hpost)].
      * exists [], (i, l), entries. repeat split; try done.
        by intros x ?%elem_of_nil.
      * exists ((i, l) :: pre), e, post. repeat split; try done.
        -- by eapply Qlt_trans.
        -- intros x [->|Hx]%elem_of_cons; [exact Hlt|by apply Hpre].
    + apply Qltb_ge in E.
      destruct (IH b a)
        as [[Heq Hall]|(pre & e & post & -> & Hlt & Heq & Hpre & Hpost)].
      * left. split; [exact Heq|].
        intros x [->|Hx]%elem_of_cons; [exact E|by apply Hall].
      * right. exists ((i, l) :: pre), e, post. repeat split; try done.
        intros x [->|Hx]%elem_of_cons; [|by apply Hpre].
        by eapply Qle_lt_trans.
Qed.

Lemma collect_votes_flat {E} (search : E -> list candidate) (es : list E)
    (st : list (option string * list Q) * list (option string * candidate)) :
  fold_left (fun st e => fold_left vote_step (search e) st) es st
  = fold_left vote_step (all_matches search es) st.
Proof.
  revert st. induction es as [|e es IH]; intros st; [reflexivity|].
  unfold all_matches in *. cbn [map concat fold_left].
  by rewrite fold_left_app, IH.
Qed.

Lemma entry_of_tally (ms : list candidate) (x : option string * list Q) :
  x ∈ map (fun i => (i, scores_of i ms)) (first_seen ms) ->
  fst x ∈ first_seen ms /\ snd x = scores_of (fst x) ms.
Proof. by intros (i & -> & Hi)%list_elem_of_fmap. Qed.

(** The function in terms of the tally of all the matches. *)
Lemma vote_unfold {E} (search : E -> list candidate) (embeddings : list E) :
  let ms := all_matches search embeddings in
  identify_speaker_by_voting search embeddings
  = let '(best_speaker_id, best_avg_score) :=
      fold_left best_step
                (map (fun i => (i, scores_of i ms)) (first_seen ms)) (None, 0) in
    if id_truthy best_speaker_id then
      match first_match best_speaker_id ms with
      | Some m =>
          if decide (best_speaker_id ∈ first_seen ms) then
            Some {| id_speaker_name := speaker_name m;
                    id_speaker_id := speaker_id m;
                    id_score := best_avg_score;
                    id_audio_source := audio_source m;
                    id_created_at := created_at m;
                    id_num_matches := length (scores_of best_speaker_id ms) |}
          else None
      | None => None
      end
    else None.
Proof.
  intros ms. unfold identify_speaker_by_voting.
  destruct embeddings as [|e es]; [reflexivity|].
  unfold collect_votes. rewrite collect_votes_flat. fold ms.
  pose proof (tallied_fold ms) as Ht.
  destruct (fold_left vote_step ms ([], [])) as [scores info].
  destruct Ht as [Hscores Hinfo]. cbn [fst snd] in Hscores, Hinfo.
  subst scores.
  destruct (map (fun i => (i, scores_of i ms)) (first_seen ms))
    as [|y ys] eqn:Emap; [reflexivity|].
  rewrite <- Emap. clear Emap y ys.
  destruct (fold_left best_step _ (None, 0)) as [b a].
  destruct (id_truthy b); [|reflexivity].
  rewrite Hinfo, assoc_lookup_map.
  destruct (first_match b ms) as [m|]; [|reflexivity].
  by destruct (decide (b ∈ first_seen ms)).
Qed.

Lemma tally_split (ms : list candidate)
    (pre post : list (option string * list Q)) (x : option string * list Q) :
  map (fun i => (i, scores_of i ms)) (first_seen ms) = pre ++ x :: post ->
  first_seen ms = map fst pre ++ fst x :: map fst post
  /\ snd x = scores_of (fst x) ms
  /\ (forall y, y ∈ pre ++ post -> snd y = scores_of (fst y) ms).
Proof.
  intros Hsplit. split; [|split].
  - apply (f_equal (map fst)) in Hsplit.
    rewrite map_map, map_app in Hsplit. cbn in Hsplit.
    by rewrite map_id in Hsplit.
  - apply (entry_of_tally ms x). rewrite Hsplit.
    apply elem_of_app. right. apply list_elem_of_here.
  - intros y Hy. apply (entry_of_tally ms y). rewrite Hsplit.
    apply elem_of_app in Hy as [Hy|Hy]; apply elem_of_app;
      [by left|right; by apply list_elem_of_further].
Qed.

(** What an identification is when the vote returns one. *)
Lemma vote_sound {E} (search : E -> list candidate) (embeddings : list E)
    (r : identification) :
  identify_speaker_by_voting search embeddings = Some r ->
  exists m0,
    wins (id_speaker_id r) (all_matches search embeddings)
    /\ id_score r
       = average (scores_of (id_speaker_id r) (all_matches search embeddings))
    /\ 0 < id_score r
    /\ id_num_matches r
       = length (scores_of (id_speaker_id r) (all_matches search embeddings))
    /\ first_match (id_speaker_id r) (all_matches search embeddings) = Some m0
    /\ m0 ∈ all_matches search embeddings
    /\ speaker_id m0 = id_speaker_id r
    /\ id_speaker_name r = speaker_name m0
    /\ id_truthy (id_speaker_id r) = true.
Proof.
  rewrite vote_unfold. cbv zeta.
  set (ms := all_matches search embeddings).
  destruct (best_fold (map (fun i => (i, scores_of i ms)) (first_seen ms)) None 0)
    as [[-> _]|(pre & x & post & Hsplit & Hpos & -> & Hpre & Hpost)];
    [done|].
  destruct (tally_split ms pre post x Hsplit) as (Hseen & Hx & Hrest).
  destruct x as [i l]. cbn [fst snd] in *. subst l.
  destruct (id_truthy i) eqn:Hid; [|done].
  assert (i ∈ first_seen ms) as Hi.
  { rewrite Hseen. apply elem_of_app. right. apply list_elem_of_here. }
  destruct (first_match_seen i ms Hi) as (m0 & Hm0 & Hm0in & Hm0id).
  rewrite Hm0, decide_True by exact Hi. intros [= <-].
  cbn [id_speaker_id id_score id_num_matches id_speaker_name].
  rewrite Hm0id. exists m0. repeat split; try done.
  exists (map fst pre), (map fst post). split; [exact Hseen|]. split.
  - intros j (y & -> & Hy)%list_elem_of_fmap.
    rewrite <- (Hrest y) by (apply elem_of_app; by left). by apply Hpre.
  - intros j (y & -> & Hy)%list_elem_of_fmap.
    rewrite <- (Hrest y) by (apply elem_of_app; by right). by apply Hpost.
Qed.


Example identify_nothing {E} (search : E -> list candidate) :
  identify_speaker_by_voting search [] = None.
Proof. reflexivity. Qed.


(** A candidate whose payload has no id is not returned either. *)
Example identify_missing_id :
  identify_speaker_by_voting (fun ms => ms)
    [ [mk_candidate "unknown" None 0.9 None None] ] = None.
Proof. vm_compute. reflexivity. Qed.

(** The mean of the floats 0.9, 0.8 and 0.7 is the float
    0.8000000000000002, the second float above 0.8: the sum 0.9 + 0.8 is
    rounded up, and so is its sum with 0.7. *)
Example average_three_votes :
  average [0.9; 0.8; 0.7] = Float64.lit 0.8000000000000002
  /\ Float64.lit 0.8 < average [0.9; 0.8; 0.7]
  /\ sum [0.9; 0.8; 0.7] = Float64.lit 2.4000000000000004.
Proof. by vm_compute. Qed.

(** The float mean of scores can be below all of them. *)
Example average_below_scores :
  average [0.7; 0.7; 0.7] = Float64.lit 0.6999999999999998
  /\ average [0.7; 0.7; 0.7] < Float64.lit 0.7.
Proof. by vm_compute. Qed.





End VotingFacts.

(** ** More facts about [_make_exclusive] and [diarize] *)

Module ExclusiveFacts.
Import Num NumFacts Diarization DiarizationFacts DiarizeOutput.

Lemma pairwise_truncate_last (l : list segment) :
  last (pairwise_truncate l) = last l.
Proof.
  induction l as [|s r IH]; [reflexivity|].
  cbn [pairwise_truncate]. destruct r as [|s' r']; [reflexivity|].
  rewrite last_app, IH. change (last (s :: s' :: r')) with (last (s' :: r')).
  destruct (last (s' :: r')) eqn:E; [reflexivity|].
  by apply last_None in E.
Qed.

Lemma pairwise_truncate_length (l : list segment) :
  (length (pairwise_truncate l) <= length l)%nat.
Proof.
  induction l as [|s r IH]; [reflexivity|].
  cbn [pairwise_truncate]. destruct r as [|s' r']; [reflexivity|].
  rewrite length_app. cbn [length] in *.
  assert (length (truncate_before s s') <= 1)%nat; [|lia].
  unfold truncate_before.
  destruct (Qltb _ _); [destruct (Qle_bool _ _)|]; simpl; lia.
Qed.

Lemma sorted_last_greatest (l : list segment) (s : segment) :
  StronglySorted start_le l -> last l = Some s ->
  forall s', s' ∈ l -> start s' <= start s.
Proof.
  induction 1 as [|x l Hl IH Hx]; [done|].
  intros Hlast s' Hs'. destruct l as [|y l'].
  - injection Hlast as <-. apply list_elem_of_singleton in Hs' as ->.
    apply Qle_refl.
  - change (last (x :: y :: l')) with (last (y :: l')) in Hlast.
    apply elem_of_cons in Hs' as [->|Hs']; [|by apply IH].
    rewrite Forall_forall in Hx. apply Hx.
    by apply last_Some_elem_of.
Qed.

(** X1. [_make_exclusive] returns an empty list only for an empty input;
    on any other input the last segment of its output is an input segment
    as it was, one that no input segment starts after. *)
Theorem make_exclusive_keeps_last (segments : list segment) :
  segments <> [] ->
  exists s,
    last (_make_exclusive segments) = Some s
    /\ s ∈ segments
    /\ forall s', s' ∈ segments -> start s' <= start s.
Proof.
  intros Hne. rewrite make_exclusive_pairwise, pairwise_truncate_last.
  destruct (last (sorted_by_start segments)) as [s|] eqn:E.
  - exists s. split; [reflexivity|].
    pose proof (last_Some_elem_of _ _ E) as Hin.
    split; [by apply elem_of_sorted_by_start|].
    intros s' Hs'. apply (sorted_last_greatest (sorted_by_start segments));
      [apply sorted_by_start_sorted|exact E|by apply elem_of_sorted_by_start].
  - apply last_None in E. destruct segments as [|x l]; [done|].
    assert (x ∈ sorted_by_start (x :: l)) as Hx
      by (apply elem_of_sorted_by_start, list_elem_of_here).
    rewrite E in Hx. by apply elem_of_nil in Hx.
Qed.

Lemma make_exclusive_keeps_last_witness :
  exists s,
    last (_make_exclusive overlapping_pair) = Some s
    /\ s ∈ overlapping_pair
    /\ forall s', s' ∈ overlapping_pair -> start s' <= start s.
Proof. apply make_exclusive_keeps_last. discriminate. Defined.

Lemma make_exclusive_origin (segments : list segment) (e : segment) :
  e ∈ _make_exclusive segments ->
  exists s, s ∈ segments
            /\ speaker e = speaker s
            /\ start e = start s
            /\ end_ e <= end_ s.
Proof.
  rewrite make_exclusive_pairwise. intros He.
  apply pairwise_truncate_kept in He.
  destruct He as [He|(s & s' & Hs & _ & Hov & -> & _)].
  - exists e. split; [by apply elem_of_sorted_by_start|].
    repeat split. apply Qle_refl.
  - exists s. split; [by apply elem_of_sorted_by_start|].
    repeat split. by apply Qlt_le_weak.
Qed.

Lemma make_exclusive_nil (segments : list segment) :
  _make_exclusive segments = [] <-> segments = [].
Proof.
  split; [|by intros ->].
  rewrite make_exclusive_pairwise. intros Hnil.
  destruct segments as [|x l]; [reflexivity|].
  assert (last (pairwise_truncate (sorted_by_start (x :: l))) = None) as Hl
    by (by rewrite Hnil).
  rewrite pairwise_truncate_last in Hl. apply last_None in Hl.
  assert (x ∈ sorted_by_start (x :: l)) as Hx
    by (apply elem_of_sorted_by_start, list_elem_of_here).
  rewrite Hl in Hx. by apply elem_of_nil in Hx.
Qed.

(** X2. [_make_exclusive] adds nothing: its output is no longer than its
    input, and every output segment has the speaker and the start of an
    input segment and ends no later than that segment. *)
Theorem make_exclusive_only_shrinks (segments : list segment) :
  (length (_make_exclusive segments) <= length segments)%nat
  /\ forall e, e ∈ _make_exclusive segments ->
       exists s, s ∈ segments
                 /\ speaker e = speaker s
                 /\ start e = start s
                 /\ end_ e <= end_ s.
Proof.
  split; [|apply make_exclusive_origin].
  rewrite make_exclusive_pairwise.
  etransitivity; [apply pairwise_truncate_length|].
  by rewrite sorted_by_start_perm.
Qed.

Lemma make_exclusive_only_shrinks_witness :
  (length (_make_exclusive overlapping_pair) <= length overlapping_pair)%nat
  /\ forall e, e ∈ _make_exclusive overlapping_pair ->
       exists s, s ∈ overlapping_pair
                 /\ speaker e = speaker s
                 /\ start e = start s
                 /\ end_ e <= end_ s.
Proof. exact (make_exclusive_only_shrinks overlapping_pair). Defined.

(** X3. A list that is already in start order with no overlap is
    returned as it is. *)
Theorem make_exclusive_fixed_point (segments : list segment) :
  starts_ascending segments -> non_overlapping segments ->
  _make_exclusive segments = segments.
Proof.
  intros Hs Hn. rewrite make_exclusive_pairwise.
  rewrite sorted_by_start_id by (by apply lookup_StronglySorted).
  apply pairwise_truncate_id, lookup_StronglySorted.
  intros i j a b Hi Hj Hij. split; [by apply (Hs i j)|by apply (Hn i j)].
Qed.

Lemma make_exclusive_fixed_point_witness :
  _make_exclusive Merger.two_speaker_timeline = Merger.two_speaker_timeline.
Proof.
  apply make_exclusive_fixed_point.
  - intros i j a b Hi Hj Hij.
    destruct i as [|[|[|i]]]; destruct j as [|[|[|j]]];
      simpl in Hi, Hj; try discriminate; try lia;
      injection Hi as <-; injection Hj as <-; by vm_compute.
  - intros i j a b Hi Hj Hij.
    destruct i as [|[|[|i]]]; destruct j as [|[|[|j]]];
      simpl in Hi, Hj; try discriminate; try lia;
      injection Hi as <-; injection Hj as <-; by vm_compute.
Defined.

Lemma distinct_starts_perm (l l' : list segment) :
  l ≡ₚ l' -> distinct_starts l -> distinct_starts l'.
Proof.
  intros Hp [Hnd Hinj]. split; [by rewrite <- Hp|].
  intros a b Ha Hb. rewrite <- Hp in Ha, Hb. by apply Hinj.
Qed.

(** X4. When no two segments start at the same time, the order in which
    the segments are given does not matter. *)
Theorem make_exclusive_order_independent (segments segments' : list segment) :
  distinct_starts segments -> segments ≡ₚ segments' ->
  _make_exclusive segments = _make_exclusive segments'.
Proof.
  intros Hd Hp. rewrite !make_exclusive_pairwise. f_equal.
  apply (StronglySorted_unique_strong start_le).
  - intros a b Ha Hb Hab Hba.
    apply (proj1 (elem_of_sorted_by_start a segments)) in Ha.
    apply (proj1 (elem_of_sorted_by_start b segments')) in Hb.
    rewrite <- Hp in Hb.
    destruct Hd as [_ Hinj]. apply Hinj; [done|done|].
    by apply Qle_antisym.
  - apply sorted_by_start_sorted.
  - apply sorted_by_start_sorted.
  - by rewrite !sorted_by_start_perm.
Qed.

Lemma make_exclusive_order_independent_witness :
  _make_exclusive overlapping_pair = _make_exclusive (reverse overlapping_pair).
Proof.
  apply make_exclusive_order_independent.
  - split.
    + apply NoDup_cons. split; [|apply NoDup_singleton].
      intros Hin%list_elem_of_singleton. discriminate Hin.
    + intros a b Ha Hb.
      repeat (apply elem_of_cons in Ha as [->|Ha]);
        repeat (apply elem_of_cons in Hb as [->|Hb]);
        try (by apply elem_of_nil in Ha); try (by apply elem_of_nil in Hb);
        try reflexivity; intros H; vm_compute in H; discriminate H.
  - by rewrite reverse_Permutation.
Defined.

Lemma pairwise_truncate_later_wins (l : list segment) (e s' : segment) :
  StronglySorted start_le l ->
  e ∈ pairwise_truncate l -> s' ∈ l -> start e < start s' ->
  end_ e <= start s'.
Proof.
  induction 1 as [|s r Hr IH Hs]; [by intros ?%elem_of_nil|].
  cbn [pairwise_truncate]. destruct r as [|s'' r'].
  - intros ->%list_elem_of_singleton ->%list_elem_of_singleton Hlt.
    destruct (Qlt_irrefl _ Hlt).
  - intros [He|He]%elem_of_app Hs' Hlt.
    + assert (start e = start s /\ end_ e <= start s'') as [Hst Hen].
      { apply elem_of_truncate_before in He as [[-> H]|[-> _]]; split;
          try reflexivity; [exact H|apply Qle_refl]. }
      apply elem_of_cons in Hs' as [->|Hs'].
      * rewrite Hst in Hlt. destruct (Qlt_irrefl _ Hlt).
      * eapply Qle_trans; [exact Hen|].
        apply elem_of_cons in Hs' as [->|Hs']; [apply Qle_refl|].
        inversion Hr as [|? ? _ Hall]. rewrite Forall_forall in Hall.
        by apply Hall.
    + apply elem_of_cons in Hs' as [->|Hs']; [|by apply IH].
      exfalso. apply (Qlt_not_le _ _ Hlt).
      pose proof (pairwise_truncate_start s (s'' :: r') Hs) as Hall.
      rewrite Forall_forall in Hall. by apply Hall.
Qed.

(** X5. The segment that starts later wins the contested time: every
    output segment ends no later than the start of any input segment
    that starts after it, whatever the durations of the two. *)
Theorem make_exclusive_later_wins (segments : list segment) (e s' : segment) :
  e ∈ _make_exclusive segments -> s' ∈ segments -> start e < start s' ->
  end_ e <= start s'.
Proof.
  rewrite make_exclusive_pairwise. intros He Hs' Hlt.
  apply (pairwise_truncate_later_wins (sorted_by_start segments));
    [apply sorted_by_start_sorted|exact He| |exact Hlt].
  by apply elem_of_sorted_by_start.
Qed.

Lemma make_exclusive_later_wins_witness :
  end_ (mk_segment "A" 0 3 3) <= start (mk_segment "B" 3 8 5).
Proof.
  apply (make_exclusive_later_wins overlapping_pair).
  - vm_compute. apply list_elem_of_here.
  - apply list_elem_of_further, list_elem_of_here.
  - by vm_compute.
Defined.

(** The second speaker starts with the first and covers it: the first
    leaves the exclusive segments and is still counted. *)
Example diarize_covered_tracks :
  diarize covered_tracks 5 true
  = {| do_segments := [ mk_segment "SPEAKER_01" 0 5 5 ];
       do_num_speakers := 2;
       do_audio_duration := 5;
       do_exclusive := true |}.
Proof. vm_compute. reflexivity. Qed.

(** X6. [diarize] counts the speakers of all tracks, in either mode: the
    labels of the segments it returns are labels of the tracks, so they
    are never more than [num_speakers], and they can be fewer in
    exclusive mode; without exclusive mode there is one segment per track;
    and the segments are empty only when there is no track. *)
Theorem diarize_counts_all_speakers (tracks : list track)
    (audio_duration : Q) (exclusive : bool) :
  let out := diarize tracks audio_duration exclusive in
  labels (do_segments out) ⊆ list_to_set (map tr_speaker tracks)
  /\ (size (labels (do_segments out)) <= do_num_speakers out)%nat
  /\ (exclusive = false ->
      length (do_segments out) = length tracks
      /\ size (labels (do_segments out)) = do_num_speakers out)
  /\ (do_segments out = [] <-> tracks = []).
Proof.
  intros out.
  assert (labels (map track_segment tracks)
          = list_to_set (map tr_speaker tracks)) as Hmap.
  { unfold labels. by rewrite map_map. }
  assert (labels (do_segments out) ⊆ list_to_set (map tr_speaker tracks))
    as Hsub.
  { rewrite <- Hmap. unfold out, diarize. cbn [do_segments].
    destruct exclusive; [|done].
    intros l. unfold labels. rewrite !elem_of_list_to_set.
    intros (e & -> & He)%list_elem_of_fmap.
    destruct (make_exclusive_origin _ _ He) as (s0 & Hs0 & -> & _).
    by apply list_elem_of_fmap_2. }
  split; [exact Hsub|]. split; [by apply subseteq_size|]. split.
  - intros ->. unfold out, diarize. cbn [do_segments do_num_speakers].
    by rewrite length_map, Hmap.
  - unfold out, diarize. cbn [do_segments]. destruct exclusive.
    + rewrite make_exclusive_nil. split; [apply fmap_nil_inv|by intros ->].
    + split; [apply fmap_nil_inv|by intros ->].
Qed.

Lemma diarize_counts_all_speakers_witness :
  let out := diarize covered_tracks 5 true in
  labels (do_segments out) ⊆ list_to_set (map tr_speaker covered_tracks)
  /\ (size (labels (do_segments out)) <= do_num_speakers out)%nat
  /\ (true = false ->
      length (do_segments out) = length covered_tracks
      /\ size (labels (do_segments out)) = do_num_speakers out)
  /\ (do_segments out = [] <-> covered_tracks = []).
Proof. exact (diarize_counts_all_speakers covered_tracks 5 true). Defined.

End ExclusiveFacts.

(** ** More facts about the alignment and the grouping *)

Module AlignmentFacts.
Import Num NumFacts Diarization Merger FindSpeakerFacts TurnFacts.

Lemma first_containing_Some (t : Q) (l : list segment) (seg : segment) :
  first_containing t l = Some seg -> seg ∈ l /\ contains seg t = true.
Proof.
  induction l as [|x l IH]; [done|]. simpl.
  destruct (contains x t) eqn:E.
  - intros [= <-]. split; [apply list_elem_of_here|exact E].
  - intros H. destruct (IH H) as [Hin Hc].
    split; [by apply list_elem_of_further|exact Hc].
Qed.

Lemma first_containing_None_inv (t : Q) (l : list segment) :
  first_containing t l = None ->
  forall seg, seg ∈ l -> contains seg t = false.
Proof.
  induction l as [|x l IH]; [by intros _ seg ?%elem_of_nil|]. simpl.
  destruct (contains x t) eqn:E; [done|].
  intros H seg [->|Hin]%elem_of_cons; [exact E|by apply IH].
Qed.

Lemma distance_contained (t : Q) (seg : segment) :
  contains seg t = true -> distance t seg = 0.
Proof.
  intros [Hs He]%contains_iff. unfold distance.
  apply Qltb_ge in Hs, He. by rewrite Hs, He.
Qed.

(** The answer of [_find_speaker_at_time] on any list of segments. *)
Lemma find_speaker_cases (t : Q) (timeline : list segment) :
  match _find_speaker_at_time t timeline with
  | Some s =>
      exists seg, seg ∈ timeline /\ speaker seg = s
                  /\ distance t seg < tolerance
  | None => forall seg, seg ∈ timeline -> tolerance <= distance t seg
  end.
Proof.
  destruct (first_containing t timeline) as [seg|] eqn:E.
  - unfold _find_speaker_at_time. rewrite E.
    apply first_containing_Some in E as [Hin Hc].
    exists seg. split; [exact Hin|]. split; [reflexivity|].
    by rewrite distance_contained.
  - pose proof (first_containing_None_inv _ _ E) as Hout.
    destruct timeline as [|x l].
    + by intros seg ?%elem_of_nil.
    + destruct (first_nearest_exists t (x :: l)) as (k & seg & Hseg); [done|].
      rewrite (find_speaker_outside t (x :: l) k seg Hout Hseg).
      destruct Hseg as (Hk & Hmin & _).
      destruct (Qltb (distance t seg) tolerance) eqn:Hd.
      * exists seg. split; [by eapply list_elem_of_lookup_2|].
        split; [reflexivity|by apply Qltb_lt].
      * intros s' [j Hj]%list_elem_of_lookup_1.
        eapply Qle_trans; [by apply Qltb_ge|]. by apply (Hmin j).
Qed.

(** X7. On any list of segments, overlapping or not,
    [_find_speaker_at_time] answers with the label of one of the segments,
    one whose distance from the timestamp, as the code computes it in
    floating point, is below 0.5, and answers nothing exactly when the
    distance so computed is 0.5 or more for every segment. *)
Theorem find_speaker_within_tolerance (t : Q) (timeline : list segment) :
  (forall s, _find_speaker_at_time t timeline = Some s ->
     exists seg, seg ∈ timeline /\ speaker seg = s
                 /\ distance t seg < tolerance)
  /\ (_find_speaker_at_time t timeline = None
      <-> forall seg, seg ∈ timeline -> tolerance <= distance t seg).
Proof.
  pose proof (find_speaker_cases t timeline) as H.
  destruct (_find_speaker_at_time t timeline) as [s|].
  - split; [by intros ? [= <-]|]. split; [done|].
    intros Hall. destruct H as (seg & Hin & _ & Hlt).
    destruct (Qlt_not_le _ _ Hlt (Hall seg Hin)).
  - split; [done|]. by split.
Qed.

Lemma find_speaker_within_tolerance_witness :
  exists seg, seg ∈ two_speaker_timeline /\ speaker seg = "B"
              /\ distance (41 # 5) seg < tolerance.
Proof.
  apply (proj1 (find_speaker_within_tolerance (41 # 5) two_speaker_timeline)).
  by vm_compute.
Defined.

Lemma str_or_nonempty (x : option string) (d : string) :
  d <> "" -> str_or x d <> "" /\ (str_or x d = d \/ x = Some (str_or x d)).
Proof.
  intros Hd. destruct x as [[|c s]|]; simpl; split; auto; try done.
Qed.

(** X8. [_assign_words_to_speakers] returns the words in their order with
    their text and their times unchanged, each with a speaker that is
    never empty: SPEAKER_UNKNOWN, or the label of a segment whose distance
    from the midpoint of the word is below 0.5, the midpoint and the
    distance being the floats that the code computes. *)
Theorem assign_words_labels (words : list word) (diar_segments : list segment) :
  Forall2
    (fun w w' =>
       w_word w' = w_word w /\ w_start w' = w_start w /\ w_end w' = w_end w
       /\ exists s,
            w_speaker w' = Some s /\ s <> ""
            /\ (s = "SPEAKER_UNKNOWN"
                \/ exists seg, seg ∈ diar_segments /\ speaker seg = s
                               /\ distance (word_mid w) seg < tolerance))
    words (_assign_words_to_speakers words diar_segments).
Proof.
  unfold _assign_words_to_speakers.
  induction words as [|w ws IH]; [constructor|].
  cbn [map]. constructor; [|exact IH].
  repeat split. cbn [assign_word w_speaker].
  eexists. split; [reflexivity|].
  destruct (str_or_nonempty (_find_speaker_at_time (word_mid w) diar_segments)
              "SPEAKER_UNKNOWN") as [Hne [Hd|Hs]]; [done| |].
  - split; [exact Hne|]. by left.
  - split; [exact Hne|]. right.
    pose proof (find_speaker_cases (word_mid w) diar_segments) as Hc.
    rewrite Hs in Hc. exact Hc.
Qed.

Lemma filter_text_nil (ws : list word) :
  filter (fun w => word_text w <> "") ws = []
  <-> forall w, w ∈ ws -> word_text w = "".
Proof.
  induction ws as [|w ws IH]; [split; [by intros _ ? ?%elem_of_nil|done]|].
  rewrite filter_cons. destruct (decide (word_text w <> "")) as [Hw|Hw].
  - split; [done|]. intros H. destruct Hw. apply H, list_elem_of_here.
  - rewrite IH. split.
    + intros H w' [->|Hin]%elem_of_cons; [|by apply H].
      by destruct (decide (word_text w = "")).
    + intros H w' Hin. by apply H, list_elem_of_further.
Qed.

Lemma turn_has_word (t : open_turn) :
  turn_of_words t -> (1 <= length (ot_words t))%nat.
Proof.
  unfold turn_of_words. destruct (ot_words t); [done|]. simpl. lia.
Qed.

Lemma turns_at_most_words (ts : list open_turn) :
  Forall turn_of_words ts ->
  (length ts <= length (concat (map ot_words ts)))%nat.
Proof.
  induction 1 as [|t ts Ht _ IH]; [reflexivity|].
  cbn [map concat length]. rewrite length_app.
  pose proof (turn_has_word t Ht). lia.
Qed.

(** X9. [_group_words_into_turns] returns no turn exactly when no word
    has text after trimming, and never more turns than there are words
    with text. *)
Theorem group_words_count (words : list word) :
  (_group_words_into_turns words = []
   <-> forall w, w ∈ words -> word_text w = "")
  /\ (length (_group_words_into_turns words)
      <= length (filter (fun w => word_text w <> "") words))%nat.
Proof.
  rewrite group_words_into_turns_eq, length_map.
  destruct (open_turns_grouped words) as (Hcat & Hall & _).
  pose proof (turns_at_most_words _ Hall) as Hlen. rewrite Hcat in Hlen.
  split; [|exact Hlen].
  rewrite <- filter_text_nil. split.
  - intros Hnil%fmap_nil_inv. by rewrite <- Hcat, Hnil.
  - intros Hnil. rewrite Hnil in Hlen.
    destruct (open_turns words); [reflexivity|simpl in Hlen; lia].
Qed.

Lemma group_words_count_witness :
  (_group_words_into_turns greeting_words = []
   <-> forall w, w ∈ greeting_words -> word_text w = "")
  /\ (length (_group_words_into_turns greeting_words)
      <= length (filter (fun w => word_text w <> "") greeting_words))%nat.
Proof. exact (group_words_count greeting_words). Defined.

Lemma no_adjacent_dup_constant (sp : string) (l : list string) :
  no_adjacent_dup l -> Forall (fun x => x = sp) l -> (length l <= 1)%nat.
Proof.
  destruct l as [|a [|b l]]; simpl; try lia.
  intros [Hab _] Hall. inversion Hall as [|? ? -> Hall']. inversion Hall' as [|? ? -> _].
  done.
Qed.

(** X10. When all the words that have text have the same speaker, and
    there is at least one, they make exactly one turn: it has that
    speaker, and its text is the trimmed texts of those words joined by
    single spaces. *)
Theorem group_words_one_speaker (words : list word) (sp : string) :
  (forall w, w ∈ words -> word_text w <> "" -> word_speaker w = sp) ->
  (exists w, w ∈ words /\ word_text w <> "") ->
  exists t,
    _group_words_into_turns words = [t]
    /\ t_speaker t = sp
    /\ t_text t
       = String.concat " "
           (map word_text (filter (fun w => word_text w <> "") words)).
Proof.
  intros Hsp (w0 & Hw0 & Htext0).
  rewrite group_words_into_turns_eq.
  destruct (open_turns_grouped words) as (Hcat & Hall & Hadj).
  assert (Forall (fun t => ot_speaker t = sp) (open_turns words)) as Hsame.
  { apply Forall_forall. intros t Ht.
    pose proof (proj1 (Forall_forall _ _) Hall t Ht) as Htw.
    unfold turn_of_words in Htw.
    destruct (ot_words t) as [|w ws] eqn:Ew; [done|].
    destruct Htw as (Hws & _). inversion Hws as [|? ? [Hne Hspw] _].
    rewrite <- Hspw. apply Hsp; [|exact Hne].
    assert (w ∈ concat (map ot_words (open_turns words))) as Hin.
    { apply list_elem_of_In, in_concat. exists (ot_words t).
      split; apply list_elem_of_In.
      - by apply list_elem_of_fmap_2.
      - rewrite Ew. apply list_elem_of_here. }
    rewrite Hcat in Hin. by apply list_elem_of_filter in Hin as [_ Hin]. }
  assert (length (open_turns words) <= 1)%nat as Hlen.
  { rewrite <- (length_map ot_speaker).
    apply (no_adjacent_dup_constant sp); [exact Hadj|].
    by apply Forall_map. }
  destruct (open_turns words) as [|t [|t' ts]] eqn:Eo;
    [|clear Hlen|simpl in Hlen; lia].
  - exfalso. simpl in Hcat. symmetry in Hcat.
    apply filter_text_nil with (w := w0) in Hcat; done.
  - exists (close_turn t). split; [reflexivity|].
    inversion Hsame as [|? ? Ht _]. split; [exact Ht|].
    simpl in Hcat. rewrite app_nil_r in Hcat.
    inversion Hall as [|? ? Htw _]. unfold turn_of_words in Htw.
    rewrite Hcat in Htw. cbn [close_turn t_text].
    destruct (filter (fun w => word_text w <> "") words); [done|].
    by destruct Htw as (_ & _ & _ & ->).
Qed.

Lemma group_words_one_speaker_witness :
  exists t,
    _group_words_into_turns [ mk_word (Some "hi") (Some 0) (Some 1) (Some "A");
                              mk_word (Some " ") None None (Some "B");
                              mk_word (Some "you") (Some 1) (Some 2) (Some "A") ]
    = [t]
    /\ t_speaker t = "A"
    /\ t_text t
       = String.concat " "
           (map word_text
              (filter (fun w => word_text w <> "")
                 [ mk_word (Some "hi") (Some 0) (Some 1) (Some "A");
                   mk_word (Some " ") None None (Some "B");
                   mk_word (Some "you") (Some 1) (Some 2) (Some "A") ])).
Proof.
  apply group_words_one_speaker.
  - intros w Hw Ht.
    repeat (apply elem_of_cons in Hw as [->|Hw]; [by vm_compute in Ht |- *|]).
    by apply elem_of_nil in Hw.
  - exists (mk_word (Some "hi") (Some 0) (Some 1) (Some "A")).
    split; [apply list_elem_of_here|by vm_compute].
Defined.

End AlignmentFacts.

(** ** More facts about the merge *)

Module MergePathFacts.
Import Num NumFacts Diarization Merger FindSpeakerFacts TurnFacts MergeFacts.
Import AlignmentFacts WhisperClient MergeViews.

Lemma merge_cases (whisper : whisper_result) (diarization : diarization_result)
    (sm : option (gmap string (option string))) (sc : option (gmap string (option Q))) :
  (extract_words whisper = []
   /\ merge_transcription_with_diarization whisper diarization sm sc
      = _merge_segment_level whisper diarization sm sc)
  \/ (extract_words whisper <> []
      /\ default [] (dr_segments diarization) = []
      /\ merge_transcription_with_diarization whisper diarization sm sc
         = {| m_text := default "" (wr_text whisper);
              m_segments := [single_speaker_turn whisper sm sc];
              m_words := Some (extract_words whisper);
              m_num_speakers := 1;
              m_duration := default 0 (wr_duration whisper);
              m_language := None |})
  \/ (extract_words whisper <> []
      /\ default [] (dr_segments diarization) <> []
      /\ merge_transcription_with_diarization whisper diarization sm sc
         = let speaker_turns :=
             map (apply_mapping sm sc)
                 (map close_turn
                    (open_turns (_assign_words_to_speakers
                                   (extract_words whisper)
                                   (default [] (dr_segments diarization))))) in
           {| m_text :=
                match default "" (wr_text whisper) with
                | EmptyString => join_words (extract_words whisper)
                | text => text
                end;
              m_segments := speaker_turns;
              m_words := None;
              m_num_speakers :=
                default (length (remove_dups (map t_speaker speaker_turns)))
                        (dr_num_speakers diarization);
              m_duration :=
                default (default 0 (dr_audio_duration diarization))
                        (wr_duration whisper);
              m_language := Some (wr_language whisper) |}).
Proof.
  unfold merge_transcription_with_diarization.
  destruct (extract_words whisper) as [|w ws]; [by left|]. right.
  destruct (default [] (dr_segments diarization)) as [|d ds]; [by left|].
  right. split; [done|]. split; [done|]. cbv zeta.
  by rewrite group_words_into_turns_eq.
Qed.

(** X11. What the transcription reports comes first: a full text that is
    not empty is the full text of the result, and a duration is the
    duration of the result, on every path of the merge. *)
Theorem merge_reported_values (whisper : whisper_result)
    (diarization : diarization_result)
    (sm : option (gmap string (option string)))
    (sc : option (gmap string (option Q))) :
  (forall text, wr_text whisper = Some text -> text <> "" ->
     m_text (merge_transcription_with_diarization whisper diarization sm sc)
     = text)
  /\ (forall d, wr_duration whisper = Some d ->
        m_duration (merge_transcription_with_diarization
                      whisper diarization sm sc) = d).
Proof.
  destruct (merge_cases whisper diarization sm sc)
    as [[_ ->]|[(_ & _ & ->)|(_ & _ & ->)]]; cbn; split.
  - by intros text ->.
  - by intros d ->.
  - by intros text ->.
  - by intros d ->.
  - intros text -> Hne. by destruct text.
  - by intros d ->.
Qed.

Lemma merge_reported_values_witness :
  m_text (merge_transcription_with_diarization
            backwards_transcript one_speaker None None) = "hi there".
Proof.
  apply (proj1 (merge_reported_values backwards_transcript one_speaker
                  None None)); [reflexivity|discriminate].
Defined.

Lemma unannotated_apply_mapping (sm : option (gmap string (option string)))
    (sc : option (gmap string (option Q))) (t : open_turn) :
  unannotated (apply_mapping sm sc (close_turn t)) = close_turn t.
Proof. unfold apply_mapping. by destruct (dict_truthy sm). Qed.

Lemma t_speaker_apply_mapping (sm : option (gmap string (option string)))
    (sc : option (gmap string (option Q))) (t : turn) :
  t_speaker (apply_mapping sm sc t) = t_speaker t.
Proof. unfold apply_mapping. by destruct (dict_truthy sm). Qed.

(** X12. The identification only annotates: apart from the name and the
    confidence of its turns, the merge result is the same with any
    mapping and any confidences as with none, so the turns, their labels,
    times and texts, the full text and the speaker count do not depend on
    them. *)
Theorem merge_annotation_only (whisper : whisper_result)
    (diarization : diarization_result)
    (sm : option (gmap string (option string)))
    (sc : option (gmap string (option Q))) :
  unannotated_result
    (merge_transcription_with_diarization whisper diarization sm sc)
  = unannotated_result
      (merge_transcription_with_diarization whisper diarization None None).
Proof.
  destruct (merge_cases whisper diarization sm sc)
    as [[Hw ->]|[(Hw & Hd & ->)|(Hw & Hd & ->)]];
  destruct (merge_cases whisper diarization None None)
    as [[H1 ->]|[(H1 & H2 & ->)|(H1 & H2 & ->)]]; try done.
  - unfold unannotated_result, _merge_segment_level. cbn. f_equal.
    rewrite !map_map. by apply map_ext.
  - unfold unannotated_result. cbn. f_equal.
    + rewrite !map_map. apply map_ext. intros t.
      by rewrite !unannotated_apply_mapping.
    + do 3 f_equal. rewrite !map_map. apply map_ext. intros t.
      by rewrite !t_speaker_apply_mapping.
Qed.

Lemma open_turn_speaker_word (ws : list word) (t : open_turn) :
  t ∈ open_turns ws ->
  exists w, w ∈ ws /\ word_text w <> "" /\ word_speaker w = ot_speaker t.
Proof.
  intros Ht. destruct (open_turns_grouped ws) as (Hcat & Hall & _).
  pose proof (proj1 (Forall_forall _ _) Hall t Ht) as Htw.
  unfold turn_of_words in Htw.
  destruct (ot_words t) as [|w l] eqn:Ew; [done|].
  destruct Htw as (Hws & _). inversion Hws as [|? ? [Hne Hsp] _].
  exists w. split; [|by split].
  assert (w ∈ concat (map ot_words (open_turns ws))) as Hin.
  { apply list_elem_of_In, in_concat. exists (ot_words t).
    split; apply list_elem_of_In.
    - by apply list_elem_of_fmap_2.
    - rewrite Ew. apply list_elem_of_here. }
  rewrite Hcat in Hin. by apply list_elem_of_filter in Hin as [_ Hin].
Qed.

Lemma found_label (t : Q) (diar_segments : list segment) :
  let s := str_or (_find_speaker_at_time t diar_segments) "SPEAKER_UNKNOWN" in
  s <> ""
  /\ (s = "SPEAKER_UNKNOWN"
      \/ exists seg, seg ∈ diar_segments /\ speaker seg = s).
Proof.
  intros s.
  destruct (str_or_nonempty (_find_speaker_at_time t diar_segments)
              "SPEAKER_UNKNOWN") as [Hne [Hd|Hs]]; [done| |].
  - split; [exact Hne|]. by left.
  - split; [exact Hne|]. right.
    pose proof (find_speaker_cases t diar_segments) as Hc.
    rewrite Hs in Hc. destruct Hc as (seg & Hin & Hsp & _). by exists seg.
Qed.

(** X13. The label of every turn of every merge result is a non-empty
    string: the label of a diarization segment, SPEAKER_UNKNOWN, or, only
    when the diarization has no segment, SPEAKER_00. *)
Theorem merge_turn_labels (whisper : whisper_result)
    (diarization : diarization_result)
    (sm : option (gmap string (option string)))
    (sc : option (gmap string (option Q))) (t : turn) :
  t ∈ m_segments (merge_transcription_with_diarization
                    whisper diarization sm sc) ->
  t_speaker t <> ""
  /\ (t_speaker t = "SPEAKER_UNKNOWN"
      \/ (exists seg, seg ∈ default [] (dr_segments diarization)
                      /\ speaker seg = t_speaker t)
      \/ (t_speaker t = "SPEAKER_00"
          /\ default [] (dr_segments diarization) = [])).
Proof.
  destruct (merge_cases whisper diarization sm sc)
    as [[_ ->]|[(_ & Hd & ->)|(_ & _ & ->)]]; cbn [m_segments _merge_segment_level].
  - intros (wseg & -> & _)%list_elem_of_fmap. cbn [merge_segment t_speaker].
    destruct (found_label
                (Float64.div
                   (Float64.add (default 0 (ws_start wseg))
                                (default 0 (ws_end wseg))) 2)
                (default [] (dr_segments diarization))) as [Hne [Hu|Hs]].
    + split; [exact Hne|]. by left.
    + split; [exact Hne|]. right. by left.
  - intros ->%list_elem_of_singleton. split; [done|]. right. right. by split.
  - cbv zeta. rewrite <- list_fmap_compose.
    intros (ot & -> & Hot)%list_elem_of_fmap. cbn [compose].
    rewrite t_speaker_apply_mapping. cbn [close_turn t_speaker].
    destruct (open_turn_speaker_word _ _ Hot) as (w' & Hw' & _ & <-).
    apply list_elem_of_fmap in Hw' as (w & -> & _).
    cbn [assign_word word_speaker w_speaker default].
    destruct (found_label (word_mid w) (default [] (dr_segments diarization)))
      as [Hne [Hu|Hs]].
    + split; [exact Hne|]. by left.
    + split; [exact Hne|]. right. by left.
Qed.

Lemma merge_turn_labels_witness :
  t_speaker (mk_turn "SPEAKER_00" None None 0 1 (Some 1) "hi there") <> ""
  /\ (t_speaker (mk_turn "SPEAKER_00" None None 0 1 (Some 1) "hi there")
      = "SPEAKER_UNKNOWN"
      \/ (exists seg, seg ∈ default [] (dr_segments one_speaker)
                      /\ speaker seg
                         = t_speaker (mk_turn "SPEAKER_00" None None 0 1
                                              (Some 1) "hi there"))
      \/ (t_speaker (mk_turn "SPEAKER_00" None None 0 1 (Some 1) "hi there")
          = "SPEAKER_00"
          /\ default [] (dr_segments one_speaker) = [])).
Proof.
  apply (merge_turn_labels backwards_transcript one_speaker None None).
  vm_compute. apply list_elem_of_here.
Defined.

Lemma extract_words_transcribe_with_words (result : whisper_result) :
  extract_words (transcribe_with_words result) = extract_words result.
Proof.
  destruct result as [text [words|] [segs|] dur lang]; try reflexivity.
  unfold transcribe_with_words, extract_words. cbn.
  by destruct (fold_left _ segs []) eqn:E; cbn; rewrite ?E.
Qed.

(** X14. The words that [transcribe_with_words] gathers from the segments
    of a response are the words the merge would have taken from them: the
    merge of its result is the merge of the response of [transcribe]. *)
Theorem merge_after_transcribe_with_words (result : whisper_result)
    (diarization : diarization_result)
    (sm : option (gmap string (option string)))
    (sc : option (gmap string (option Q))) :
  merge_transcription_with_diarization
    (transcribe_with_words result) diarization sm sc
  = merge_transcription_with_diarization result diarization sm sc.
Proof.
  unfold merge_transcription_with_diarization.
  rewrite extract_words_transcribe_with_words.
  by destruct result as [text [words|] [segs|] dur lang].
Qed.

Example transcribe_with_words_nested :
  wr_words (transcribe_with_words nested_words_response)
  = Some [ mk_word (Some "hi") (Some 0) (Some 1) None;
           mk_word (Some "there") (Some 1) (Some 2) None ].
Proof. reflexivity. Qed.

Lemma StronglySorted_filter {A} (R : A -> A -> Prop) (P : A -> Prop)
    `{forall x, Decision (P x)} (l : list A) :
  StronglySorted R l -> StronglySorted R (filter P l).
Proof.
  induction 1 as [|x l Hl IH Hx]; [constructor|].
  rewrite filter_cons. destruct (decide (P x)); [|exact IH].
  constructor; [exact IH|]. apply Forall_forall.
  intros y [_ Hy]%list_elem_of_filter.
  rewrite Forall_forall in Hx. by apply Hx.
Qed.

Lemma open_turns_in_order (ts : list open_turn) :
  Forall turn_of_words ts ->
  words_in_order (concat (map ot_words ts)) ->
  StronglySorted (fun a b => ot_start a <= ot_start b) ts.
Proof.
  unfold words_in_order.
  induction 1 as [|t ts Ht Hts IH]; [constructor|].
  cbn [map concat]. intros (Hcross & _ & Hrest)%StronglySorted_app.
  constructor; [by apply IH|]. apply Forall_forall. intros t' Ht'.
  unfold turn_of_words in Ht.
  destruct (ot_words t) as [|w l] eqn:Ew; [done|].
  destruct Ht as (_ & -> & _).
  pose proof (proj1 (Forall_forall _ _) Hts t' Ht') as Htw.
  unfold turn_of_words in Htw.
  destruct (ot_words t') as [|w' l'] eqn:Ew'; [done|].
  destruct Htw as (_ & -> & _).
  apply Hcross; [apply list_elem_of_here|].
  apply list_elem_of_In, in_concat. exists (ot_words t').
  split; apply list_elem_of_In.
  - by apply list_elem_of_fmap_2.
  - rewrite Ew'. apply list_elem_of_here.
Qed.

(** X15. Words in ascending order of start give turns in ascending order
    of start. *)
Theorem group_words_in_order (words : list word) :
  words_in_order words -> turns_in_order (_group_words_into_turns words).
Proof.
  intros Hws. rewrite group_words_into_turns_eq.
  destruct (open_turns_grouped words) as (Hcat & Hall & _).
  apply (StronglySorted_fmap close_turn
           (fun a b => ot_start a <= ot_start b)); [done|].
  apply open_turns_in_order; [exact Hall|].
  rewrite Hcat. by apply StronglySorted_filter.
Qed.

Lemma group_words_in_order_witness :
  turns_in_order (_group_words_into_turns greeting_words).
Proof.
  apply group_words_in_order.
  repeat (constructor; [|repeat (constructor; [by vm_compute|]); constructor]).
  constructor.
Defined.

End MergePathFacts.

(** ** Facts about [extract_embeddings_for_segments] *)

Module EmbeddingFacts.
Import Num NumFacts Diarization Embedding.

Section Extraction.
Context {embedding : Type} (extract : Q -> Q -> option embedding).

Lemma extract_step_cases (m : Q) (acc : list (segment * embedding))
    (seg : segment) :
  (extract_step extract m acc seg = acc
   /\ (~ long_enough m seg \/ extract (start seg) (end_ seg) = None))
  \/ exists e,
       extract_step extract m acc seg = acc ++ [(seg, e)]
       /\ long_enough m seg
       /\ extract (start seg) (end_ seg) = Some e.
Proof.
  unfold extract_step, long_enough. cbv zeta.
  destruct (Qltb (Float64.sub (end_ seg) (start seg)) m) eqn:E.
  - left. split; [reflexivity|]. left. apply Qltb_lt in E.
    intros H. exact (Qlt_not_le _ _ E H).
  - apply Qltb_ge in E.
    destruct (extract (start seg) (end_ seg)) as [e|]; [|left; by auto].
    right. by exists e.
Qed.

Lemma extract_sublist (m : Q) (l pre : list segment)
    (acc : list (segment * embedding)) :
  map fst acc `sublist_of` pre ->
  map fst (fold_left (extract_step extract m) l acc) `sublist_of` pre ++ l.
Proof.
  revert pre acc. induction l as [|seg l IH]; intros pre acc Hacc.
  - by rewrite app_nil_r.
  - cbn [fold_left]. replace (pre ++ seg :: l) with ((pre ++ [seg]) ++ l)
      by (by rewrite <- app_assoc).
    apply IH.
    destruct (extract_step_cases m acc seg) as [[-> _]|(e & -> & _)].
    + by apply sublist_inserts_r.
    + rewrite map_app. by apply sublist_app.
Qed.

Lemma extract_long_enough (m : Q) (l : list segment)
    (acc : list (segment * embedding)) :
  Forall (fun r => long_enough m (fst r)
                   /\ extract (start (fst r)) (end_ (fst r)) = Some (snd r))
         acc ->
  Forall (fun r => long_enough m (fst r)
                   /\ extract (start (fst r)) (end_ (fst r)) = Some (snd r))
         (fold_left (extract_step extract m) l acc).
Proof.
  revert acc. induction l as [|seg l IH]; intros acc Hacc; [exact Hacc|].
  cbn [fold_left]. apply IH.
  destruct (extract_step_cases m acc seg) as [[-> _]|(e & -> & Hl & He)];
    [exact Hacc|].
  apply Forall_app. split; [exact Hacc|]. by repeat constructor.
Qed.

Lemma extract_all (m : Q) (l : list segment)
    (acc : list (segment * embedding)) :
  (forall seg, seg ∈ l -> long_enough m seg ->
     is_Some (extract (start seg) (end_ seg))) ->
  map fst (fold_left (extract_step extract m) l acc)
  = map fst acc ++ filter (long_enough m) l.
Proof.
  revert acc. induction l as [|seg l IH]; intros acc Hok.
  - by rewrite app_nil_r.
  - cbn [fold_left]. rewrite IH
      by (intros s Hs; apply Hok; by apply list_elem_of_further).
    rewrite filter_cons.
    destruct (extract_step_cases m acc seg)
      as [[-> [Hshort|Hnone]]|(e & -> & Hl & He)].
    + by rewrite decide_False.
    + destruct (decide (long_enough m seg)) as [Hl|Hs]; [|reflexivity].
      destruct (Hok seg (list_elem_of_here _ _) Hl) as [e He]. congruence.
    + rewrite decide_True by exact Hl. rewrite map_app. cbn [map fst].
      by rewrite <- app_assoc.
Qed.

Lemma extract_monotone (m m' : Q) (l : list segment)
    (acc acc' : list (segment * embedding)) :
  m <= m' ->
  map fst acc' `sublist_of` map fst acc ->
  map fst (fold_left (extract_step extract m') l acc')
  `sublist_of` map fst (fold_left (extract_step extract m) l acc).
Proof.
  intros Hm. revert acc acc'. induction l as [|seg l IH]; intros acc acc' Hacc;
    [exact Hacc|].
  cbn [fold_left]. apply IH.
  destruct (extract_step_cases m' acc' seg) as [[-> _]|(e' & -> & Hl' & He')];
    destruct (extract_step_cases m acc seg)
      as [[-> [Hshort|Hnone]]|(e & -> & Hl & He)].
  - exact Hacc.
  - exact Hacc.
  - rewrite map_app. by apply sublist_inserts_r.
  - destruct Hshort. unfold long_enough in *. by eapply Qle_trans.
  - congruence.
  - rewrite !map_app. by apply sublist_app.
Qed.

(** X16. [extract_embeddings_for_segments] returns segments of the input
    in their order, each at most once, each with the embedding extracted
    for its span, and each long enough: the difference of its end and its
    start, computed in floating point as the code computes it, is not
    below [min_duration].  When no extraction fails these are all the
    segments that are long enough; and a larger minimum only removes
    segments. *)
Theorem extract_embeddings_selects (segments : list segment) (min_duration : Q) :
  let results := extract_embeddings_for_segments extract segments min_duration in
  map fst results `sublist_of` segments
  /\ Forall (fun r => long_enough min_duration (fst r)
                      /\ extract (start (fst r)) (end_ (fst r)) = Some (snd r))
            results
  /\ ((forall seg, seg ∈ segments -> long_enough min_duration seg ->
         is_Some (extract (start seg) (end_ seg))) ->
      map fst results = filter (long_enough min_duration) segments)
  /\ (forall larger, min_duration <= larger ->
        map fst (extract_embeddings_for_segments extract segments larger)
        `sublist_of` map fst results).
Proof.
  intros results. unfold results, extract_embeddings_for_segments.
  split; [|split; [|split]].
  - by apply (extract_sublist min_duration segments [] []).
  - by apply extract_long_enough.
  - intros Hok. by rewrite extract_all.
  - intros larger Hle. by apply extract_monotone.
Qed.

End Extraction.

Example extract_mixed_segments :
  map fst (extract_embeddings_for_segments span_embedding mixed_segments (1 # 2))
  = [ mk_segment "B" 1 (17 # 10) (7 # 10); mk_segment "A" 2 4 2 ]
  /\ map fst (extract_embeddings_for_segments span_embedding mixed_segments 1)
     = [ mk_segment "A" 2 4 2 ].
Proof. by vm_compute. Qed.

(** The duration is the rounded difference.  The segment from 0.063 to
    0.563 is skipped at the minimum 0.5: the difference of its floats is
    the float below 0.5.  The segment from 0.086 to 0.586 is kept: its two
    floats are less than half a second apart, and their difference rounds
    to 0.5. *)
Example extract_half_second_segments :
  map fst (extract_embeddings_for_segments span_embedding
             half_second_segments 0.5)
  = [ mk_segment "B" 0.086 0.586 0.5 ]
  /\ Float64.sub 0.563 0.063 = Float64.lit 0.49999999999999994
  /\ Float64.sub 0.586 0.086 = 1 # 2
  /\ Float64.lit 0.586 - Float64.lit 0.086 < 0.5.
Proof. by vm_compute. Qed.

Lemma extract_embeddings_selects_witness :
  map fst (extract_embeddings_for_segments span_embedding mixed_segments (1 # 2))
  = filter (long_enough (1 # 2)) mixed_segments.
Proof.
  apply (extract_embeddings_selects span_embedding mixed_segments (1 # 2)).
  intros seg Hseg _.
  repeat (apply elem_of_cons in Hseg as [->|Hseg]; [by eexists|]).
  by apply elem_of_nil in Hseg.
Defined.

End EmbeddingFacts.

(** ** Facts about the search and the list of speakers *)

Module SpeakerStoreFacts.
Import Num NumFacts Voting VotingFacts SpeakerStore.

Lemma fold_pages {A B} (f : A -> B -> A) (pages : list (list B)) (a : A) :
  fold_left (fun acc page => fold_left f page acc) pages a
  = fold_left f (concat pages) a.
Proof.
  revert a. induction pages as [|page pages IH]; intros a; [reflexivity|].
  cbn [fold_left concat]. by rewrite fold_left_app, IH.
Qed.

Lemma seen_ids_snoc (pts : list payload) (p : payload) :
  seen_ids (pts ++ [p])
  = match pl_speaker_id p with
    | Some (String _ _ as id) =>
        if decide (id ∈ seen_ids pts) then seen_ids pts
        else seen_ids pts ++ [id]
    | _ => seen_ids pts
    end.
Proof. unfold seen_ids. by rewrite fold_left_app. Qed.

Lemma elem_of_seen_ids (id : string) (pts : list payload) :
  id ∈ seen_ids pts
  <-> id <> "" /\ exists p, p ∈ pts /\ pl_speaker_id p = Some id.
Proof.
  induction pts as [|p pts IH] using rev_ind.
  - split; [by intros ?%elem_of_nil|]. by intros (_ & p & ?%elem_of_nil & _).
  - assert ((exists q, q ∈ pts ++ [p] /\ pl_speaker_id q = Some id)
            <-> (exists q, q ∈ pts /\ pl_speaker_id q = Some id)
                \/ pl_speaker_id p = Some id) as Hsplit.
    { split.
      - intros (q & [Hq | ->%list_elem_of_singleton]%elem_of_app & Hid);
          [left; by exists q|by right].
      - intros [(q & Hq & Hid)|Hid].
        + exists q. split; [apply elem_of_app; by left|done].
        + exists p. split; [|done]. apply elem_of_app. right.
          by apply list_elem_of_singleton. }
    rewrite seen_ids_snoc, Hsplit.
    destruct (pl_speaker_id p) as [[|c i]|] eqn:Ep.
    + rewrite IH. split; [by intros [? ?]; auto|].
      intros [Hne [H|[= <-]]]; [by split|done].
    + destruct (decide (String c i ∈ seen_ids pts)) as [Hin|Hin].
      * rewrite IH. split; [by intros [? ?]; auto|].
        intros [Hne [H|[= <-]]]; [by split|by apply IH].
      * rewrite elem_of_app, list_elem_of_singleton, IH. split.
        -- intros [[Hne H]| ->]; [by auto|]. split; [done|by right].
        -- intros [Hne [H|[= <-]]]; [left; by split|by right].
    + rewrite IH. split; [by intros [? ?]; auto|].
      intros [Hne [H|[=]]]. by split.
Qed.

Lemma seen_ids_NoDup (pts : list payload) : NoDup (seen_ids pts).
Proof.
  induction pts as [|p pts IH] using rev_ind; [constructor|].
  rewrite seen_ids_snoc. destruct (pl_speaker_id p) as [[|c i]|]; try exact IH.
  destruct (decide (String c i ∈ seen_ids pts)) as [Hin|Hin]; [exact IH|].
  apply NoDup_app. split; [exact IH|]. split.
  - by intros x Hx ->%list_elem_of_singleton.
  - apply NoDup_singleton.
Qed.

Lemma points_of_snoc (id : string) (pts : list payload) (p : payload) :
  points_of id (pts ++ [p])
  = points_of id pts ++ (if decide (pl_speaker_id p = Some id) then [p] else []).
Proof.
  unfold points_of. rewrite filter_app, filter_cons, filter_nil.
  by destruct (decide (pl_speaker_id p = Some id)).
Qed.

Lemma points_of_seen (id : string) (pts : list payload) :
  id <> "" -> (id ∈ seen_ids pts <-> points_of id pts <> []).
Proof.
  intros Hne. rewrite elem_of_seen_ids. unfold points_of. split.
  - intros (_ & p & Hp & Hid) Hnil.
    assert (p ∈ filter (fun q => pl_speaker_id q = Some id) pts) as Hin
      by (by apply list_elem_of_filter).
    rewrite Hnil in Hin. by apply elem_of_nil in Hin.
  - intros Hf. split; [exact Hne|].
    destruct (filter (fun q => pl_speaker_id q = Some id) pts) as [|p l] eqn:E;
      [done|].
    assert (p ∈ filter (fun q => pl_speaker_id q = Some id) pts) as Hin
      by (rewrite E; apply list_elem_of_here).
    apply list_elem_of_filter in Hin as [Hid Hp]. by exists p.
Qed.

Lemma info_lookup_map (f : string -> speaker_info) (k : string) (l : list string) :
  info_lookup k (map (fun id => (id, f id)) l)
  = if decide (k ∈ l) then Some (f k) else None.
Proof.
  induction l as [|j l IH]; cbn [map info_lookup].
  - destruct (decide (k ∈ [])) as [Hin|Hin]; [|done].
    by apply elem_of_nil in Hin.
  - destruct (decide (j = k)) as [->|Hne].
    + destruct (decide (k ∈ k :: l)) as [Hin|Hin]; [done|].
      destruct Hin. apply list_elem_of_here.
    + rewrite IH.
      destruct (decide (k ∈ l)) as [Hin|Hin];
        destruct (decide (k ∈ j :: l)) as [Hin'|Hin']; try done.
      * destruct Hin'. by apply list_elem_of_further.
      * apply elem_of_cons in Hin' as [->|?]; done.
Qed.

(** What the loop over the points has built after the points [pts]. *)
Lemma speaker_tally (pts : list payload) :
  fold_left speaker_step pts []
  = map (fun id => (id, info_of pts id)) (seen_ids pts).
Proof.
  induction pts as [|p pts IH] using rev_ind; [reflexivity|].
  rewrite fold_left_app. cbn [fold_left]. rewrite IH. clear IH.
  unfold speaker_step. rewrite seen_ids_snoc.
  assert (forall id, pl_speaker_id p <> Some id ->
            info_of (pts ++ [p]) id = info_of pts id) as Hother.
  { intros id Hid. unfold info_of. rewrite points_of_snoc.
    rewrite decide_False by exact Hid. by rewrite app_nil_r. }
  destruct (pl_speaker_id p) as [[|c i]|] eqn:Ep.
  - apply map_ext_in. intros id Hid%list_elem_of_In. rewrite Hother; [done|].
    intros [= <-]. by apply elem_of_seen_ids in Hid as [? _].
  - set (k := String c i) in *. rewrite info_lookup_map.
    assert (forall id, id ∈ seen_ids pts -> id <> k ->
              (id, info_of pts id) = (id, info_of (pts ++ [p]) id)) as Hkeep.
    { intros id _ Hne. rewrite Hother; [done|]. by intros [= <-]. }
    assert (info_of (pts ++ [p]) k
            = match points_of k pts with
              | [] => {| si_speaker_id := k;
                         si_speaker_name := default "unknown" (pl_speaker_name p);
                         si_embeddings_count := 1;
                         si_created_at := pl_created_at p |}
              | _ => {| si_speaker_id := k;
                        si_speaker_name := si_speaker_name (info_of pts k);
                        si_embeddings_count := S (si_embeddings_count (info_of pts k));
                        si_created_at := si_created_at (info_of pts k) |}
              end) as Hk.
    { unfold info_of. rewrite points_of_snoc, decide_True by exact Ep.
      destruct (points_of k pts) as [|q l]; [reflexivity|].
      cbn [head app length mbind option_bind]. rewrite length_app. cbn [length].
      f_equal. cbn [si_embeddings_count]. lia. }
    destruct (decide (k ∈ seen_ids pts)) as [Hin|Hin].
    + unfold count_one. rewrite map_map. apply map_ext_in.
      intros id Hid%list_elem_of_In.
      destruct (decide (id = k)) as [->|Hne]; [|by apply Hkeep].
      rewrite Hk. apply points_of_seen in Hin; [|done].
      by destruct (points_of k pts).
    + unfold count_one. rewrite !map_app, map_map. cbn [map].
      rewrite decide_True by reflexivity. f_equal.
      * apply map_ext_in. intros id Hid%list_elem_of_In.
        destruct (decide (id = k)) as [->|Hne]; [done|by apply Hkeep].
      * rewrite Hk.
        assert (points_of k pts = []) as ->; [|reflexivity].
        destruct (points_of k pts) eqn:E; [reflexivity|].
        destruct Hin. apply points_of_seen; [done|]. by rewrite E.
  - apply map_ext_in. intros id Hid%list_elem_of_In. by rewrite Hother.
Qed.

(** X17. [get_all_speakers] lists each speaker once, under a non-empty
    id: every point of the collection with a non-empty speaker id has its
    speaker in the list, points without one are not counted, and the
    count of each speaker is the number of points with its id over all
    pages, which is at least one. *)
Theorem get_all_speakers_counts (first_page : list payload)
    (next_pages : list (list payload)) :
  let points := first_page ++ concat next_pages in
  let speakers := get_all_speakers first_page next_pages in
  NoDup (map si_speaker_id speakers)
  /\ (forall info, info ∈ speakers ->
        si_speaker_id info <> ""
        /\ si_embeddings_count info
           = length (points_of (si_speaker_id info) points)
        /\ (1 <= si_embeddings_count info)%nat)
  /\ (forall p id, p ∈ points -> pl_speaker_id p = Some id -> id <> "" ->
        exists info, info ∈ speakers /\ si_speaker_id info = id).
Proof.
  intros points speakers.
  assert (speakers = map (info_of points) (seen_ids points)) as ->.
  { unfold speakers, get_all_speakers.
    rewrite (fold_pages speaker_step (first_page :: next_pages) []).
    cbn [concat]. fold points. rewrite speaker_tally. by rewrite map_map. }
  split; [|split].
  - rewrite map_map. cbn [info_of si_speaker_id]. rewrite map_id.
    apply seen_ids_NoDup.
  - intros info (id & -> & Hid)%list_elem_of_fmap. cbn [info_of si_speaker_id
      si_embeddings_count].
    pose proof (proj1 (elem_of_seen_ids id points) Hid) as [Hne _].
    split; [exact Hne|]. split; [reflexivity|].
    apply points_of_seen in Hid; [|exact Hne].
    destruct (points_of id points); [done|simpl; lia].
  - intros p id Hp Hid Hne. exists (info_of points id). split; [|reflexivity].
    apply list_elem_of_fmap_2. apply elem_of_seen_ids. split; [exact Hne|].
    by exists p.
Qed.

Lemma get_all_speakers_counts_witness :
  let points := [ann_point; anonymous_point] ++ concat [[bob_point]; [ann_point]] in
  let speakers :=
    get_all_speakers [ann_point; anonymous_point] [[bob_point]; [ann_point]] in
  NoDup (map si_speaker_id speakers)
  /\ (forall info, info ∈ speakers ->
        si_speaker_id info <> ""
        /\ si_embeddings_count info
           = length (points_of (si_speaker_id info) points)
        /\ (1 <= si_embeddings_count info)%nat)
  /\ (forall p id, p ∈ points -> pl_speaker_id p = Some id -> id <> "" ->
        exists info, info ∈ speakers /\ si_speaker_id info = id).
Proof.
  exact (get_all_speakers_counts [ann_point; anonymous_point]
           [[bob_point]; [ann_point]]).
Defined.

Example get_all_speakers_two_pages :
  get_all_speakers [ann_point; anonymous_point] [[bob_point]; [ann_point]]
  = [ mk_speaker_info "id-ann" "Ann" 2 (Some "2024-01-01");
      mk_speaker_info "id-bob" "Bob" 1 None ].
Proof. by vm_compute. Qed.

Lemma length_concat_le {A B} (f : A -> list B) (k : nat) (l : list A) :
  (forall a, length (f a) <= k)%nat ->
  (length (concat (map f l)) <= k * length l)%nat.
Proof.
  intros Hf. induction l as [|a l IH]; [simpl; lia|].
  cbn [map concat length]. rewrite length_app. specialize (Hf a). lia.
Qed.

Section Client.
Context {vector : Type} (query_points : vector -> nat -> Q -> list scored_point).
Context (similarity_threshold : Q).

(** X18. With a store that returns at most the number of points asked
    for and none below the threshold, the vote returns nothing when the
    search finds no point for any embedding; and what it returns has a
    score above zero, a number of matches between one and three per
    embedding, and the non-empty id and the name of a point that the
    store returned for one of the embeddings, at the effective threshold
    and with a score that is not below it. *)
Theorem identify_by_voting_sound (embeddings : list vector)
    (score_threshold : option Q) :
  let threshold := effective_threshold score_threshold similarity_threshold in
  honours_query query_points ->
  ((forall e, e ∈ embeddings -> query_points e 3%nat threshold = []) ->
   identify_by_voting query_points similarity_threshold
                      embeddings score_threshold = None)
  /\ forall r,
       identify_by_voting query_points similarity_threshold
                          embeddings score_threshold = Some r ->
       0 < id_score r
       /\ (1 <= id_num_matches r <= 3 * length embeddings)%nat
       /\ id_truthy (id_speaker_id r) = true
       /\ exists e p,
            e ∈ embeddings /\ p ∈ query_points e 3%nat threshold
            /\ threshold <= sp_score p
            /\ pl_speaker_id (sp_payload p) = id_speaker_id r
            /\ id_speaker_name r
               = default "unknown" (pl_speaker_name (sp_payload p)).
Proof.
  intros threshold Hq.
  set (search := fun e : vector =>
         search_similar_speakers query_points similarity_threshold e 3
                                 score_threshold).
  assert (forall m, m ∈ all_matches search embeddings ->
            exists e p, e ∈ embeddings /\ p ∈ query_points e 3%nat threshold
                        /\ m = point_match p) as Hm.
  { intros m Hin. unfold all_matches in Hin.
    apply list_elem_of_In, in_concat in Hin as (l & Hl & Hin).
    apply list_elem_of_In in Hl, Hin.
    apply list_elem_of_fmap in Hl as (e & -> & He).
    unfold search, search_similar_speakers in Hin.
    apply list_elem_of_fmap in Hin as (p & -> & Hp).
    fold threshold in Hp. by exists e, p. }
  assert (forall r,
            identify_by_voting query_points similarity_threshold
                               embeddings score_threshold = Some r ->
            exists m0,
              m0 ∈ all_matches search embeddings
              /\ speaker_id m0 = id_speaker_id r
              /\ id_speaker_name r = speaker_name m0
              /\ 0 < id_score r
              /\ id_truthy (id_speaker_id r) = true
              /\ id_num_matches r
                 = length (scores_of (id_speaker_id r)
                                     (all_matches search embeddings))
              /\ scores_of (id_speaker_id r) (all_matches search embeddings)
                 <> []) as Hsound.
  { intros r Hr.
    destruct (vote_sound search embeddings r Hr)
      as (m0 & Hwin & _ & Hpos & Hcount & _ & Hin & Hid & Hname & Htruthy).
    exists m0. repeat split; try done.
    apply scores_of_seen. destruct Hwin as (pre & post & -> & _).
    apply elem_of_app. right. apply list_elem_of_here. }
  split.
  - intros Hnone.
    destruct (identify_by_voting query_points similarity_threshold
                                 embeddings score_threshold) as [r|] eqn:Hr;
      [|reflexivity].
    destruct (Hsound r eq_refl) as (m0 & Hin & _).
    destruct (Hm m0 Hin) as (e & p & He & Hp & _).
    rewrite (Hnone e He) in Hp. by apply elem_of_nil in Hp.
  - intros r Hr.
    destruct (Hsound r Hr)
      as (m0 & Hin & Hid & Hname & Hpos & Htruthy & Hcount & Hne).
    split; [exact Hpos|]. split; [|split; [exact Htruthy|]].
    + rewrite Hcount. split.
      * destruct (scores_of _ _); [done|simpl; lia].
      * unfold scores_of. rewrite length_map.
        etransitivity; [apply length_filter|].
        apply length_concat_le. intros e.
        unfold search, search_similar_speakers. rewrite length_map.
        apply (proj1 (Hq e 3%nat _)).
    + destruct (Hm m0 Hin) as (e & p & He & Hp & ->).
      exists e, p. repeat split; try done.
      by apply (proj2 (Hq e 3%nat threshold)).
Qed.

End Client.

Example effective_threshold_zero :
  effective_threshold (Some 0) (7 # 10) = 7 # 10
  /\ effective_threshold (Some (1 # 2)) (7 # 10) = 1 # 2
  /\ effective_threshold None (7 # 10) = 7 # 10.
Proof. by vm_compute. Qed.

Example identify_one_point :
  identify_by_voting one_point_store (7 # 10) [tt; tt] None
  = Some (mk_identification "Ann" (Some "id-ann") (Float64.lit 0.9)
            (Some "a.wav") (Some "2024-01-01") 2).
Proof. vm_compute. reflexivity. Qed.

(** The score reported can be below the threshold that every match has
    passed: the float mean of three scores 0.7 is 0.6999999999999998. *)
Example identify_below_threshold :
  identify_by_voting steady_store (Float64.lit 0.7) [tt; tt; tt] None
  = Some (mk_identification "Ann" (Some "id-ann")
            (Float64.lit 0.6999999999999998)
            (Some "a.wav") (Some "2024-01-01") 3)
  /\ Float64.lit 0.6999999999999998 < Float64.lit 0.7.
Proof. split; vm_compute; reflexivity. Qed.

Lemma honours_one_point_store : honours_query one_point_store.
Proof.
  intros v k t. unfold one_point_store. destruct k as [|k].
  - split; [simpl; lia|]. by intros p ?%elem_of_nil.
  - destruct (Qle_bool t (9 # 10)) eqn:E.
    + split; [simpl; lia|]. intros p ->%list_elem_of_singleton.
      by apply Qle_bool_iff.
    + split; [simpl; lia|]. by intros p ?%elem_of_nil.
Qed.

Lemma identify_by_voting_sound_witness :
  0 < Float64.lit 0.9
  /\ (1 <= 2 <= 3 * length [tt; tt])%nat
  /\ id_truthy (Some "id-ann") = true
  /\ exists e p,
       e ∈ [tt; tt]
       /\ p ∈ one_point_store e 3%nat (effective_threshold None (7 # 10))
       /\ effective_threshold None (7 # 10) <= sp_score p
       /\ pl_speaker_id (sp_payload p) = Some "id-ann"
       /\ "Ann" = default "unknown" (pl_speaker_name (sp_payload p)).
Proof.
  exact (proj2 (identify_by_voting_sound one_point_store (7 # 10) [tt; tt] None
                  honours_one_point_store)
               _ identify_one_point).
Defined.

End SpeakerStoreFacts.

(** ** Facts about the identification of the speakers of a file *)

Module ApiFacts.
Import Num NumFacts Diarization Merger Voting Embedding Api.
Import TurnFacts MergeFacts MergePathFacts.

Lemma labels_in_order_snoc (segs : list segment) (seg : segment) :
  labels_in_order (segs ++ [seg])
  = if decide (speaker seg ∈ labels_in_order segs)
    then labels_in_order segs else labels_in_order segs ++ [speaker seg].
Proof. unfold labels_in_order. by rewrite fold_left_app. Qed.

Lemma elem_of_labels_in_order (l : string) (segs : list segment) :
  l ∈ labels_in_order segs <-> exists seg, seg ∈ segs /\ speaker seg = l.
Proof.
  induction segs as [|seg segs IH] using rev_ind.
  - split; [by intros ?%elem_of_nil|]. by intros (s & ?%elem_of_nil & _).
  - assert ((exists s, s ∈ segs ++ [seg] /\ speaker s = l)
            <-> (exists s, s ∈ segs /\ speaker s = l) \/ speaker seg = l)
      as ->.
    { split.
      - intros (s & [Hs | ->%list_elem_of_singleton]%elem_of_app & Hl);
          [left; by exists s|by right].
      - intros [(s & Hs & Hl)|Hl].
        + exists s. split; [apply elem_of_app; by left|done].
        + exists seg. split; [|done]. apply elem_of_app. right.
          by apply list_elem_of_singleton. }
    rewrite labels_in_order_snoc.
    destruct (decide (speaker seg ∈ labels_in_order segs)) as [Hin|Hin].
    + rewrite IH. split; [by left|]. intros [H| <-]; [done|by apply IH].
    + rewrite elem_of_app, list_elem_of_singleton, IH. split.
      * intros [H| ->]; [by left|by right].
      * intros [H| <-]; [by left|by right].
Qed.

Lemma labels_in_order_NoDup (segs : list segment) : NoDup (labels_in_order segs).
Proof.
  induction segs as [|seg segs IH] using rev_ind; [constructor|].
  rewrite labels_in_order_snoc.
  destruct (decide (speaker seg ∈ labels_in_order segs)) as [Hin|Hin];
    [exact IH|].
  apply NoDup_app. split; [exact IH|]. split.
  - by intros x Hx ->%list_elem_of_singleton.
  - apply NoDup_singleton.
Qed.

Lemma segments_of_snoc (l : string) (segs : list segment) (seg : segment) :
  segments_of l (segs ++ [seg])
  = segments_of l segs ++ (if decide (speaker seg = l) then [seg] else []).
Proof.
  unfold segments_of. rewrite filter_app, filter_cons, filter_nil.
  by destruct (decide (speaker seg = l)).
Qed.

Lemma segments_of_seen (l : string) (segs : list segment) :
  l ∈ labels_in_order segs <-> segments_of l segs <> [].
Proof.
  rewrite elem_of_labels_in_order. unfold segments_of. split.
  - intros (s & Hs & Hl) Hnil.
    assert (s ∈ filter (fun x => speaker x = l) segs) as Hin
      by (by apply list_elem_of_filter).
    rewrite Hnil in Hin. by apply elem_of_nil in Hin.
  - intros Hne.
    destruct (filter (fun x => speaker x = l) segs) as [|s r] eqn:E; [done|].
    assert (s ∈ filter (fun x => speaker x = l) segs) as Hin
      by (rewrite E; apply list_elem_of_here).
    apply list_elem_of_filter in Hin as [Hl Hs]. by exists s.
Qed.

Lemma group_lookup_map (f : string -> list segment) (k : string)
    (l : list string) :
  group_lookup k (map (fun j => (j, f j)) l)
  = if decide (k ∈ l) then Some (f k) else None.
Proof.
  induction l as [|j l IH]; cbn [map group_lookup].
  - destruct (decide (k ∈ [])) as [Hin|Hin]; [|done].
    by apply elem_of_nil in Hin.
  - destruct (decide (j = k)) as [->|Hne].
    + destruct (decide (k ∈ k :: l)) as [Hin|Hin]; [done|].
      destruct Hin. apply list_elem_of_here.
    + rewrite IH.
      destruct (decide (k ∈ l)) as [Hin|Hin];
        destruct (decide (k ∈ j :: l)) as [Hin'|Hin']; try done.
      * destruct Hin'. by apply list_elem_of_further.
      * apply elem_of_cons in Hin' as [->|?]; done.
Qed.

(** What the grouping loop has built after the segments [segs]. *)
Lemma group_tally (segs : list segment) :
  group_by_speaker segs
  = map (fun l => (l, segments_of l segs)) (labels_in_order segs).
Proof.
  unfold group_by_speaker.
  induction segs as [|seg segs IH] using rev_ind; [reflexivity|].
  rewrite fold_left_app. cbn [fold_left]. rewrite IH. clear IH.
  unfold group_step. cbv zeta.
  rewrite group_lookup_map, labels_in_order_snoc.
  assert (forall j,
            (if decide (j = speaker seg)
             then (j, segments_of j segs ++ [seg])
             else (j, segments_of j segs))
            = (j, segments_of j (segs ++ [seg]))) as Hentry.
  { intros j. rewrite segments_of_snoc.
    destruct (decide (j = speaker seg)) as [->|Hne].
    - by rewrite decide_True.
    - rewrite decide_False by congruence. by rewrite app_nil_r. }
  destruct (decide (speaker seg ∈ labels_in_order segs)) as [Hin|Hin].
  - unfold group_append. rewrite map_map. apply map_ext. exact Hentry.
  - unfold group_append. rewrite !map_app, map_map. cbn [map].
    rewrite decide_True by reflexivity. f_equal.
    + apply map_ext. exact Hentry.
    + rewrite segments_of_snoc, decide_True by reflexivity.
      destruct (segments_of (speaker seg) segs) eqn:E; [reflexivity|].
      destruct Hin. apply segments_of_seen. by rewrite E.
Qed.

Lemma lookup_snoc_inv {A} (l : list A) (x y : A) (k : nat) :
  (l ++ [x]) !! k = Some y ->
  l !! k = Some y \/ (k = length l /\ y = x).
Proof.
  intros [H|[Hk H]]%lookup_app_Some; [by left|right].
  destruct (k - length l)%nat as [|n] eqn:E; [|done].
  injection H as <-. split; [lia|reflexivity].
Qed.

(** A label that is before another in [labels_in_order] has a segment
    before all the segments of the other. *)
Lemma labels_in_order_first (segs : list segment) (i j : nat) (a b : string) :
  labels_in_order segs !! i = Some a ->
  labels_in_order segs !! j = Some b ->
  (i < j)%nat ->
  exists k seg,
    segs !! k = Some seg /\ speaker seg = a
    /\ forall k' seg',
         segs !! k' = Some seg' -> speaker seg' = b -> (k < k')%nat.
Proof.
  revert i j a b. induction segs as [|x segs IH] using rev_ind;
    intros i j a b Hi Hj Hij; [by destruct i|].
  rewrite labels_in_order_snoc in Hi, Hj.
  assert (forall k seg,
            segs !! k = Some seg -> speaker seg = a ->
            (forall k' seg',
               segs !! k' = Some seg' -> speaker seg' = b -> (k < k')%nat) ->
            exists k0 seg0,
              (segs ++ [x]) !! k0 = Some seg0 /\ speaker seg0 = a
              /\ forall k' seg',
                   (segs ++ [x]) !! k' = Some seg' -> speaker seg' = b ->
                   (k0 < k')%nat) as Hext.
  { intros k seg Hk Ha Hb. exists k, seg.
    split; [by apply lookup_app_l_Some|]. split; [exact Ha|].
    intros k' seg' [Hk'|[-> ->]]%lookup_snoc_inv Hb'; [by eapply Hb|].
    by eapply lookup_lt_Some. }
  destruct (decide (speaker x ∈ labels_in_order segs)) as [Hin|Hin].
  - destruct (IH i j a b Hi Hj Hij) as (k & seg & Hk & Ha & Hb). eauto.
  - apply lookup_snoc_inv in Hj as [Hj|[-> ->]].
    + apply lookup_snoc_inv in Hi as [Hi|[-> _]];
        [|apply lookup_lt_Some in Hj; lia].
      destruct (IH i j a b Hi Hj Hij) as (k & seg & Hk & Ha & Hb). eauto.
    + apply lookup_snoc_inv in Hi as [Hi|[-> _]]; [|lia].
      apply list_elem_of_lookup_2, elem_of_labels_in_order in Hi
        as (seg & [k Hk]%list_elem_of_lookup_1 & Ha).
      apply (Hext k seg Hk Ha).
      intros k' seg' Hk' Hb. destruct Hin.
      apply elem_of_labels_in_order. exists seg'.
      split; [by eapply list_elem_of_lookup_2|exact Hb].
Qed.

(** X19. The grouping of the segments by speaker has one group per label,
    in the order in which the labels first appear: a label whose group
    comes before the group of another has a segment before every segment
    of the other.  The group of a label is the segments of that label in
    their order, so it is never empty and every segment is in the group
    of its label and in no other. *)
Theorem group_by_speaker_partition (segments : list segment) :
  let groups := group_by_speaker segments in
  NoDup (map fst groups)
  /\ map fst groups = labels_in_order segments
  /\ (forall i j a b,
        map fst groups !! i = Some a -> map fst groups !! j = Some b ->
        (i < j)%nat ->
        exists k seg,
          segments !! k = Some seg /\ speaker seg = a
          /\ forall k' seg',
               segments !! k' = Some seg' -> speaker seg' = b ->
               (k < k')%nat)
  /\ (forall label group, (label, group) ∈ groups ->
        group = segments_of label segments /\ group <> [])
  /\ (forall seg, seg ∈ segments ->
        (speaker seg, segments_of (speaker seg) segments) ∈ groups)
  /\ (forall seg label group, (label, group) ∈ groups -> seg ∈ group ->
        speaker seg = label /\ seg ∈ segments).
Proof.
  intros groups. unfold groups. rewrite group_tally.
  assert (map fst (map (fun l => (l, segments_of l segments))
                       (labels_in_order segments))
          = labels_in_order segments) as Hlabels
    by (rewrite map_map; cbn [fst]; by rewrite map_id).
  rewrite Hlabels.
  split; [|split; [|split; [|split; [|split]]]].
  - apply labels_in_order_NoDup.
  - reflexivity.
  - apply labels_in_order_first.
  - intros label group (l & [= -> ->] & Hl)%list_elem_of_fmap.
    split; [reflexivity|]. by apply segments_of_seen.
  - intros seg Hseg.
    apply (list_elem_of_fmap_2 (fun l => (l, segments_of l segments))).
    apply elem_of_labels_in_order. by exists seg.
  - intros seg label group (l & [= -> ->] & Hl)%list_elem_of_fmap Hseg.
    by apply list_elem_of_filter in Hseg.
Qed.

Lemma group_by_speaker_partition_witness :
  let groups := group_by_speaker conversation in
  NoDup (map fst groups)
  /\ map fst groups = labels_in_order conversation
  /\ (forall i j a b,
        map fst groups !! i = Some a -> map fst groups !! j = Some b ->
        (i < j)%nat ->
        exists k seg,
          conversation !! k = Some seg /\ speaker seg = a
          /\ forall k' seg',
               conversation !! k' = Some seg' -> speaker seg' = b ->
               (k < k')%nat)
  /\ (forall label group, (label, group) ∈ groups ->
        group = segments_of label conversation /\ group <> [])
  /\ (forall seg, seg ∈ conversation ->
        (speaker seg, segments_of (speaker seg) conversation) ∈ groups)
  /\ (forall seg label group, (label, group) ∈ groups -> seg ∈ group ->
        speaker seg = label /\ seg ∈ conversation).
Proof. exact (group_by_speaker_partition conversation). Defined.

Example group_conversation :
  group_by_speaker conversation
  = [ ("SPEAKER_00", [ mk_segment "SPEAKER_00" 0 2 2;
                        mk_segment "SPEAKER_00" 3 5 2 ]);
      ("SPEAKER_01", [ mk_segment "SPEAKER_01" 2 3 1 ]) ].
Proof. by vm_compute. Qed.

Lemma paired_insert (m : gmap string (option string))
    (c : gmap string (option Q)) (l : string)
    (x : option string) (y : option Q) :
  paired m c -> (x = None <-> y = None) ->
  paired (<[l:=x]> m) (<[l:=y]> c).
Proof.
  intros Hp Hxy label. destruct (decide (l = label)) as [->|Hne].
  - rewrite !lookup_insert_eq. destruct x, y; try done.
    + discriminate (proj2 Hxy eq_refl).
    + discriminate (proj1 Hxy eq_refl).
  - rewrite !lookup_insert_ne by exact Hne. apply Hp.
Qed.

Lemma paired_agree (m : gmap string (option string))
    (c : gmap string (option Q)) :
  paired m c -> maps_agree (Some m) (Some c).
Proof.
  intros Hp label. specialize (Hp label). unfold dict_get.
  by destruct (m !! label) as [[?|]|], (c !! label) as [[?|]|].
Qed.

(** The turns of a merge with dicts that agree. *)
Lemma merge_turns_null (whisper : whisper_result)
    (diarization : diarization_result)
    (sm : option (gmap string (option string)))
    (sc : option (gmap string (option Q))) (t : turn) :
  maps_agree sm sc ->
  t ∈ m_segments (merge_transcription_with_diarization
                    whisper diarization sm sc) ->
  is_null (t_identified_as t) <-> is_null (t_confidence t).
Proof.
  intros Hagree.
  destruct (merge_cases whisper diarization sm sc)
    as [[_ ->]|[(_ & _ & ->)|(_ & _ & ->)]];
    cbn [m_segments _merge_segment_level].
  - intros (wseg & -> & _)%list_elem_of_fmap. by apply merge_segment_null.
  - intros ->%list_elem_of_singleton. by apply single_speaker_turn_null.
  - cbv zeta. rewrite <- list_fmap_compose.
    intros (ot & -> & _)%list_elem_of_fmap. by apply apply_mapping_null.
Qed.

Section Identify.
Context {vector : Type} (extract : Q -> Q -> option vector).
Context (vote : list vector -> option identification).

Lemma identify_step_shape (m : gmap string (option string))
    (c : gmap string (option Q)) (l : string) (g : list segment) :
  exists x y,
    identify_step extract vote (m, c) (l, g) = (<[l:=x]> m, <[l:=y]> c)
    /\ (x = None <-> y = None).
Proof.
  unfold identify_step.
  destruct (extract_embeddings_for_segments extract g 0.5) as [|r rs].
  - by exists None, None.
  - destruct (vote (map snd (r :: rs))) as [found|].
    + by exists (Some (id_speaker_name found)), (Some (id_score found)).
    + by exists None, None.
Qed.

Lemma identify_fold (groups : list (string * list segment))
    (m : gmap string (option string)) (c : gmap string (option Q)) :
  paired m c ->
  paired (fst (fold_left (identify_step extract vote) groups (m, c)))
         (snd (fold_left (identify_step extract vote) groups (m, c)))
  /\ dom (fst (fold_left (identify_step extract vote) groups (m, c)))
     = dom m ∪ list_to_set (map fst groups).
Proof.
  revert m c. induction groups as [|[l g] groups IH]; intros m c Hp.
  - split; [exact Hp|]. cbn [fold_left fst map].
    by rewrite list_to_set_nil, (right_id_L ∅ (∪)).
  - cbn [fold_left].
    destruct (identify_step_shape m c l g) as (x & y & -> & Hxy).
    destruct (IH (<[l:=x]> m) (<[l:=y]> c)) as [Hp' Hdom];
      [by apply paired_insert|].
    split; [exact Hp'|]. rewrite Hdom, dom_insert_L. cbn [map fst].
    rewrite list_to_set_cons, (comm_L (∪) {[l]} (dom m)).
    by rewrite (assoc_L (∪)).
Qed.

(** X20. The mapping and the confidences that the identification
    endpoints build hold an entry for every label of the segments and for
    no other, and hold a name and a score for a label together or not at
    all.  So every segment of the [/identify] response, and every turn of
    a merge with these two dicts, has a name exactly when it has a
    confidence. *)
Theorem identify_speakers_paired (segments : list segment) :
  let maps := identify_speakers extract vote segments in
  paired (fst maps) (snd maps)
  /\ dom (fst maps) = DiarizeOutput.labels segments
  /\ (forall s, s ∈ identified_segments segments (fst maps) (snd maps) ->
        is_identified_as s = None <-> is_confidence s = None)
  /\ (forall whisper diarization t,
        t ∈ m_segments (merge_transcription_with_diarization
                          whisper diarization
                          (Some (fst maps)) (Some (snd maps))) ->
        is_null (t_identified_as t) <-> is_null (t_confidence t)).
Proof.
  intros maps.
  destruct (identify_fold (group_by_speaker segments) ∅ ∅) as [Hp Hdom].
  { intros label. by rewrite !lookup_empty. }
  fold (identify_speakers extract vote segments) in Hp, Hdom.
  fold maps in Hp, Hdom.
  split; [exact Hp|]. split; [|split].
  - rewrite Hdom, group_tally, map_map. cbn [fst]. rewrite map_id.
    rewrite dom_empty_L, (left_id_L ∅ (∪)).
    unfold DiarizeOutput.labels. apply set_eq. intros l.
    rewrite !elem_of_list_to_set, elem_of_labels_in_order.
    split.
    + intros (seg & Hseg & <-). by apply list_elem_of_fmap_2.
    + intros (seg & -> & Hseg)%list_elem_of_fmap. by exists seg.
  - intros s (seg & -> & _)%list_elem_of_fmap.
    cbn [is_identified_as is_confidence].
    apply (paired_agree _ _ Hp (speaker seg)).
  - intros whisper diarization t.
    apply merge_turns_null. by apply paired_agree.
Qed.

End Identify.

Lemma identify_speakers_paired_witness :
  let maps := identify_speakers span_embedding vote_of_two conversation in
  paired (fst maps) (snd maps)
  /\ dom (fst maps) = DiarizeOutput.labels conversation
  /\ (forall s, s ∈ identified_segments conversation (fst maps) (snd maps) ->
        is_identified_as s = None <-> is_confidence s = None)
  /\ (forall whisper diarization t,
        t ∈ m_segments (merge_transcription_with_diarization
                          whisper diarization
                          (Some (fst maps)) (Some (snd maps))) ->
        is_null (t_identified_as t) <-> is_null (t_confidence t)).
Proof.
  exact (identify_speakers_paired span_embedding vote_of_two conversation).
Defined.

Example identify_conversation :
  identify_speakers span_embedding vote_of_two conversation
  = ({[ "SPEAKER_00" := Some "Ann"; "SPEAKER_01" := None ]},
     {[ "SPEAKER_00" := Some (9 # 10); "SPEAKER_01" := None ]}).
Proof. by vm_compute. Qed.

End ApiFacts.

(** ** Facts about the pipeline of the endpoints *)

Module PipelineFacts.
Import Num NumFacts Diarization DiarizationFacts Merger FindSpeakerFacts.
Import DiarizeOutput Embedding EmbeddingFacts Api.

(** X21. On the exclusive segments that [diarize] passes to the merge, a
    time strictly inside a segment gets the label of that segment, and a
    word whose midpoint is there gets it as its speaker when the label is
    not empty. *)
Theorem find_in_exclusive (segments : list segment) (e : segment) (t : Q) :
  e ∈ _make_exclusive segments -> start e < t -> t < end_ e ->
  _find_speaker_at_time t (_make_exclusive segments) = Some (speaker e)
  /\ forall w, word_mid w = t -> speaker e <> "" ->
       w_speaker (assign_word (_make_exclusive segments) w)
       = Some (speaker e).
Proof.
  intros [k Hk]%list_elem_of_lookup_1 Hs He.
  assert (_find_speaker_at_time t (_make_exclusive segments)
          = Some (speaker e)) as Hfind.
  { apply (find_speaker_first t _ k e Hk); auto using Qlt_le_weak.
    intros j s Hj Hjs. eapply Qle_lt_trans; [|exact Hs].
    by destruct (StronglySorted_lookup before _ j k s e
                   (make_exclusive_sorted segments) Hjs Hk Hj). }
  split; [exact Hfind|].
  intros w Hw Hne. cbn [assign_word w_speaker]. rewrite Hw, Hfind.
  by destruct (speaker e).
Qed.

Lemma find_in_exclusive_witness :
  _find_speaker_at_time 1 (_make_exclusive overlapping_pair) = Some "A"
  /\ forall w, word_mid w = 1 -> "A" <> "" ->
       w_speaker (assign_word (_make_exclusive overlapping_pair) w)
       = Some "A".
Proof.
  apply (find_in_exclusive overlapping_pair (mk_segment "A" 0 3 3) 1).
  - vm_compute. apply list_elem_of_here.
  - by vm_compute.
  - by vm_compute.
Defined.

Lemma extract_nil {vector} (extract : Q -> Q -> option vector) (m : Q)
    (l : list segment) (acc : list (segment * vector)) :
  fold_left (extract_step extract m) l acc = []
  <-> acc = []
      /\ forall seg, seg ∈ l -> long_enough m seg ->
           extract (start seg) (end_ seg) = None.
Proof.
  revert acc. induction l as [|seg l IH]; intros acc.
  - cbn. split; [intros ->; split; [done|by intros ? ?%elem_of_nil]|by intros [-> _]].
  - cbn [fold_left]. rewrite IH.
    destruct (extract_step_cases extract m acc seg)
      as [[-> [Hshort|Hnone]]|(e & -> & Hl & He)].
    + split; intros [-> H]; (split; [done|]).
      * intros s [->|Hs]%elem_of_cons Hlong; [done|by apply H].
      * intros s Hs. by apply H, list_elem_of_further.
    + split; intros [-> H]; (split; [done|]).
      * intros s [->|Hs]%elem_of_cons Hlong; [done|by apply H].
      * intros s Hs. by apply H, list_elem_of_further.
    + split.
      * intros [Hnil _]. by destruct acc.
      * intros [-> H]. specialize (H seg (list_elem_of_here _ _) Hl). congruence.
Qed.

Lemma extracted_embeddings {vector} (extract : Q -> Q -> option vector)
    (m : Q) (results : list (segment * vector)) :
  Forall (fun r => long_enough m (fst r)
                   /\ extract (start (fst r)) (end_ (fst r)) = Some (snd r))
         results ->
  Forall (long_enough m) (map fst results)
  /\ map (fun seg => extract (start seg) (end_ seg)) (map fst results)
     = map Some (map snd results).
Proof.
  induction 1 as [|r rs [Hl He] _ [IHl IHe]]; [by split|].
  cbn [map]. split; [by constructor|]. by rewrite He, IHe.
Qed.

(** X22. The block that builds the embeddings of a registration from the
    segments of a file raises the 400 error exactly when no segment that
    is long enough at the minimum 1.0 (by the float difference of its end
    and its start) yields an embedding.  Otherwise the embeddings it
    hands over are, in order, the embeddings extracted for segments of
    the input that are long enough: at least one, at most one per
    segment. *)
Theorem segment_embeddings_to_add_spec {vector}
    (extract : Q -> Q -> option vector) (segments : list segment) :
  (segment_embeddings_to_add extract segments = HttpError 400
   <-> forall seg, seg ∈ segments -> long_enough 1.0 seg ->
         extract (start seg) (end_ seg) = None)
  /\ (forall embeddings,
        segment_embeddings_to_add extract segments = Response embeddings ->
        (1 <= length embeddings <= length segments)%nat
        /\ exists kept,
             kept `sublist_of` segments
             /\ Forall (long_enough 1.0) kept
             /\ map (fun seg => extract (start seg) (end_ seg)) kept
                = map Some embeddings).
Proof.
  unfold segment_embeddings_to_add.
  pose proof (extract_nil extract 1.0 segments []) as Hnil.
  pose proof (extract_sublist extract 1.0 segments [] []
                (sublist_nil)) as Hsub.
  pose proof (extracted_embeddings extract 1.0 _
                (extract_long_enough extract 1.0 segments [] (Forall_nil_2 _)))
    as [Hlong Hext].
  pose proof (sublist_length _ _ Hsub) as Hlen. rewrite length_map in Hlen.
  fold (extract_embeddings_for_segments extract segments 1.0)
    in Hnil, Hsub, Hlen, Hlong, Hext.
  destruct (extract_embeddings_for_segments extract segments 1.0) as [|r rs].
  - split; [|done]. split; [intros _; by apply Hnil|done].
  - split.
    + split; [done|]. intros H.
      discriminate (proj2 Hnil (conj eq_refl H)).
    + intros embeddings [= <-]. split.
      * simpl in *. rewrite List.length_map. lia.
      * by exists (map fst (r :: rs)).
Qed.

Lemma segment_embeddings_to_add_witness :
  (1 <= length [(2 : Q, 4 : Q)] <= length mixed_segments)%nat
  /\ exists kept,
       kept `sublist_of` mixed_segments
       /\ Forall (long_enough 1.0) kept
       /\ map (fun seg => span_embedding (start seg) (end_ seg)) kept
          = map Some [(2 : Q, 4 : Q)].
Proof.
  apply (proj2 (segment_embeddings_to_add_spec span_embedding mixed_segments)).
  by vm_compute.
Defined.

(** A segment whose floats 0.001 and 1.001 differ by the float below 1.0
    is too short for a registration. *)
Example segment_embeddings_rounded_duration :
  segment_embeddings_to_add span_embedding [ mk_segment "A" 0.001 1.001 1 ]
  = HttpError 400
  /\ Float64.sub 1.001 0.001 = Float64.lit 0.9999999999999999.
Proof. by vm_compute. Qed.

Lemma with_bound_lookup (key key' : string) (a s : option nat)
    (kw : gmap string nat) :
  with_bound key a s kw !! key'
  = if decide (key = key')
    then match a with
         | Some n => Some n
         | None => match s with Some n => Some n | None => kw !! key' end
         end
    else kw !! key'.
Proof.
  unfold with_bound. destruct a as [n|]; [|destruct s as [n|]];
    destruct (decide (key = key')) as [->|Hne];
    rewrite ?lookup_insert_eq, ?lookup_insert_ne by done; done.
Qed.

(** X23. The keyword arguments that [diarize] gives the pipeline never
    hold [num_speakers] together with a bound: a given number of speakers
    is passed alone, and otherwise each bound is the argument or, without
    one, the configured bound.  [diarize_from_memory] passes the same
    arguments when no bound is configured, and never a configured one. *)
Theorem diarize_kwargs_spec (settings : speaker_settings)
    (num_speakers min_speakers max_speakers : option nat) :
  let kwargs :=
    diarize_kwargs settings num_speakers min_speakers max_speakers in
  kwargs !! "num_speakers" = num_speakers
  /\ (is_Some num_speakers ->
      kwargs !! "min_speakers" = None /\ kwargs !! "max_speakers" = None)
  /\ (num_speakers = None ->
      kwargs !! "min_speakers"
      = match min_speakers with
        | Some n => Some n
        | None => set_min_speakers settings
        end
      /\ kwargs !! "max_speakers"
         = match max_speakers with
           | Some n => Some n
           | None => set_max_speakers settings
           end)
  /\ diarize_from_memory_kwargs num_speakers min_speakers max_speakers
     = diarize_kwargs (mk_speaker_settings None None)
                      num_speakers min_speakers max_speakers.
Proof.
  intros kwargs. unfold kwargs, diarize_kwargs.
  destruct num_speakers as [n|].
  - split; [by rewrite lookup_singleton_eq|].
    split; [|split; [done|reflexivity]].
    intros _. by rewrite !lookup_singleton_ne.
  - rewrite !with_bound_lookup. cbn.
    split; [by rewrite lookup_empty|]. split; [by intros [? ?]|].
    split.
    + intros _. rewrite !lookup_empty.
      split; [by destruct min_speakers, (set_min_speakers settings)|].
      by destruct max_speakers, (set_max_speakers settings).
    + unfold diarize_from_memory_kwargs, with_bound. cbn.
      by destruct min_speakers, max_speakers.
Qed.

Lemma diarize_kwargs_spec_witness :
  diarize_kwargs (mk_speaker_settings (Some 1%nat) (Some 4%nat))
                 (Some 2%nat) (Some 1%nat) None !! "min_speakers" = None
  /\ diarize_kwargs (mk_speaker_settings (Some 1%nat) (Some 4%nat))
                    (Some 2%nat) (Some 1%nat) None !! "max_speakers" = None.
Proof.
  apply (diarize_kwargs_spec (mk_speaker_settings (Some 1%nat) (Some 4%nat))
           (Some 2%nat) (Some 1%nat) None).
  by eexists.
Defined.

End PipelineFacts.
